(** * RNTuple schema model, page pool and format compatibility

    A shallow embedding of [tree/ntuple/v7/src/RNTupleModel.cxx] (the
    projected-field table, the model life cycle, the updater) together with
    the page pool and the feature-flag check that the tests of the
    repository exercise.

    Conventions of the embedding:
    - an object address is a [ptr]; [nullptr] is [None] in an [option];
    - a [std::uint64_t] is a [Z] kept in [0, 2^64) with the wrap-around of
      [++] written out;
    - a C++ call either returns, throws, or has undefined behaviour
      ([outcome]); a function that mutates [*this] returns the new state
      next to its outcome;
    - the owning field tree ([std::unique_ptr] children) is a rose tree, and
      a [const RFieldBase *] handed around by the code is a [FieldRef]: the
      pointee together with the chain of parents that [GetParent] walks. *)

From stdpp Require Import gmap strings list pretty.
From Stdlib Require Import ZArith Ascii.

Local Open Scope string_scope.
Local Open Scope Z_scope.
Local Open Scope list_scope.
Local Set Warnings "-register-all".

(** ** Results, exceptions and undefined behaviour *)

(** [RResult<void>]: success, or the error built by [R__FAIL(what)]. *)
Inductive RResult : Type :=
| Success
| Failure (what : string).

(** What a call does: it returns a value, throws an exception carrying a
    message, or runs into undefined behaviour (a null dereference). *)
Inductive outcome (A : Type) : Type :=
| Returns (a : A)
| Throws (what : string)
| Undefined.

Arguments Returns {A} a.
Arguments Throws {A} what.
Arguments Undefined {A}.

#[global] Instance RResult_eq_dec : EqDecision RResult.
Proof. solve_decision. Defined.

#[global] Instance outcome_eq_dec {A : Type} `{EqDecision A} : EqDecision (outcome A).
Proof. solve_decision. Defined.

Definition R__FAIL (what : string) : RResult := Failure what.

(** [static_cast<bool>(result)]: a result converts to true when it holds no error. *)
Definition RResult_ok (r : RResult) : bool :=
  match r with Success => true | Failure _ => false end.

Definition returned {A : Type} (o : outcome A) : bool :=
  match o with Returns _ => true | _ => false end.

(** ** Fields *)

Definition ptr := positive.
Bind Scope positive_scope with ptr.

(** Modelled from the spec: the declaration of [ENTupleStructure] is not in
    src; the spec lists the structural kinds Leaf, Record, Collection,
    Unsplit and Variant. *)
Inductive ENTupleStructure : Type :=
| kLeaf | kCollection | kRecord | kVariant | kUnsplit.

#[global] Instance ENTupleStructure_eq_dec : EqDecision ENTupleStructure.
Proof. solve_decision. Defined.

(** Modelled from the spec: the class [RFieldBase] is declared outside
    src; a field has a name, a type name, a structural kind, a repetition
    count, a parent back-pointer and the children it owns. These are the
    attributes of one field object that [RNTupleModel.cxx] reads; [fAddr] is
    the address of the object and [fIsCardinality] tells whether
    [dynamic_cast<const RCardinalityField *>] succeeds on it. *)
Record RFieldInfo : Type := mkInfo {
  fAddr : ptr;
  fName : string;
  fTypeName : string;
  fStructure : ENTupleStructure;
  fNRepetitions : Z;
  fIsCardinality : bool
}.

(** A field with the children it owns ([fSubFields]). *)
Inductive RFieldBase : Type :=
| mkField (info : RFieldInfo) (subFields : list RFieldBase).

Definition fInfo (f : RFieldBase) : RFieldInfo :=
  match f with mkField i _ => i end.

Definition GetSubFields (f : RFieldBase) : list RFieldBase :=
  match f with mkField _ subs => subs end.

(** A [const RFieldBase *]: the pointee and, through [GetParent], the
    fields above it. *)
Inductive FieldRef : Type :=
| mkRef (info : RFieldInfo) (parent : option FieldRef).

Definition rInfo (f : FieldRef) : RFieldInfo :=
  match f with mkRef i _ => i end.

Definition GetParent (f : FieldRef) : option FieldRef :=
  match f with mkRef _ p => p end.

Definition GetStructure (f : FieldRef) : ENTupleStructure := fStructure (rInfo f).
Definition GetFieldName (f : FieldRef) : string := fName (rInfo f).
Definition GetTypeName (f : FieldRef) : string := fTypeName (rInfo f).
Definition GetNRepetitions (f : FieldRef) : Z := fNRepetitions (rInfo f).
Definition addr_of (f : FieldRef) : ptr := fAddr (rInfo f).

(** Pointer comparison [a == b] of two possibly null field pointers. *)
Definition ptr_eqb (a b : option FieldRef) : bool :=
  match a, b with
  | Some x, Some y => bool_decide (addr_of x = addr_of y)
  | None, None => true
  | _, _ => false
  end.

(** [FieldMap_t]: [std::unordered_map<const RFieldBase *, const RFieldBase *>],
    keyed by the address of the target field. *)
Abbreviation FieldMap_t := (gmap ptr FieldRef).

(** ** RProjectedFields::EnsureValidMapping *)

(** The loop of [fnHasArrayParent], entered with a non-null [parent]. *)
Fixpoint fnHasArrayParent_loop (parent : FieldRef) : bool :=
  if 0 <? GetNRepetitions parent then true
  else match GetParent parent with
       | Some p => fnHasArrayParent_loop p
       | None => false
       end.

Definition fnHasArrayParent (f : FieldRef) : bool :=
  match GetParent f with
  | Some parent => fnHasArrayParent_loop parent
  | None => false
  end.

(** The loop of [fnBreakPoint]: the first parent that is neither a record
    nor a leaf, [None] once the walk has passed the zero field. *)
Fixpoint fnBreakPoint_loop (parent : FieldRef) : option FieldRef :=
  if bool_decide (GetStructure parent ≠ kRecord) && bool_decide (GetStructure parent ≠ kLeaf)
  then Some parent
  else match GetParent parent with
       | Some p => fnBreakPoint_loop p
       | None => None
       end.

Definition fnBreakPoint (f : FieldRef) : option FieldRef :=
  match GetParent f with
  | Some parent => fnBreakPoint_loop parent
  | None => None
  end.

Definition EnsureValidMapping (target : FieldRef) (fieldMap : FieldMap_t) : outcome RResult :=
  match fieldMap !! addr_of target with
  | None => Throws "unordered_map::at"
  | Some source =>
    let hasCompatibleStructure :=
      bool_decide (GetStructure source = GetStructure target) ||
      (bool_decide (GetStructure source = kCollection) && fIsCardinality (rInfo target)) in
    if negb hasCompatibleStructure then
      Returns (R__FAIL ("field mapping structural mismatch: " +:+ GetFieldName source +:+ " --> " +:+
                        GetFieldName target))
    else if (bool_decide (GetStructure source = kLeaf) || bool_decide (GetStructure source = kUnsplit)) &&
            bool_decide (GetTypeName target ≠ GetTypeName source) then
      Returns (R__FAIL ("field mapping type mismatch: " +:+ GetFieldName source +:+ " --> " +:+
                        GetFieldName target))
    else if fnHasArrayParent source || fnHasArrayParent target then
      Returns (R__FAIL "unsupported field mapping across fixed-size arrays")
    else
      let sourceBreakPoint := fnBreakPoint source in
      if match sourceBreakPoint with
         | Some sbp => bool_decide (GetStructure sbp ≠ kCollection)
         | None => false
         end
      then Returns (R__FAIL "unsupported field mapping (source structure)")
      else
        let targetBreakPoint := fnBreakPoint target in
        (* targetBreakPoint && sourceBreakPoint->GetStructure() != kCollection:
           the right operand dereferences sourceBreakPoint *)
        match match targetBreakPoint with
              | None => Returns false
              | Some _ =>
                match sourceBreakPoint with
                | Some sbp => Returns (bool_decide (GetStructure sbp ≠ kCollection))
                | None => Undefined
                end
              end with
        | Undefined => Undefined
        | Throws e => Throws e
        | Returns true => Returns (R__FAIL "unsupported field mapping (target structure)")
        | Returns false =>
          match sourceBreakPoint, targetBreakPoint with
          | None, None => Returns Success
          | Some sbp, Some tbp =>
            if ptr_eqb sourceBreakPoint targetBreakPoint then Returns Success
            else match fieldMap !! addr_of tbp with
                 | Some second =>
                   if bool_decide (addr_of second = addr_of sbp) then Returns Success
                   else Returns (R__FAIL ("field mapping structure mismatch: " +:+ GetFieldName source +:+
                                          " --> " +:+ GetFieldName target))
                 | None =>
                   Returns (R__FAIL ("field mapping structure mismatch: " +:+ GetFieldName source +:+
                                     " --> " +:+ GetFieldName target))
                 end
          | _, _ =>
            Returns (R__FAIL ("field mapping structure mismatch: " +:+ GetFieldName source +:+ " --> " +:+
                              GetFieldName target))
          end
        end
  end.

(** ** Walking the owned tree *)

(** A field and everything below it, in the order the schema iterator
    visits them (a field before its children, children left to right);
    each reference carries the parent chain inside the tree. *)
Fixpoint subtree_refs (parent : option FieldRef) (f : RFieldBase) : list FieldRef :=
  match f with
  | mkField info subFields =>
    let self := mkRef info parent in
    self :: flat_map (subtree_refs (Some self)) subFields
  end.

(** Modelled from the spec: [RFieldBase::begin()] and [end()] are not in
    src; [for (const auto &f : *field)] visits every descendant of [field],
    and not [field] itself. [self] is [field] as the caller points to it. *)
Definition schema_iter (self : FieldRef) (field : RFieldBase) : list FieldRef :=
  flat_map (subtree_refs (Some self)) (GetSubFields field).

(** [field.get()] of a field that is not attached to a parent. *)
Definition get (field : RFieldBase) : FieldRef := mkRef (fInfo field) None.

(** Modelled from the spec: [RFieldBase::Attach] is not in src; it attaches
    the child as the last child of the receiver, which becomes its parent. *)
Definition Attach (self child : RFieldBase) : RFieldBase :=
  match self with
  | mkField info subFields => mkField info (subFields ++ [child])
  end.

(** Modelled from the spec: [RFieldBase::GetQualifiedFieldName] is not in
    src; the qualified path joins the names of the ancestors with dots, the
    nameless zero field ending the walk. *)
Fixpoint GetQualifiedFieldName_loop (result : string) (parent : FieldRef) : string :=
  if bool_decide (GetFieldName parent = "") then result
  else
    let result := GetFieldName parent +:+ "." +:+ result in
    match GetParent parent with
    | Some p => GetQualifiedFieldName_loop result p
    | None => result
    end.

Definition GetQualifiedFieldName (f : FieldRef) : string :=
  match GetParent f with
  | Some parent => GetQualifiedFieldName_loop (GetFieldName f) parent
  | None => GetFieldName f
  end.

(** Modelled from the spec: [ROOT::Split(fieldName, ".")] is not in src; a
    dotted path is cut at every dot into its segments. *)
Fixpoint Split (str : string) : list string :=
  match str with
  | EmptyString => [EmptyString]
  | String c rest =>
    if bool_decide (c = "."%char) then EmptyString :: Split rest
    else match Split rest with
         | segment :: segments => String c segment :: segments
         | [] => [String c EmptyString]
         end
  end.

(** ** The projected-field table *)

(** Modelled from the spec: the members of [RProjectedFields] are declared
    in the header, not in src; the table owns a projected sub-tree under a
    zero field of its own and maps each of its fields to a source field. *)
Record RProjectedFields : Type := mkProjectedFields {
  pfFieldZero : RFieldBase;
  pfFieldMap : gmap ptr FieldRef
}.

(** The loop of [RProjectedFields::Add] over the descendants of the field. *)
Fixpoint Add_loop (subFields : list FieldRef) (fieldMap : FieldMap_t) : outcome RResult :=
  match subFields with
  | [] => Returns Success
  | f :: rest =>
    match EnsureValidMapping f fieldMap with
    | Returns Success => Add_loop rest fieldMap
    | Returns (Failure what) => Returns (Failure what)
    | Throws what => Throws what
    | Undefined => Undefined
    end
  end.

(** [RProjectedFields::Add]. [fFieldMap.insert(first, last)] keeps the
    entries the table already has. *)
Definition RProjectedFields_Add (self : RProjectedFields) (field : RFieldBase) (fieldMap : FieldMap_t)
  : outcome RResult * RProjectedFields :=
  match EnsureValidMapping (get field) fieldMap with
  | Returns Success =>
    match Add_loop (schema_iter (get field) field) fieldMap with
    | Returns Success =>
      (Returns Success,
       {| pfFieldZero := Attach (pfFieldZero self) field;
          pfFieldMap := pfFieldMap self ∪ fieldMap |})
    | other => (other, self)
    end
  | other => (other, self)
  end.

Definition GetSourceField (self : RProjectedFields) (target : ptr) : option FieldRef :=
  pfFieldMap self !! target.

(** ** Entries *)

(** Modelled from the spec: [RFieldBase::RValue], [CreateValue] and
    [BindValue] are not in src; a value is bound to a field and has owned,
    default-constructed storage ([CreateValue]) or none yet
    ([BindValue(nullptr)]). *)
Record RValue : Type := mkValue {
  vField : ptr;
  vOwned : bool
}.

Definition CreateValue (f : RFieldBase) : RValue := mkValue (fAddr (fInfo f)) true.
Definition BindValue_nullptr (f : RFieldBase) : RValue := mkValue (fAddr (fInfo f)) false.

(** Modelled from the spec: [REntry] is not in src; an entry is an ordered
    collection of value bindings tagged with the model id and the schema id
    it was created against, and [AddValue] appends a binding. *)
Record REntry : Type := mkEntry {
  eModelId : Z;
  eSchemaId : Z;
  eValues : list RValue
}.

Definition REntry_new (modelId schemaId : Z) : REntry := mkEntry modelId schemaId [].

Definition AddValue (e : REntry) (v : RValue) : REntry :=
  mkEntry (eModelId e) (eSchemaId e) (eValues e ++ [v]).

(** Modelled from the spec: [REntry::RFieldToken] is not in src; a token
    is an (index, schema id) pair. *)
Record RFieldToken : Type := mkToken {
  tIndex : nat;
  tSchemaId : Z
}.

(** Modelled from the spec: [RFieldBase::RBulk] and [CreateBulk] of a
    field are not in src; a bulk is kept as the field it reads. *)
Record RBulk : Type := mkBulk { bField : ptr }.

(** ** Model identifiers *)

Definition u64_modulus : Z := 2 ^ 64.

(** [GetNewModelId]: [++gLastModelId] on the process-wide counter; the id
    returned and the counter afterwards. *)
Definition GetNewModelId (gLastModelId : Z) : Z * Z :=
  let next := (gLastModelId + 1) mod u64_modulus in
  (next, next).

(** The [n] ids issued by [n] successive calls, starting from a counter. *)
Fixpoint issued_ids (n : nat) (gLastModelId : Z) : list Z :=
  match n with
  | O => []
  | S n' => let '(id, g) := GetNewModelId gLastModelId in id :: issued_ids n' g
  end.

(** The counter after [n] successive calls. *)
Fixpoint counter_after (n : nat) (gLastModelId : Z) : Z :=
  match n with
  | O => gLastModelId
  | S n' => counter_after n' (GetNewModelId gLastModelId).2
  end.

(** ** The model *)

(** Modelled from the spec: the members of [RNTupleModel] are declared in
    the header, not in src; a model owns its zero field, an optional default
    entry, the set of used field names, a description, the projected-field
    table, the frozen flag, a model id and a schema id. *)
Record RNTupleModel : Type := mkModel {
  fFieldZero : RFieldBase;
  fDefaultEntry : option REntry;
  fFieldNames : gset string;
  fDescription : string;
  fProjectedFields : option RProjectedFields;
  fIsFrozen : bool;
  fModelId : Z;
  fSchemaId : Z
}.

(** Modelled from the spec: [IsFrozen] is not in src; it reads the frozen
    flag. *)
Definition IsFrozen (m : RNTupleModel) : bool := fIsFrozen m.

(** Modelled from the spec: [IsBare] is not in src; a bare model is one
    created without a default entry. *)
Definition IsBare (m : RNTupleModel) : bool :=
  match fDefaultEntry m with Some _ => false | None => true end.

(** Modelled from the spec: the constructor of [RFieldZero] is not in src;
    the zero field is the nameless root of a field tree. It is a record:
    the walk of [fnBreakPoint] passes it ("We reached the zero field"). *)
Definition RFieldZero_new (addr : ptr) : RFieldBase :=
  mkField (mkInfo addr "" "" kRecord 0 false) [].

(** The constructor: both identifiers start from one fresh id. *)
Definition RNTupleModel_new (fieldZero : RFieldBase) (gLastModelId : Z) : RNTupleModel * Z :=
  let '(id, g) := GetNewModelId gLastModelId in
  ({| fFieldZero := fieldZero;
      fDefaultEntry := None;
      fFieldNames := ∅;
      fDescription := "";
      fProjectedFields := None;
      fIsFrozen := false;
      fModelId := id;
      fSchemaId := id |}, g).

(** [CreateBare(fieldZero)]; [projZero] is where the zero field of the new
    projected-field table is allocated. *)
Definition CreateBare (fieldZero : RFieldBase) (projZero : ptr) (gLastModelId : Z) : RNTupleModel * Z :=
  let '(model, g) := RNTupleModel_new fieldZero gLastModelId in
  ({| fFieldZero := fFieldZero model;
      fDefaultEntry := fDefaultEntry model;
      fFieldNames := fFieldNames model;
      fDescription := fDescription model;
      fProjectedFields := Some (mkProjectedFields (RFieldZero_new projZero) ∅);
      fIsFrozen := fIsFrozen model;
      fModelId := fModelId model;
      fSchemaId := fSchemaId model |}, g).

(** [Create(fieldZero)]. *)
Definition Create (fieldZero : RFieldBase) (projZero : ptr) (gLastModelId : Z) : RNTupleModel * Z :=
  let '(model, g) := CreateBare fieldZero projZero gLastModelId in
  ({| fFieldZero := fFieldZero model;
      fDefaultEntry := Some (REntry_new (fModelId model) (fSchemaId model));
      fFieldNames := fFieldNames model;
      fDescription := fDescription model;
      fProjectedFields := fProjectedFields model;
      fIsFrozen := fIsFrozen model;
      fModelId := fModelId model;
      fSchemaId := fSchemaId model |}, g).

Definition EnsureNotFrozen (m : RNTupleModel) : outcome unit :=
  if IsFrozen m then Throws "invalid attempt to modify frozen model" else Returns tt.

Definition EnsureNotBare (m : RNTupleModel) : outcome unit :=
  if IsBare m then Throws "invalid attempt to use default entry of bare model" else Returns tt.

(** The loop of [FindField]: [field] is the current field, [self] the
    pointer to it. *)
Fixpoint FindField_loop (field : RFieldBase) (self : FieldRef) (segments : list string) : option FieldRef :=
  match segments with
  | [] => Some self
  | subfieldName :: rest =>
    match List.find (fun f => bool_decide (fName (fInfo f) = subfieldName)) (GetSubFields field) with
    | Some f => FindField_loop f (mkRef (fInfo f) (Some self)) rest
    | None => None
    end
  end.

Definition FindField (m : RNTupleModel) (fieldName : string) : option FieldRef :=
  if bool_decide (fieldName = "") then None
  else FindField_loop (fFieldZero m) (get (fFieldZero m)) (Split fieldName).

Definition GetField (m : RNTupleModel) (fieldName : string) : outcome FieldRef :=
  match FindField m fieldName with
  | Some f => Returns f
  | None => Throws ("invalid field: " +:+ fieldName)
  end.

Definition Freeze (m : RNTupleModel) : RNTupleModel :=
  {| fFieldZero := fFieldZero m;
     fDefaultEntry := fDefaultEntry m;
     fFieldNames := fFieldNames m;
     fDescription := fDescription m;
     fProjectedFields := fProjectedFields m;
     fIsFrozen := true;
     fModelId := fModelId m;
     fSchemaId := fSchemaId m |}.

Definition Unfreeze (m : RNTupleModel) (gLastModelId : Z) : RNTupleModel * Z :=
  if negb (IsFrozen m) then (m, gLastModelId)
  else
    let '(id, g) := GetNewModelId gLastModelId in
    ({| fFieldZero := fFieldZero m;
        fDefaultEntry :=
          match fDefaultEntry m with
          | Some e => Some (mkEntry id id (eValues e))
          | None => None
          end;
        fFieldNames := fFieldNames m;
        fDescription := fDescription m;
        fProjectedFields := fProjectedFields m;
        fIsFrozen := false;
        fModelId := id;
        fSchemaId := id |}, g).

Definition SetDescription (m : RNTupleModel) (description : string) : outcome unit * RNTupleModel :=
  match EnsureNotFrozen m with
  | Returns _ =>
    (Returns tt,
     {| fFieldZero := fFieldZero m;
        fDefaultEntry := fDefaultEntry m;
        fFieldNames := fFieldNames m;
        fDescription := description;
        fProjectedFields := fProjectedFields m;
        fIsFrozen := fIsFrozen m;
        fModelId := fModelId m;
        fSchemaId := fSchemaId m |})
  | Throws what => (Throws what, m)
  | Undefined => (Undefined, m)
  end.

(** What the additions leave alone: the frozen flag and both identifiers. *)
Definition same_ids (m m' : RNTupleModel) : Prop :=
  fIsFrozen m' = fIsFrozen m ∧ fModelId m' = fModelId m ∧ fSchemaId m' = fSchemaId m.

(** *** Read accessors *)

Definition GetFieldZero (m : RNTupleModel) : outcome RFieldBase :=
  if negb (IsFrozen m) then Throws "invalid attempt to get mutable zero field of unfrozen model"
  else Returns (fFieldZero m).

(** [*fDefaultEntry]. *)
Definition deref_fDefaultEntry (m : RNTupleModel) : outcome REntry :=
  match fDefaultEntry m with
  | Some e => Returns e
  | None => Undefined
  end.

(** The non-const overload of [GetDefaultEntry]. *)
Definition GetDefaultEntry (m : RNTupleModel) : outcome REntry :=
  match EnsureNotBare m with
  | Returns _ => deref_fDefaultEntry m
  | Throws what => Throws what
  | Undefined => Undefined
  end.

(** The const overload of [GetDefaultEntry]. *)
Definition GetDefaultEntry_const (m : RNTupleModel) : outcome REntry :=
  if negb (IsFrozen m) then Throws "invalid attempt to get default entry of unfrozen model"
  else match EnsureNotBare m with
       | Returns _ => deref_fDefaultEntry m
       | Throws what => Throws what
       | Undefined => Undefined
       end.

Definition CreateEntry (m : RNTupleModel) : outcome REntry :=
  if negb (IsFrozen m) then Throws "invalid attempt to create entry of unfrozen model"
  else Returns (fold_left (fun entry f => AddValue entry (CreateValue f))
                          (GetSubFields (fFieldZero m))
                          (REntry_new (fModelId m) (fSchemaId m))).

Definition CreateBareEntry (m : RNTupleModel) : outcome REntry :=
  if negb (IsFrozen m) then Throws "invalid attempt to create entry of unfrozen model"
  else Returns (fold_left (fun entry f => AddValue entry (BindValue_nullptr f))
                          (GetSubFields (fFieldZero m))
                          (REntry_new (fModelId m) (fSchemaId m))).

Definition GetToken (m : RNTupleModel) (fieldName : string) : outcome RFieldToken :=
  let topLevelFields := GetSubFields (fFieldZero m) in
  match list_find (fun f => fName (fInfo f) = fieldName) topLevelFields with
  | None => Throws ("invalid field name: " +:+ fieldName)
  | Some (distance, _) => Returns (mkToken distance (fSchemaId m))
  end.

Definition CreateBulk (m : RNTupleModel) (fieldName : string) : outcome RBulk :=
  if negb (IsFrozen m) then Throws "invalid attempt to create bulk of unfrozen model"
  else match FindField m fieldName with
       | None => Throws ("no such field: " +:+ fieldName)
       | Some f => Returns (mkBulk (addr_of f))
       end.

(** *** Mutation *)

Section Mutation.

(** [RFieldBase::EnsureValidFieldName] is declared outside src: the
    operations below are parametric in its verdict on a name. *)
Variable RFieldBase_EnsureValidFieldName : string -> RResult.

Definition EnsureValidFieldName (m : RNTupleModel) (fieldName : string) : outcome unit :=
  match RFieldBase_EnsureValidFieldName fieldName with
  | Failure what => Throws what
  | Success =>
    if bool_decide (fieldName ∈ fFieldNames m)
    then Throws ("field name '" +:+ fieldName +:+ "' already exists in NTuple model")
    else Returns tt
  end.

Definition AddField (m : RNTupleModel) (field : option RFieldBase) : outcome unit * RNTupleModel :=
  match EnsureNotFrozen m with
  | Throws what => (Throws what, m)
  | Undefined => (Undefined, m)
  | Returns _ =>
    match field with
    | None => (Throws "null field", m)
    | Some field =>
      match EnsureValidFieldName m (fName (fInfo field)) with
      | Throws what => (Throws what, m)
      | Undefined => (Undefined, m)
      | Returns _ =>
        (Returns tt,
         {| fFieldZero := Attach (fFieldZero m) field;
            fDefaultEntry :=
              match fDefaultEntry m with
              | Some e => Some (AddValue e (CreateValue field))
              | None => None
              end;
            fFieldNames := fFieldNames m ∪ {[ fName (fInfo field) ]};
            fDescription := fDescription m;
            fProjectedFields := fProjectedFields m;
            fIsFrozen := fIsFrozen m;
            fModelId := fModelId m;
            fSchemaId := fSchemaId m |})
      end
    end
  end.

(** The loop of [AddProjectedField] that resolves the source of every
    descendant; [None] when a source path does not resolve. *)
Fixpoint AddProjectedField_loop (m : RNTupleModel) (mapping : string -> string)
    (subFields : list FieldRef) (fieldMap : FieldMap_t) : option FieldMap_t :=
  match subFields with
  | [] => Some fieldMap
  | subField :: rest =>
    match FindField m (mapping (GetQualifiedFieldName subField)) with
    | None => None
    | Some sourceField =>
      AddProjectedField_loop m mapping rest (<[addr_of subField := sourceField]> fieldMap)
    end
  end.

(** The field map that [AddProjectedField] assembles for a field and its
    descendants, [None] when a source path does not resolve. *)
Definition resolve_sources (m : RNTupleModel) (mapping : string -> string) (field : RFieldBase)
  : option FieldMap_t :=
  match FindField m (mapping (fName (fInfo field))) with
  | None => None
  | Some sourceField =>
    AddProjectedField_loop m mapping (schema_iter (get field) field)
                           (<[addr_of (get field) := sourceField]> ∅)
  end.

Definition with_projection (m : RNTupleModel) (projectedFields : RProjectedFields)
    (fieldNames : gset string) : RNTupleModel :=
  {| fFieldZero := fFieldZero m;
     fDefaultEntry := fDefaultEntry m;
     fFieldNames := fieldNames;
     fDescription := fDescription m;
     fProjectedFields := Some projectedFields;
     fIsFrozen := fIsFrozen m;
     fModelId := fModelId m;
     fSchemaId := fSchemaId m |}.

Definition AddProjectedField (m : RNTupleModel) (field : option RFieldBase) (mapping : string -> string)
  : outcome RResult * RNTupleModel :=
  match EnsureNotFrozen m with
  | Throws what => (Throws what, m)
  | Undefined => (Undefined, m)
  | Returns _ =>
    match field with
    | None => (Returns (R__FAIL "null field"), m)
    | Some field =>
      let fieldName := fName (fInfo field) in
      match FindField m (mapping fieldName) with
      | None => (Returns (R__FAIL ("no such field: " +:+ mapping fieldName)), m)
      | Some sourceField =>
        match AddProjectedField_loop m mapping (schema_iter (get field) field)
                                     (<[addr_of (get field) := sourceField]> ∅) with
        | None => (Returns (R__FAIL ("no such field: " +:+ mapping fieldName)), m)
        | Some fieldMap =>
          match EnsureValidFieldName m fieldName with
          | Throws what => (Throws what, m)
          | Undefined => (Undefined, m)
          | Returns _ =>
            match fProjectedFields m with
            | None => (Undefined, m)
            | Some projectedFields =>
              let '(result, projectedFields) := RProjectedFields_Add projectedFields field fieldMap in
              match result with
              | Returns Success =>
                (Returns Success, with_projection m projectedFields (fFieldNames m ∪ {[ fieldName ]}))
              | other => (other, with_projection m projectedFields (fFieldNames m))
              end
            end
          end
        end
      end
    end
  end.

End Mutation.

(** *** Clone *)

(** [RFieldBase::Clone("")] copies a tree; [reloc] tells where the copy of
    each object is allocated. *)
Fixpoint Clone_field (reloc : ptr -> ptr) (f : RFieldBase) : RFieldBase :=
  match f with
  | mkField info subFields =>
    mkField (mkInfo (reloc (fAddr info)) (fName info) (fTypeName info) (fStructure info)
                    (fNRepetitions info) (fIsCardinality info))
            (map (Clone_field reloc) subFields)
  end.

(** One round of the outer loop of [RProjectedFields::Clone]: the key [k]
    points into the projected tree [fieldZero] of the original, so it is
    read through that tree. *)
Definition Clone_rewire (fieldZero cloneFieldZero : RFieldBase) (newModel : RNTupleModel)
    (acc : outcome FieldMap_t) (kv : ptr * FieldRef) : outcome FieldMap_t :=
  match acc with
  | Returns cloneMap =>
    match List.find (fun f => bool_decide (addr_of f = kv.1)) (schema_iter (get fieldZero) fieldZero) with
    | None => Undefined
    | Some k =>
      match List.find (fun f => bool_decide (GetQualifiedFieldName f = GetQualifiedFieldName k))
                      (schema_iter (get cloneFieldZero) cloneFieldZero) with
      | None => Returns cloneMap
      | Some f =>
        match GetField newModel (GetQualifiedFieldName kv.2) with
        | Returns source => Returns (<[addr_of f := source]> cloneMap)
        | Throws what => Throws what
        | Undefined => Undefined
        end
      end
    end
  | other => other
  end.

Definition RProjectedFields_Clone (self : RProjectedFields) (newModel : RNTupleModel) (reloc : ptr -> ptr)
  : outcome RProjectedFields :=
  let cloneFieldZero := Clone_field reloc (pfFieldZero self) in
  match fold_left (Clone_rewire (pfFieldZero self) cloneFieldZero newModel)
                  (map_to_list (pfFieldMap self)) (Returns ∅) with
  | Returns cloneMap => Returns (mkProjectedFields cloneFieldZero cloneMap)
  | Throws what => Throws what
  | Undefined => Undefined
  end.

(** [RNTupleModel::Clone]: the constructor draws one id and the clone then
    draws its model id; the result is the clone and the counter. *)
Definition Clone (m : RNTupleModel) (reloc : ptr -> ptr) (gLastModelId : Z) : outcome RNTupleModel * Z :=
  let '(cloneModel, g) := RNTupleModel_new (Clone_field reloc (fFieldZero m)) gLastModelId in
  let '(modelId, g) := GetNewModelId g in
  let schemaId := if fIsFrozen m then fSchemaId m else modelId in
  match fProjectedFields m with
  | None => (Undefined, g)
  | Some projectedFields =>
    match RProjectedFields_Clone projectedFields cloneModel reloc with
    | Throws what => (Throws what, g)
    | Undefined => (Undefined, g)
    | Returns cloneProjected =>
      (Returns
         {| fFieldZero := fFieldZero cloneModel;
            fDefaultEntry :=
              match fDefaultEntry m with
              | Some _ =>
                Some (fold_left (fun entry f => AddValue entry (CreateValue f))
                                (GetSubFields (fFieldZero cloneModel))
                                (REntry_new modelId schemaId))
              | None => None
              end;
            fFieldNames := fFieldNames m;
            fDescription := fDescription m;
            fProjectedFields := Some cloneProjected;
            fIsFrozen := fIsFrozen m;
            fModelId := modelId;
            fSchemaId := schemaId |}, g)
    end
  end.

(** ** The updater *)

(** Modelled from the spec: [RNTupleModelChangeset] is not in src; it
    names the fields and the projected fields added to the model. It is what
    the sink is handed by [UpdateSchema(changeset, firstEntry)]. *)
Record RNTupleModelChangeset : Type := mkChangeset {
  csAddedFields : list ptr;
  csAddedProjectedFields : list ptr
}.

(** Modelled from the spec: [RNTupleWriter] and the sink are not in src;
    the writer holds the model, a sink whose [UpdateSchema] calls are
    recorded here in the order received, and the number of rows written so
    far ([GetNEntries]). *)
Record RNTupleWriter : Type := mkWriter {
  wModel : RNTupleModel;
  wSinkUpdateSchema : list (RNTupleModelChangeset * Z);
  wNEntries : Z
}.

(** Modelled from the spec: the members of [RUpdater] are declared in the
    header, not in src; the updater refers to the writer, stages a changeset
    on the writer's model ([fOpenChangeset.fModel]) and keeps the model id
    to restore. *)
Record RUpdater : Type := mkUpdater {
  fWriter : RNTupleWriter;
  fAddedFields : list ptr;
  fAddedProjectedFields : list ptr;
  fNewModelId : Z
}.

(** Modelled from the spec: the member initialiser of [fNewModelId] is in
    the header, not in src; the placeholder model id is zero. *)
Definition RUpdater_new (writer : RNTupleWriter) : RUpdater :=
  mkUpdater writer [] [] 0.

(** Modelled from the spec: [RNTupleModelChangeset::IsEmpty] is not in
    src; a changeset is empty when nothing was staged. *)
Definition IsEmpty (u : RUpdater) : bool :=
  match fAddedFields u, fAddedProjectedFields u with
  | [], [] => true
  | _, _ => false
  end.

(** [fOpenChangeset.fModel]: the model the updater works on. *)
Definition fOpenChangeset_fModel (u : RUpdater) : RNTupleModel := wModel (fWriter u).

Definition set_model (w : RNTupleWriter) (m : RNTupleModel) : RNTupleWriter :=
  mkWriter m (wSinkUpdateSchema w) (wNEntries w).

Definition set_model_id (m : RNTupleModel) (id : Z) : RNTupleModel :=
  {| fFieldZero := fFieldZero m;
     fDefaultEntry := fDefaultEntry m;
     fFieldNames := fFieldNames m;
     fDescription := fDescription m;
     fProjectedFields := fProjectedFields m;
     fIsFrozen := fIsFrozen m;
     fModelId := id;
     fSchemaId := fSchemaId m |}.

Definition BeginUpdate (u : RUpdater) (gLastModelId : Z) : RUpdater * Z :=
  let '(model, g) := Unfreeze (wModel (fWriter u)) gLastModelId in
  (* std::swap(fOpenChangeset.fModel.fModelId, fNewModelId) *)
  (mkUpdater (set_model (fWriter u) (set_model_id model (fNewModelId u)))
             (fAddedFields u) (fAddedProjectedFields u) (fModelId model), g).

Definition CommitUpdate (u : RUpdater) : RUpdater :=
  let model := Freeze (wModel (fWriter u)) in
  let swapped := set_model_id model (fNewModelId u) in
  let newModelId := fModelId model in
  if IsEmpty u then
    mkUpdater (set_model (fWriter u) swapped) (fAddedFields u) (fAddedProjectedFields u) newModelId
  else
    let toCommit := mkChangeset (fAddedFields u) (fAddedProjectedFields u) in
    mkUpdater (mkWriter swapped
                        (wSinkUpdateSchema (fWriter u) ++ [(toCommit, wNEntries (fWriter u))])
                        (wNEntries (fWriter u)))
              [] [] newModelId.

Section UpdaterMutation.

Variable RFieldBase_EnsureValidFieldName : string -> RResult.

Definition RUpdater_AddField (u : RUpdater) (field : option RFieldBase) : outcome unit * RUpdater :=
  match AddField RFieldBase_EnsureValidFieldName (wModel (fWriter u)) field with
  | (Returns _, model) =>
    (Returns tt,
     mkUpdater (set_model (fWriter u) model)
               (fAddedFields u ++ match field with Some f => [fAddr (fInfo f)] | None => [] end)
               (fAddedProjectedFields u) (fNewModelId u))
  | (other, model) =>
    (other, mkUpdater (set_model (fWriter u) model) (fAddedFields u) (fAddedProjectedFields u) (fNewModelId u))
  end.

Definition RUpdater_AddProjectedField (u : RUpdater) (field : option RFieldBase)
    (mapping : string -> string) : outcome RResult * RUpdater :=
  match AddProjectedField RFieldBase_EnsureValidFieldName (wModel (fWriter u)) field mapping with
  | (Returns Success, model) =>
    (Returns Success,
     mkUpdater (set_model (fWriter u) model) (fAddedFields u)
               (fAddedProjectedFields u ++ match field with Some f => [fAddr (fInfo f)] | None => [] end)
               (fNewModelId u))
  | (other, model) =>
    (other, mkUpdater (set_model (fWriter u) model) (fAddedFields u) (fAddedProjectedFields u) (fNewModelId u))
  end.

End UpdaterMutation.

(** ** The page pool *)

Module PagePool.

Record RClusterInfo : Type := mkClusterInfo {
  ciId : Z;
  ciIndexOffset : Z
}.

(** Modelled from the spec: [RPage] is not in src; a page is a window into
    a buffer with a capacity, an element count, an element size and a
    cluster window; the null page has no buffer. *)
Record RPage : Type := mkPage {
  pBuffer : option ptr;
  pElementSize : Z;
  pMaxElements : Z;
  pNElements : Z;
  pRangeFirst : Z;
  pClusterInfo : RClusterInfo
}.

Definition null_page : RPage := mkPage None 0 0 0 0 (mkClusterInfo 0 0).

Definition IsNull (p : RPage) : bool :=
  match pBuffer p with Some _ => false | None => true end.

(** Modelled from the spec: [RPageAllocatorHeap::NewPage] is not in src;
    the new page has element count 0 and an empty cluster window. [buffer]
    is where the allocator placed the zeroed buffer. *)
Definition NewPage (buffer : ptr) (elementSize maxElements : Z) : RPage :=
  mkPage (Some buffer) elementSize maxElements 0 0 (mkClusterInfo 0 0).

Definition GrowUnchecked (p : RPage) (n : Z) : RPage :=
  mkPage (pBuffer p) (pElementSize p) (pMaxElements p) n (pRangeFirst p) (pClusterInfo p).

Definition SetWindow (p : RPage) (rangeFirst : Z) (clusterInfo : RClusterInfo) : RPage :=
  mkPage (pBuffer p) (pElementSize p) (pMaxElements p) (pNElements p) rangeFirst clusterInfo.

Definition GetGlobalRangeFirst (p : RPage) : Z := pRangeFirst p.
Definition GetGlobalRangeLast (p : RPage) : Z := pRangeFirst p + pNElements p - 1.
Definition GetClusterRangeFirst (p : RPage) : Z := pRangeFirst p - ciIndexOffset (pClusterInfo p).
Definition GetClusterRangeLast (p : RPage) : Z := GetClusterRangeFirst p + pNElements p - 1.

(** The page window contains a global row index. *)
Definition Contains (p : RPage) (globalIndex : Z) : bool :=
  (pRangeFirst p <=? globalIndex) && (globalIndex <? pRangeFirst p + pNElements p).

(** The page window contains a (cluster id, local index) pair. *)
Definition Contains_cluster (p : RPage) (clusterIndex : Z * Z) : bool :=
  bool_decide (ciId (pClusterInfo p) = clusterIndex.1) &&
  Contains p (clusterIndex.2 + ciIndexOffset (pClusterInfo p)).

(** The key of a pooled page: column identifier and runtime element type. *)
Record RKey : Type := mkKey {
  kColumnId : Z;
  kType : string
}.

#[global] Instance RKey_eq_dec : EqDecision RKey.
Proof. solve_decision. Defined.

(** A pooled page with its use count. *)
Record REntry : Type := mkPoolEntry {
  ePage : RPage;
  eKey : RKey;
  eUseCount : nat
}.

(** Modelled from the spec: [RPagePool] is not in src. The pool is the list
    of its entries, oldest first. *)
Abbreviation RPagePool := (list REntry).

(** Modelled from the spec: [RegisterPage] takes the page and returns a
    reference whose use count starts at 1. *)
Definition RegisterPage (pool : RPagePool) (page : RPage) (key : RKey) : RPage * RPagePool :=
  (page, pool ++ [mkPoolEntry page key 1]).

(** Modelled from the spec: [PreloadPage] is [RegisterPage] with a use
    count that starts at 0. *)
Definition PreloadPage (pool : RPagePool) (page : RPage) (key : RKey) : RPagePool :=
  pool ++ [mkPoolEntry page key 0].

(** Modelled from the spec: [GetPage] scans the entries for one with the
    key whose window contains the index; a miss returns the null page, a
    hit increments the use count and returns the page. [inWindow] is
    [Contains] at a global index or [Contains_cluster] at a cluster index. *)
Fixpoint GetPage_scan (pool : RPagePool) (key : RKey) (inWindow : RPage -> bool) : RPage * RPagePool :=
  match pool with
  | [] => (null_page, [])
  | e :: rest =>
    if bool_decide (eKey e = key) && inWindow (ePage e)
    then (ePage e, mkPoolEntry (ePage e) (eKey e) (S (eUseCount e)) :: rest)
    else let '(page, rest') := GetPage_scan rest key inWindow in (page, e :: rest')
  end.

Definition GetPage (pool : RPagePool) (key : RKey) (globalIndex : Z) : RPage * RPagePool :=
  GetPage_scan pool key (fun p => Contains p globalIndex).

Definition GetPage_cluster (pool : RPagePool) (key : RKey) (clusterIndex : Z * Z) : RPage * RPagePool :=
  GetPage_scan pool key (fun p => Contains_cluster p clusterIndex).

(** Modelled from the spec: releasing a scoped reference decrements the use
    count of the entry that holds the page and frees nothing; releasing a
    reference to the null page does nothing. *)
Fixpoint ReleasePage (pool : RPagePool) (page : RPage) : RPagePool :=
  match pool with
  | [] => []
  | e :: rest =>
    if negb (IsNull page) && bool_decide (pBuffer (ePage e) = pBuffer page)
    then mkPoolEntry (ePage e) (eKey e) (Nat.pred (eUseCount e)) :: rest
    else e :: ReleasePage rest page
  end.

(** Modelled from the spec: [Evict(maxCount)] removes up to [maxCount]
    entries with use count 0, oldest first. *)
Fixpoint Evict (pool : RPagePool) (maxCount : nat) : RPagePool :=
  match maxCount with
  | O => pool
  | S remaining =>
    match pool with
    | [] => []
    | e :: rest =>
      if bool_decide (eUseCount e = O) then Evict rest remaining
      else e :: Evict rest maxCount
    end
  end.

(** The entries of the pool that no reference uses. *)
Definition idle (pool : RPagePool) : list REntry :=
  filter (fun e => eUseCount e = O) pool.

(** The entries in use. *)
Definition in_use (pool : RPagePool) : list REntry :=
  filter (fun e => eUseCount e ≠ O) pool.

(** The buffers of the pooled pages, oldest first. *)
Definition buffers (pool : RPagePool) : list (option ptr) :=
  (fun e => pBuffer (ePage e)) <$> pool.

(** The use count of the entry that holds the buffer, if the pool has one. *)
Definition use_count (pool : RPagePool) (buffer : ptr) : option nat :=
  eUseCount <$> List.find (fun e => bool_decide (pBuffer (ePage e) = Some buffer)) pool.

(** The page of the tests: ten elements of size 1, global rows 50 to 59,
    in cluster 2 whose first row is 40. *)
Definition test_page (buffer : ptr) : RPage :=
  SetWindow (GrowUnchecked (NewPage buffer 1 10) 10) 50 (mkClusterInfo 2 40).

Definition test_key : RKey := mkKey 1 "void".

End PagePool.

(** ** Format compatibility *)

Module Compat.

(** Modelled from the spec: the descriptor, its builder and the serializer
    are not in src. A descriptor carries the feature flags it was built
    with, an ordered collection of small non-negative integers. *)
Record RNTupleDescriptor : Type := mkDescriptor {
  dName : string;
  dFeatureFlags : list N;
  dFields : list string
}.

Definition SetFeature (d : RNTupleDescriptor) (flag : N) : RNTupleDescriptor :=
  mkDescriptor (dName d)
               (if bool_decide (flag ∈ dFeatureFlags d) then dFeatureFlags d else dFeatureFlags d ++ [flag])
               (dFields d).

(** Modelled from the spec: a serialized header embeds the full flag set
    verbatim, ahead of the rest of the descriptor. *)
Record header : Type := mkHeader {
  hFeatureFlags : list N;
  hDescriptor : RNTupleDescriptor
}.

Definition SerializeHeader (d : RNTupleDescriptor) : header :=
  mkHeader (dFeatureFlags d) d.

(** The flags of a header that a reader does not understand. *)
Definition unrecognized (understood : gset N) (flags : list N) : list N :=
  filter (fun flag => flag ∉ understood) flags.

(** The flag values as the error message prints them. *)
Fixpoint show_flags (flags : list N) : string :=
  match flags with
  | [] => ""
  | [flag] => pretty flag
  | flag :: rest => pretty flag +:+ ", " +:+ show_flags rest
  end.

(** Modelled from the spec: [RPageSource::Attach] is not in src. The reader
    decodes the flag set before anything else and fails, reporting the
    unrecognized flag values, if a flag is outside the set it understands;
    only otherwise is the descriptor (fields, pages) made accessible. *)
Definition Attach (understood : gset N) (h : header) : outcome RNTupleDescriptor :=
  match unrecognized understood (hFeatureFlags h) with
  | [] => Returns (hDescriptor h)
  | flags => Throws ("unsupported format feature: " +:+ show_flags flags)
  end.

(** [needle] occurs in [hay]. *)
Definition HasSubstr (needle hay : string) : Prop :=
  ∃ before after : string, hay = before +:+ needle +:+ after.

(** The flag that the test of the repository sets. *)
Definition kFeatureFlagTest : N := 137.

(** The header of [TEST(RNTupleCompat, FeatureFlag)]: the descriptor of
    "ntpl" with the test flag set. *)
Definition test_header : header :=
  SerializeHeader (SetFeature (mkDescriptor "ntpl" [] []) kFeatureFlagTest).

(** A reader that understands no feature flag. *)
Definition no_features : gset N := ∅.

End Compat.

(** ** Life cycle of a model *)

(** The operations a client applies to a model it owns. *)
Inductive model_op : Type :=
| OpAddField (field : option RFieldBase)
| OpAddProjectedField (field : option RFieldBase) (mapping : string -> string)
| OpSetDescription (description : string)
| OpFreeze
| OpUnfreeze.

(** What is staged inside an updater window. *)
Inductive staged_op : Type :=
| StageField (field : option RFieldBase)
| StageProjectedField (field : option RFieldBase) (mapping : string -> string).

Section LifeCycle.

Variable RFieldBase_EnsureValidFieldName : string -> RResult.

(** One operation on the model and the id counter; an exception leaves
    the state the operation had reached. *)
Definition run_model_op (op : model_op) (m : RNTupleModel) (gLastModelId : Z) : RNTupleModel * Z :=
  match op with
  | OpAddField field => ((AddField RFieldBase_EnsureValidFieldName m field).2, gLastModelId)
  | OpAddProjectedField field mapping =>
    ((AddProjectedField RFieldBase_EnsureValidFieldName m field mapping).2, gLastModelId)
  | OpSetDescription description => ((SetDescription m description).2, gLastModelId)
  | OpFreeze => (Freeze m, gLastModelId)
  | OpUnfreeze => Unfreeze m gLastModelId
  end.

Definition run_staged_op (op : staged_op) (u : RUpdater) : RUpdater :=
  match op with
  | StageField field => (RUpdater_AddField RFieldBase_EnsureValidFieldName u field).2
  | StageProjectedField field mapping =>
    (RUpdater_AddProjectedField RFieldBase_EnsureValidFieldName u field mapping).2
  end.

Definition run_staged_ops (ops : list staged_op) (u : RUpdater) : RUpdater :=
  fold_left (fun u op => run_staged_op op u) ops u.

(** The states of a model in the hands of a client, with the counter of
    the id generator. The flag tells whether the model is a clone of a
    frozen model that has not been unfrozen since. *)
Inductive reachable_model : RNTupleModel -> Z -> bool -> Prop :=
| reach_CreateBare fieldZero projZero g :
    reachable_model (CreateBare fieldZero projZero g).1 (CreateBare fieldZero projZero g).2 false
| reach_Create fieldZero projZero g :
    reachable_model (Create fieldZero projZero g).1 (Create fieldZero projZero g).2 false
| reach_op m g frozenClone op :
    reachable_model m g frozenClone ->
    reachable_model (run_model_op op m g).1 (run_model_op op m g).2
                    (match op with OpUnfreeze => false | _ => frozenClone end)
| reach_Clone m g frozenClone reloc clone :
    reachable_model m g frozenClone ->
    (Clone m reloc g).1 = Returns clone ->
    reachable_model clone (Clone m reloc g).2 (IsFrozen m)
| reach_other_model m g frozenClone :
    reachable_model m g frozenClone ->
    reachable_model m (GetNewModelId g).2 frozenClone.

(** The states of an updater over the model of a writer: outside a window
    ([false]) or between [BeginUpdate] and [CommitUpdate] ([true]); the
    last flag is the one of [reachable_model]. *)
Inductive reachable_updater : RUpdater -> Z -> bool -> bool -> Prop :=
| reach_RUpdater writer g frozenClone :
    reachable_model (wModel writer) g frozenClone ->
    reachable_updater (RUpdater_new writer) g false frozenClone
| reach_BeginUpdate u g frozenClone :
    reachable_updater u g false frozenClone ->
    reachable_updater (BeginUpdate u g).1 (BeginUpdate u g).2 true false
| reach_staged u g op :
    reachable_updater u g true false ->
    reachable_updater (run_staged_op op u) g true false
| reach_CommitUpdate u g :
    reachable_updater u g true false ->
    reachable_updater (CommitUpdate u) g false false
| reach_other_updater u g window frozenClone :
    reachable_updater u g window frozenClone ->
    reachable_updater u (GetNewModelId g).2 window frozenClone.

End LifeCycle.

(** ** Worked objects *)

Module Example.

(** An instance of the name check: the empty name is refused. *)
Definition EnsureValidFieldName_nonempty (fieldName : string) : RResult :=
  if bool_decide (fieldName = "") then R__FAIL "name cannot be empty string" else Success.

Definition field_w : RFieldBase :=
  mkField (mkInfo 2 "w" "std::variant<float>" kVariant 0 false)
          [mkField (mkInfo 6 "_0" "float" kLeaf 0 false) []].

Definition field_y : RFieldBase := mkField (mkInfo 3 "y" "float" kLeaf 0 false) [].

Definition field_c : RFieldBase :=
  mkField (mkInfo 4 "c" "std::vector<float>" kCollection 0 false)
          [mkField (mkInfo 5 "_0" "float" kLeaf 0 false) []].

(** A model with the top-level fields [w] (a variant), [y] (a leaf) and
    [c] (a collection of floats), built on a fresh id counter. *)
Definition model_empty : RNTupleModel := (Create (RFieldZero_new 1) 10 0).1.

Definition model_w : RNTupleModel := (AddField EnsureValidFieldName_nonempty model_empty (Some field_w)).2.
Definition model_wy : RNTupleModel := (AddField EnsureValidFieldName_nonempty model_w (Some field_y)).2.
Definition model : RNTupleModel := (AddField EnsureValidFieldName_nonempty model_wy (Some field_c)).2.

(** A projected field [v], a variant, with the leaf [v._0] below it. *)
Definition field_v : RFieldBase :=
  mkField (mkInfo 20 "v" "std::variant<float>" kVariant 0 false)
          [mkField (mkInfo 21 "_0" "float" kLeaf 0 false) []].

(** [v] is projected from [w] and [v._0] from the top-level leaf [y]. *)
Definition mapping_v (path : string) : string :=
  if bool_decide (path = "v") then "w"
  else if bool_decide (path = "v._0") then "y"
  else "".

(** [v._0] as the schema iterator of [v] reaches it. *)
Definition ref_v0 : FieldRef := mkRef (mkInfo 21 "_0" "float" kLeaf 0 false) (Some (get field_v)).

(** The fields [c] and [c._0] of the model. *)
Definition ref_c : FieldRef :=
  mkRef (fInfo field_c) (Some (get (fFieldZero model))).

Definition ref_c0 : FieldRef := mkRef (mkInfo 5 "_0" "float" kLeaf 0 false) (Some ref_c).

(** A field map that sends [v._0] to [c._0] and the variant [v] to the
    collection [c]. *)
Definition fieldMap_v_to_c : FieldMap_t := <[21%positive := ref_c0]> (<[20%positive := ref_c]> ∅).

(** A projected leaf [p] for the leaf [y], and mappings for it. *)
Definition field_p : RFieldBase := mkField (mkInfo 30 "p" "float" kLeaf 0 false) [].

Definition mapping_p (path : string) : string :=
  if bool_decide (path = "p") then "y" else "".

Definition mapping_missing (path : string) : string := "nowhere".

(** A mapping that sends the leaf [p] to the collection [c]. *)
Definition mapping_p_to_c (path : string) : string :=
  if bool_decide (path = "p") then "c" else "".

(** The top-level leaf [y] of the model. *)
Definition ref_y : FieldRef := mkRef (fInfo field_y) (Some (get (fFieldZero model))).

(** A leaf below a fixed-size array of three elements. *)
Definition ref_in_array : FieldRef :=
  mkRef (mkInfo 61 "_0" "float" kLeaf 0 false)
        (Some (mkRef (mkInfo 60 "a" "std::array<float,3>" kLeaf 3 false) None)).

(** A writer over the frozen model with five rows written, and its updater. *)
Definition writer : RNTupleWriter := mkWriter (Freeze model) [] 5.

Definition updater : RUpdater := RUpdater_new writer.

Definition field_z : RFieldBase := mkField (mkInfo 40 "z" "float" kLeaf 0 false) [].

End Example.

(** ** Sequences of operations and what they keep *)

Section Sequences.

Variable RFieldBase_EnsureValidFieldName : string -> RResult.

(** A client applies operations to a model one after the other. *)
Definition run_model_ops (ops : list model_op) (m : RNTupleModel) (gLastModelId : Z) : RNTupleModel * Z :=
  fold_left (fun st op => run_model_op RFieldBase_EnsureValidFieldName op st.1 st.2) ops (m, gLastModelId).

(** One updater window: [BeginUpdate], the staged additions, [CommitUpdate]. *)
Definition run_window (ops : list staged_op) (u : RUpdater) (gLastModelId : Z) : RUpdater * Z :=
  let '(begun, g) := BeginUpdate u gLastModelId in
  (CommitUpdate (run_staged_ops RFieldBase_EnsureValidFieldName ops begun), g).

End Sequences.

(** The names of the top-level fields, in the order of the fields. *)
Definition top_level_names (m : RNTupleModel) : list string :=
  (fun f => fName (fInfo f)) <$> GetSubFields (fFieldZero m).

(** The default entry, when there is one, carries the identifiers of the
    model and one owned value per top-level field, in the order of the
    fields. *)
Definition default_entry_in_step (m : RNTupleModel) : Prop :=
  ∀ e, fDefaultEntry m = Some e →
       e = mkEntry (fModelId m) (fSchemaId m) (CreateValue <$> GetSubFields (fFieldZero m)).

(** Both identifiers of the model were issued by the generator: they are
    positive and not above its counter. *)
Definition ids_issued (m : RNTupleModel) (gLastModelId : Z) : Prop :=
  (0 < fModelId m ≤ gLastModelId) ∧ (0 < fSchemaId m ≤ gLastModelId).

(** The name has no dot. *)
Fixpoint no_dot (name : string) : bool :=
  match name with
  | EmptyString => true
  | String c rest => negb (bool_decide (c = "."%char)) && no_dot rest
  end.

(** The copy of a field reference in a cloned tree: every field of the
    parent chain sits where [reloc] put its copy. *)
Fixpoint relocate (reloc : ptr -> ptr) (f : FieldRef) : FieldRef :=
  match f with
  | mkRef info parent =>
    mkRef (mkInfo (reloc (fAddr info)) (fName info) (fTypeName info) (fStructure info)
                  (fNRepetitions info) (fIsCardinality info))
          (match parent with
           | Some p => Some (relocate reloc p)
           | None => None
           end)
  end.

(** The top-level fields of the projected-field table. *)
Definition projected_subfields (m : RNTupleModel) : list RFieldBase :=
  match fProjectedFields m with
  | Some projectedFields => GetSubFields (pfFieldZero projectedFields)
  | None => []
  end.

(** The names of the top-level fields and of the top-level projected
    fields. *)
Definition all_names (m : RNTupleModel) : list string :=
  top_level_names m ++ ((fun f => fName (fInfo f)) <$> projected_subfields m).

(** The top-level fields and projected fields have distinct names, and
    [fFieldNames] holds exactly these names. *)
Definition names_recorded (m : RNTupleModel) : Prop :=
  NoDup (all_names m) ∧ ∀ name, name ∈ all_names m ↔ name ∈ fFieldNames m.

(** The names on the way from the root of the tree down to the field, the
    root left out. *)
Fixpoint names_from_root (f : FieldRef) : list string :=
  match f with
  | mkRef info (Some parent) => names_from_root parent ++ [fName info]
  | mkRef _ None => []
  end.

(** The addresses of a list of fields. *)
Definition addresses (fields : list RFieldBase) : list ptr :=
  (fun f => fAddr (fInfo f)) <$> fields.

(** An updater between two windows: the placeholder id is in place, nothing
    is staged, and the model of the writer is frozen. *)
Definition between_windows (u : RUpdater) : Prop :=
  fNewModelId u = 0 ∧ IsEmpty u = true ∧ IsFrozen (fOpenChangeset_fModel u) = true.

(** The conditions [EnsureValidMapping] tests before it looks at break
    points. *)
Definition passes_field_checks (target source : FieldRef) : Prop :=
  (GetStructure source = GetStructure target ∨
   (GetStructure source = kCollection ∧ fIsCardinality (rInfo target) = true)) ∧
  (GetStructure source = kLeaf ∨ GetStructure source = kUnsplit →
   GetTypeName target = GetTypeName source) ∧
  fnHasArrayParent source = false ∧
  fnHasArrayParent target = false.

#[local] Instance passes_field_checks_dec target source : Decision (passes_field_checks target source).
Proof. unfold passes_field_checks. apply _. Defined.

(** A projected collection [q] with its element field, and the mapping that
    projects it from the collection [c] of the worked model. *)
Definition field_q : RFieldBase :=
  mkField (mkInfo 80 "q" (fTypeName (fInfo Example.field_c)) kCollection 0 false)
          [mkField (mkInfo 81 "_0" "float" kLeaf 0 false) []].

Definition mapping_q (path : string) : string :=
  if bool_decide (path = "q") then "c"
  else if bool_decide (path = "q._0") then "c._0"
  else "".

(** ** The estimate of the memory used for writing *)

(** [RNTupleWriteOptions::EImplicitMT]. *)
Inductive EImplicitMT : Type := kOff | kDefault.

#[global] Instance EImplicitMT_eq_dec : EqDecision EImplicitMT.
Proof. solve_decision. Defined.

(** Modelled from the spec: [RNTupleWriteOptions] is not in src; the
    options are read through the getters that [EstimateWriteMemoryUsage]
    calls, the sizes being [std::size_t] and the compression an [int]. *)
Record RNTupleWriteOptions : Type := mkWriteOptions {
  GetInitialNElementsPerPage : Z;
  GetPageBufferBudget : Z;
  GetMaxUnzippedPageSize : Z;
  GetUseBufferedWrite : bool;
  GetApproxZippedClusterSize : Z;
  GetCompression : Z;
  GetUseImplicitMT : EImplicitMT
}.

(** [std::size_t] is taken to have 64 bits, its sums and products wrap. *)
Definition size_t_modulus : Z := 2 ^ 64.
Definition size_t_add (a b : Z) : Z := (a + b) mod size_t_modulus.
Definition size_t_mul (a b : Z) : Z := (a * b) mod size_t_modulus.

Section Estimate.

(** The column types, the column representatives of a field and the size
    of the elements of a column type ([RColumnElementBase::Generate] and
    [GetSize]) are declared outside src. *)
Variable EColumnType : Type.
Variable GetColumnRepresentatives : FieldRef -> list (list EColumnType).
Variable GetSize : EColumnType -> Z.

(** The body of the loop over the representatives of a field: the state is
    [nColumns] and [minPageBufferSize]. *)
Definition EstimateWriteMemoryUsage_representative (options : RNTupleWriteOptions)
    (state : Z * Z) (r : list EColumnType) : Z * Z :=
  (size_t_add state.1 (Z.of_nat (length r)),
   fold_left (fun minPageBufferSize columnType =>
                size_t_add minPageBufferSize
                           (size_t_mul (GetInitialNElementsPerPage options) (GetSize columnType)))
             r state.2).

(** The body of the loop over the fields. *)
Definition EstimateWriteMemoryUsage_field (options : RNTupleWriteOptions)
    (state : Z * Z) (field : FieldRef) : Z * Z :=
  fold_left (EstimateWriteMemoryUsage_representative options) (GetColumnRepresentatives field) state.

Definition EstimateWriteMemoryUsage (m : RNTupleModel) (options : RNTupleWriteOptions) : Z :=
  let '(nColumns, minPageBufferSize) :=
    fold_left (EstimateWriteMemoryUsage_field options)
              (schema_iter (get (fFieldZero m)) (fFieldZero m)) (0, 0) in
  let bytes := Z.min (GetPageBufferBudget options)
                     (size_t_mul nColumns (GetMaxUnzippedPageSize options)) in
  if GetUseBufferedWrite options then
    let bytes := size_t_add bytes minPageBufferSize in
    let bytes := size_t_add bytes (GetApproxZippedClusterSize options) in
    if negb (GetCompression options =? 0) && bool_decide (GetUseImplicitMT options = kDefault)
    then size_t_add bytes (size_t_mul 2 (GetApproxZippedClusterSize options))
    else bytes
  else bytes.

(** The column types of all fields below the zero field, in the order the
    loops visit them. *)
Definition column_types (m : RNTupleModel) : list EColumnType :=
  concat (flat_map GetColumnRepresentatives (schema_iter (get (fFieldZero m)) (fFieldZero m))).

(** The sum of the element sizes of a list of column types. *)
Definition total_size (columns : list EColumnType) : Z :=
  foldr (fun columnType sum => GetSize columnType + sum) 0 columns.

(** What the statements of [EstimateWriteMemoryUsage] compute when no sum
    and no product wraps. *)
Definition EstimateWriteMemoryUsage_unbounded (m : RNTupleModel) (options : RNTupleWriteOptions) : Z :=
  Z.min (GetPageBufferBudget options)
        (Z.of_nat (length (column_types m)) * GetMaxUnzippedPageSize options) +
  (if GetUseBufferedWrite options then
     GetInitialNElementsPerPage options * total_size (column_types m) +
     GetApproxZippedClusterSize options +
     (if negb (GetCompression options =? 0) && bool_decide (GetUseImplicitMT options = kDefault)
      then 2 * GetApproxZippedClusterSize options else 0)
   else 0).

(** The options hold sizes, and nothing wraps for the model. *)
Definition in_size_t_range (m : RNTupleModel) (options : RNTupleWriteOptions) : Prop :=
  0 ≤ GetInitialNElementsPerPage options ∧
  0 ≤ GetPageBufferBudget options ∧
  0 ≤ GetMaxUnzippedPageSize options ∧
  0 ≤ GetApproxZippedClusterSize options ∧
  (∀ columnType, 0 ≤ GetSize columnType) ∧
  Z.of_nat (length (column_types m)) * GetMaxUnzippedPageSize options < size_t_modulus ∧
  EstimateWriteMemoryUsage_unbounded m options < size_t_modulus.

End Estimate.

(** Columns for the worked model: a leaf has one column of its type, a
    collection an offset column; a column type is named by its size. *)
Definition example_GetColumnRepresentatives (field : FieldRef) : list (list N) :=
  match GetStructure field with
  | kLeaf => [[4%N]]
  | kCollection => [[8%N]]
  | _ => []
  end.

Definition example_options : RNTupleWriteOptions :=
  {| GetInitialNElementsPerPage := 64;
     GetPageBufferBudget := 1000000;
     GetMaxUnzippedPageSize := 65536;
     GetUseBufferedWrite := true;
     GetApproxZippedClusterSize := 50000000;
     GetCompression := 505;
     GetUseImplicitMT := kDefault |}.

(** ** Trees whose fields can be addressed by name *)

(** Below the field, siblings have distinct names and every name is a
    non-empty string without a dot. *)
Inductive well_named : RFieldBase -> Prop :=
| well_named_field info subFields :
    NoDup ((fun f => fName (fInfo f)) <$> subFields) ->
    Forall (fun f => fName (fInfo f) ≠ "" ∧ no_dot (fName (fInfo f)) = true ∧ well_named f) subFields ->
    well_named (mkField info subFields).

(** The parent chain ends in a nameless field, the zero field, and no
    other field of the chain is nameless. *)
Fixpoint below_zero_field (f : FieldRef) : Prop :=
  match f with
  | mkRef info (Some parent) => fName info ≠ "" ∧ below_zero_field parent
  | mkRef info None => fName info = ""
  end.

(** The names, each followed by a dot. *)
Definition dotted (names : list string) : string :=
  foldr (fun name path => name +:+ "." +:+ path) "" names.

(** Induction on a tree of fields, with the hypothesis for every child. *)
Fixpoint RFieldBase_tree_ind (P : RFieldBase -> Prop)
    (step : ∀ info subFields, Forall P subFields -> P (mkField info subFields))
    (f : RFieldBase) : P f :=
  match f with
  | mkField info subFields =>
    step info subFields
         ((fix children (l : list RFieldBase) : Forall P l :=
             match l with
             | [] => Forall_nil_2 P
             | child :: rest => Forall_cons_2 P child rest (RFieldBase_tree_ind P step child) (children rest)
             end) subFields)
  end.

(** Induction on a reference, along its parent chain. *)
Fixpoint FieldRef_chain_ind (P : FieldRef -> Prop)
    (root : ∀ info, P (mkRef info None))
    (step : ∀ info parent, P parent -> P (mkRef info (Some parent)))
    (f : FieldRef) : P f :=
  match f with
  | mkRef info (Some parent) => step info parent (FieldRef_chain_ind P root step parent)
  | mkRef info None => root info
  end.

(** A mapping that projects [q] from the collection [c] and its element
    field [q._0] from the top-level leaf [y], which is in no collection. *)
Definition mapping_q_to_y (path : string) : string :=
  if bool_decide (path = "q") then "c"
  else if bool_decide (path = "q._0") then "y"
  else "".

(** The worked model with the projected collection [q]. *)
Definition model_q : RNTupleModel :=
  (AddProjectedField Example.EnsureValidFieldName_nonempty Example.model (Some field_q) mapping_q).2.

(** * Properties *)

(** ** Projected fields *)

(** C1 (defect in the code). The check of the target's break point reads
    the source's break point again. With [v._0] below the variant [v] and
    its source [c._0] below the collection [c], a field map that sends [v]
    to [c] is accepted by [EnsureValidMapping] although the break point of
    the target is a variant. And when the source has no break point at all
    ([v._0] projected from the top-level leaf [y], [v] from the variant
    [w]), [AddProjectedField] validates [v], reaches [v._0] and dereferences
    the null [sourceBreakPoint] instead of rejecting the mapping. *)
Theorem EnsureValidMapping_target_break_point_unchecked :
  schema_iter (get Example.field_v) Example.field_v = [Example.ref_v0] ∧
  (GetStructure <$> fnBreakPoint Example.ref_v0) = Some kVariant ∧
  (GetStructure <$> fnBreakPoint Example.ref_c0) = Some kCollection ∧
  FindField Example.model "c._0" = Some Example.ref_c0 ∧
  EnsureValidMapping Example.ref_v0 Example.fieldMap_v_to_c = Returns Success ∧
  (GetStructure <$> FindField Example.model (Example.mapping_v "v")) = Some kVariant ∧
  (fnBreakPoint <$> FindField Example.model (Example.mapping_v "v._0")) = Some None ∧
  (∃ fieldMap,
     resolve_sources Example.model Example.mapping_v Example.field_v = Some fieldMap ∧
     EnsureValidMapping (get Example.field_v) fieldMap = Returns Success ∧
     EnsureValidMapping Example.ref_v0 fieldMap = Undefined) ∧
  AddProjectedField Example.EnsureValidFieldName_nonempty Example.model (Some Example.field_v)
                    Example.mapping_v
  = (Undefined, Example.model).
Proof.
  repeat split; try (vm_compute; reflexivity).
  destruct (resolve_sources Example.model Example.mapping_v Example.field_v)
    as [fieldMap|] eqn:Hmap; [|vm_compute in Hmap; discriminate].
  exists fieldMap. split; [reflexivity|].
  vm_compute in Hmap. injection Hmap as <-. split; vm_compute; reflexivity.
Qed.

(** A failed [RProjectedFields::Add] returns the table it was given. *)
Lemma RProjectedFields_Add_failure self field fieldMap result self' :
  RProjectedFields_Add self field fieldMap = (result, self') →
  result ≠ Returns Success →
  self' = self.
Proof.
  unfold RProjectedFields_Add. intros Hadd Hfail.
  destruct (EnsureValidMapping (get field) fieldMap) as [[|what]|what|];
    try (injection Hadd as <- <-; reflexivity).
  destruct (Add_loop (schema_iter (get field) field) fieldMap) as [[|what]|what|];
    injection Hadd as <- <-; [contradiction | reflexivity..].
Qed.

(** The loop of [Add] succeeds exactly when every field it visits has a
    valid mapping. *)
Lemma Add_loop_success subFields (fieldMap : FieldMap_t) :
  Add_loop subFields fieldMap = Returns Success ↔
  ∀ t, t ∈ subFields → EnsureValidMapping t fieldMap = Returns Success.
Proof.
  induction subFields as [|f rest IH]; simpl.
  - split; [intros _ t Ht; inversion Ht | reflexivity].
  - split.
    + intros Hloop t Ht.
      destruct (EnsureValidMapping f fieldMap) as [[|what]|what|] eqn:Hf; try discriminate.
      apply elem_of_cons in Ht as [-> | Ht]; [exact Hf | by apply IH].
    + intros Hall. rewrite (Hall f) by left.
      apply IH. intros t Ht. apply Hall. by right.
Qed.

Lemma RProjectedFields_Add_success self field (fieldMap : FieldMap_t) self' :
  RProjectedFields_Add self field fieldMap = (Returns Success, self') →
  (∀ t, t ∈ get field :: schema_iter (get field) field → EnsureValidMapping t fieldMap = Returns Success) ∧
  self' = {| pfFieldZero := Attach (pfFieldZero self) field; pfFieldMap := pfFieldMap self ∪ fieldMap |}.
Proof.
  unfold RProjectedFields_Add. intros Hadd.
  destruct (EnsureValidMapping (get field) fieldMap) as [[|what]|what|] eqn:Hroot;
    try (injection Hadd as Hres _; discriminate).
  destruct (Add_loop (schema_iter (get field) field) fieldMap) as [[|what]|what|] eqn:Hloop;
    try (injection Hadd as Hres _; discriminate).
  injection Hadd as <-. split; [|reflexivity].
  intros t Ht. apply elem_of_cons in Ht as [-> | Ht]; [exact Hroot|].
  by apply (proj1 (Add_loop_success _ _) Hloop).
Qed.

(** The resolving loop fails exactly when some descendant has no source. *)
Lemma AddProjectedField_loop_None m mapping subFields (fieldMap : FieldMap_t) :
  AddProjectedField_loop m mapping subFields fieldMap = None ↔
  ∃ t, t ∈ subFields ∧ FindField m (mapping (GetQualifiedFieldName t)) = None.
Proof.
  revert fieldMap. induction subFields as [|f rest IH]; intros fieldMap; simpl.
  - split; [discriminate | intros (t & Ht & _); inversion Ht].
  - destruct (FindField m (mapping (GetQualifiedFieldName f))) as [s|] eqn:Hf.
    + rewrite IH. split.
      * intros (t & Ht & Hnone). exists t. split; [by right | exact Hnone].
      * intros (t & Ht & Hnone). apply elem_of_cons in Ht as [-> | Ht]; [congruence|].
        by exists t.
    + split; [|reflexivity]. intros _. exists f. split; [by left | exact Hf].
Qed.

Lemma resolve_sources_None m mapping field :
  resolve_sources m mapping field = None ↔
  ∃ t, t ∈ get field :: schema_iter (get field) field ∧
       FindField m (mapping (GetQualifiedFieldName t)) = None.
Proof.
  unfold resolve_sources.
  destruct (FindField m (mapping (fName (fInfo field)))) as [s|] eqn:Hroot.
  - rewrite AddProjectedField_loop_None. split.
    + intros (t & Ht & Hnone). exists t. split; [by right | exact Hnone].
    + intros (t & Ht & Hnone). apply elem_of_cons in Ht as [-> | Ht].
      * change (GetQualifiedFieldName (get field)) with (fName (fInfo field)) in Hnone. congruence.
      * by exists t.
  - split; [|reflexivity]. intros _. exists (get field). split; [by left | exact Hroot].
Qed.

Lemma with_projection_id m projectedFields :
  fProjectedFields m = Some projectedFields →
  with_projection m projectedFields (fFieldNames m) = m.
Proof. destruct m; simpl; intros ->; reflexivity. Qed.

(** The pairs that [AddProjectedField] evaluates to: the second component
    is the model given unless the result is success (for an undefined
    outcome the program has no state to speak of, and the component only
    keeps the pair well-typed), an unresolved source path gives "no such
    field", and success comes after every mapping has been validated. *)
Lemma AddProjectedField_outcome
    (valid : string → RResult) (m : RNTupleModel) (field : option RFieldBase)
    (mapping : string → string) (result : outcome RResult) (m' : RNTupleModel) :
  AddProjectedField valid m field mapping = (result, m') →
  (result ≠ Returns Success → m' = m) ∧
  (∀ f, field = Some f → IsFrozen m = false →
        (∃ t, t ∈ get f :: schema_iter (get f) f ∧
              FindField m (mapping (GetQualifiedFieldName t)) = None) →
        result = Returns (R__FAIL ("no such field: " +:+ mapping (fName (fInfo f))))) ∧
  (result = Returns Success →
   ∃ f projectedFields fieldMap,
     field = Some f ∧
     fProjectedFields m = Some projectedFields ∧
     resolve_sources m mapping f = Some fieldMap ∧
     (∀ t, t ∈ get f :: schema_iter (get f) f → EnsureValidMapping t fieldMap = Returns Success) ∧
     m' = with_projection m
            {| pfFieldZero := Attach (pfFieldZero projectedFields) f;
               pfFieldMap := pfFieldMap projectedFields ∪ fieldMap |}
            (fFieldNames m ∪ {[ fName (fInfo f) ]})).
Proof.
  unfold AddProjectedField, EnsureNotFrozen. intros Hrun.
  destruct (IsFrozen m) eqn:Hfrozen.
  { injection Hrun as <- <-. repeat split; [discriminate | discriminate]. }
  destruct field as [f|]; [|injection Hrun as <- <-; repeat split; discriminate].
  pose proof (resolve_sources_None m mapping f) as Hnone.
  unfold resolve_sources in *.
  destruct (FindField m (mapping (fName (fInfo f)))) as [sourceField|] eqn:Hroot.
  2:{ injection Hrun as <- <-. split; [reflexivity|]. split; [|discriminate].
      intros f0 [= <-] _ _. reflexivity. }
  destruct (AddProjectedField_loop m mapping (schema_iter (get f) f)
              (<[addr_of (get f):=sourceField]> ∅)) as [fieldMap|] eqn:Hloop.
  2:{ injection Hrun as <- <-. split; [reflexivity|]. split; [|discriminate].
      intros f0 [= <-] _ _. reflexivity. }
  assert (Hresolved : ∀ f0, Some f = Some f0 → false = false →
            (∃ t, t ∈ get f0 :: schema_iter (get f0) f0 ∧
                  FindField m (mapping (GetQualifiedFieldName t)) = None) →
            result = Returns (R__FAIL ("no such field: " +:+ mapping (fName (fInfo f0))))).
  { intros f0 [= <-] _ Hex. apply Hnone in Hex. discriminate. }
  destruct (EnsureValidFieldName valid m (fName (fInfo f))) as [[]|what|] eqn:Hname;
    try (injection Hrun as <- <-; repeat split; [exact Hresolved | discriminate]).
  destruct (fProjectedFields m) as [projectedFields|] eqn:Hpf;
    [|injection Hrun as <- <-; repeat split; [exact Hresolved | discriminate]].
  destruct (RProjectedFields_Add projectedFields f fieldMap) as [r projectedFields'] eqn:Hadd.
  destruct (decide (r = Returns Success)) as [-> | Hfail].
  - injection Hrun as <- <-. split; [congruence|]. split; [exact Hresolved|].
    intros _. apply RProjectedFields_Add_success in Hadd as [Hvalid ->].
    exists f, projectedFields, fieldMap.
    split; [reflexivity|]. split; [reflexivity|].
    split; [unfold resolve_sources; rewrite Hroot; exact Hloop|].
    split; [exact Hvalid | reflexivity].
  - pose proof (RProjectedFields_Add_failure _ _ _ _ _ Hadd Hfail) as ->.
    assert (result = r ∧ m' = with_projection m projectedFields (fFieldNames m)) as [-> ->].
    { destruct r as [[|what]|what|]; [contradiction|..]; injection Hrun as <- <-; by split. }
    split; [intros _; by apply with_projection_id|].
    split; [exact Hresolved | intros ?; contradiction].
Qed.


(** The loop of [Add] is undefined only where a validation is. *)
Lemma Add_loop_Undefined subFields (fieldMap : FieldMap_t) :
  Add_loop subFields fieldMap = Undefined →
  ∃ t, t ∈ subFields ∧ EnsureValidMapping t fieldMap = Undefined.
Proof.
  induction subFields as [|f rest IH]; simpl; [discriminate|].
  destruct (EnsureValidMapping f fieldMap) as [[|what]|what|] eqn:Hf; try discriminate.
  - intros Hrest. destruct (IH Hrest) as (t & Ht & Hundefined).
    exists t. split; [by right | exact Hundefined].
  - intros _. exists f. split; [by left | exact Hf].
Qed.

Lemma RProjectedFields_Add_Undefined self field (fieldMap : FieldMap_t) self' :
  RProjectedFields_Add self field fieldMap = (Undefined, self') →
  ∃ t, t ∈ get field :: schema_iter (get field) field ∧ EnsureValidMapping t fieldMap = Undefined.
Proof.
  unfold RProjectedFields_Add. intros Hadd.
  destruct (EnsureValidMapping (get field) fieldMap) as [[|what]|what|] eqn:Hroot;
    try (injection Hadd as Hres _; discriminate).
  - destruct (Add_loop (schema_iter (get field) field) fieldMap) as [[|what]|what|] eqn:Hloop;
      try (injection Hadd as Hres _; discriminate).
    destruct (Add_loop_Undefined _ _ Hloop) as (t & Ht & Hundefined).
    exists t. split; [by right | exact Hundefined].
  - exists (get field). split; [by left | exact Hroot].
Qed.

(** Where the behaviour of [AddProjectedField] is undefined: the model has
    no projected-field table, or the validation of the field or of one of
    its descendants dereferences the null [sourceBreakPoint]. *)
Lemma AddProjectedField_Undefined
    (valid : string → RResult) (m : RNTupleModel) (field : option RFieldBase)
    (mapping : string → string) (m' : RNTupleModel) :
  AddProjectedField valid m field mapping = (Undefined, m') →
  fProjectedFields m = None ∨
  ∃ f fieldMap t,
    field = Some f ∧
    resolve_sources m mapping f = Some fieldMap ∧
    t ∈ get f :: schema_iter (get f) f ∧
    EnsureValidMapping t fieldMap = Undefined.
Proof.
  unfold AddProjectedField, EnsureNotFrozen, EnsureValidFieldName.
  destruct (IsFrozen m); [discriminate|].
  destruct field as [f|]; [|discriminate].
  destruct (FindField m (mapping (fName (fInfo f)))) as [sourceField|] eqn:Hroot; [|discriminate].
  destruct (AddProjectedField_loop _ _ _ _) as [fieldMap|] eqn:Hloop; [|discriminate].
  destruct (valid (fName (fInfo f))); [|discriminate].
  case_bool_decide; [discriminate|].
  destruct (fProjectedFields m) as [projectedFields|]; [|by left].
  destruct (RProjectedFields_Add projectedFields f fieldMap) as [r projectedFields'] eqn:Hadd.
  destruct r as [[|what]|what|]; try discriminate.
  intros _. right. destruct (RProjectedFields_Add_Undefined _ _ _ _ Hadd) as (t & Ht & Hundefined).
  exists f, fieldMap, t. split; [reflexivity|]. split; [|by split].
  unfold resolve_sources. rewrite Hroot. exact Hloop.
Qed.

(** C3. [AddProjectedField] is all-or-nothing where it fails: whenever it
    returns an error or throws, the model is the model it was given (so the
    field names, the map of the projected-field table and the projected zero
    field are unchanged); an unresolvable source path of the field or of a
    descendant makes it return "no such field"; and when it succeeds, every
    source path was resolved and the mapping of the field and of every
    descendant was validated before the map, the field and the name were
    inserted. But an invalid mapping does not always make it fail. Its
    behaviour is undefined exactly where the model has no projected-field
    table or a validation dereferences the null [sourceBreakPoint]; and on
    the worked model, projecting the collection [q] from [c] and its element
    field [q._0] from the top-level leaf [y] is such a call: every source
    resolves, the mapping of [q._0] is a structural mismatch (the target is
    in the collection [q], the source in no collection), and instead of
    returning the mismatch the call dereferences the null pointer. *)
Theorem AddProjectedField_invalid_mapping_undefined :
  (∀ (valid : string → RResult) m field mapping result m',
     AddProjectedField valid m field mapping = (result, m') →
     ((∃ what, result = Returns (Failure what) ∨ result = Throws what) → m' = m) ∧
     (∀ f, field = Some f → IsFrozen m = false →
           (∃ t, t ∈ get f :: schema_iter (get f) f ∧
                 FindField m (mapping (GetQualifiedFieldName t)) = None) →
           result = Returns (R__FAIL ("no such field: " +:+ mapping (fName (fInfo f))))) ∧
     (result = Returns Success →
      ∃ f projectedFields fieldMap,
        field = Some f ∧
        fProjectedFields m = Some projectedFields ∧
        resolve_sources m mapping f = Some fieldMap ∧
        (∀ t, t ∈ get f :: schema_iter (get f) f → EnsureValidMapping t fieldMap = Returns Success) ∧
        m' = with_projection m
               {| pfFieldZero := Attach (pfFieldZero projectedFields) f;
                  pfFieldMap := pfFieldMap projectedFields ∪ fieldMap |}
               (fFieldNames m ∪ {[ fName (fInfo f) ]})) ∧
     (result = Undefined →
      fProjectedFields m = None ∨
      ∃ f fieldMap t,
        field = Some f ∧
        resolve_sources m mapping f = Some fieldMap ∧
        t ∈ get f :: schema_iter (get f) f ∧
        EnsureValidMapping t fieldMap = Undefined)) ∧
  (∃ fieldMap target source,
     resolve_sources Example.model mapping_q_to_y field_q = Some fieldMap ∧
     target ∈ schema_iter (get field_q) field_q ∧
     fieldMap !! addr_of target = Some source ∧
     addr_of source = addr_of Example.ref_y ∧
     fnBreakPoint source = None ∧
     fnBreakPoint target = Some (get field_q) ∧
     EnsureValidMapping (get field_q) fieldMap = Returns Success ∧
     EnsureValidMapping target fieldMap = Undefined ∧
     (AddProjectedField Example.EnsureValidFieldName_nonempty Example.model
                        (Some field_q) mapping_q_to_y).1 = Undefined).
Proof.
  split.
  - intros valid m field mapping result m' Hrun.
    destruct (AddProjectedField_outcome valid m field mapping result m' Hrun)
      as (Hsame & Hmissing & Hsuccess).
    split; [|split; [exact Hmissing|split; [exact Hsuccess|]]].
    + intros [what [-> | ->]]; by apply Hsame.
    + intros ->. exact (AddProjectedField_Undefined valid m field mapping m' Hrun).
  - assert (∃ fieldMap, resolve_sources Example.model mapping_q_to_y field_q = Some fieldMap)
      as [fieldMap Hmap] by (by eexists).
    exists fieldMap, (mkRef (mkInfo 81 "_0" "float" kLeaf 0 false) (Some (get field_q))),
           Example.ref_y.
    split; [exact Hmap|]. split; [by left|].
    assert (Some fieldMap = Some (<[81%positive := Example.ref_y]>
                                    (<[80%positive := Example.ref_c]> ∅))) as [= ->]
      by (rewrite <- Hmap; reflexivity).
    repeat split; reflexivity.
Qed.

(** Calls on the worked model: projecting [p] from a path that does not
    resolve, or from the collection [c] (a structural mismatch that is
    returned), fails and leaves the model as it was; projecting it from the
    leaf [y] validates and inserts it; projecting [q._0] from [y] is
    undefined. *)
Lemma AddProjectedField_invalid_mapping_undefined_witness :
  AddProjectedField Example.EnsureValidFieldName_nonempty Example.model (Some Example.field_p)
                    Example.mapping_missing
    = (Returns (R__FAIL "no such field: nowhere"), Example.model) ∧
  AddProjectedField Example.EnsureValidFieldName_nonempty Example.model (Some Example.field_p)
                    Example.mapping_p_to_c
    = (Returns (R__FAIL "field mapping structural mismatch: c --> p"), Example.model) ∧
  (∃ fieldMap,
     (AddProjectedField Example.EnsureValidFieldName_nonempty Example.model (Some Example.field_p)
                        Example.mapping_p).1 = Returns Success ∧
     resolve_sources Example.model Example.mapping_p Example.field_p = Some fieldMap ∧
     EnsureValidMapping (get Example.field_p) fieldMap = Returns Success) ∧
  (AddProjectedField Example.EnsureValidFieldName_nonempty Example.model
                     (Some field_q) mapping_q_to_y).1 = Undefined.
Proof.
  destruct AddProjectedField_invalid_mapping_undefined as [Hgeneral Hdefect].
  split.
  { destruct (AddProjectedField Example.EnsureValidFieldName_nonempty Example.model
                (Some Example.field_p) Example.mapping_missing) as [result m'] eqn:Hrun.
    destruct (Hgeneral _ _ _ _ _ _ Hrun) as (Hsame & Hmissing & _ & _).
    assert (result = Returns (R__FAIL "no such field: nowhere")) as ->.
    { apply (Hmissing Example.field_p); [reflexivity | reflexivity |].
      exists (get Example.field_p). split; [left | vm_compute; reflexivity]. }
    rewrite Hsame; [reflexivity|]. eexists. by left. }
  split.
  { destruct (AddProjectedField Example.EnsureValidFieldName_nonempty Example.model
                (Some Example.field_p) Example.mapping_p_to_c) as [result m'] eqn:Hrun.
    destruct (Hgeneral _ _ _ _ _ _ Hrun) as (Hsame & _ & _ & _).
    assert (result = Returns (R__FAIL "field mapping structural mismatch: c --> p")) as ->.
    { apply (f_equal fst) in Hrun. vm_compute in Hrun. symmetry. exact Hrun. }
    rewrite Hsame; [reflexivity|]. eexists. by left. }
  split.
  { destruct (AddProjectedField Example.EnsureValidFieldName_nonempty Example.model
                (Some Example.field_p) Example.mapping_p) as [result m'] eqn:Hrun.
    destruct (Hgeneral _ _ _ _ _ _ Hrun) as (_ & _ & Hok & _).
    assert (result = Returns Success) as Hresult.
    { apply (f_equal fst) in Hrun. vm_compute in Hrun. symmetry. exact Hrun. }
    destruct (Hok Hresult) as (f & projectedFields & fieldMap & [= <-] & _ & Hmap & Hvalid & _).
    exists fieldMap. split; [exact Hresult|]. split; [exact Hmap | apply Hvalid; left]. }
  by destruct Hdefect as (fieldMap & target & source & _ & _ & _ & _ & _ & _ & _ & _ & Hundefined).
Defined.

(** ** AddField *)

(** C8. [AddField] throws when the model is frozen, when the field is
    null, and when the name of the field is already in the set of names of
    the model (an exact comparison of strings; for a name that passes the
    name check the error is "field name '...' already exists in NTuple
    model"); every failure leaves the model unchanged, so its fields, names
    and default entry are as before; a valid new name on an unfrozen model
    succeeds, and on success the field is the new last child of the zero
    field, its name is recorded, and the default entry, when there is one,
    has a new value for it. *)
Theorem AddField_contract
    (valid : string → RResult) (m : RNTupleModel) (field : option RFieldBase)
    (result : outcome unit) (m' : RNTupleModel) :
  AddField valid m field = (result, m') →
  (IsFrozen m = true → result = Throws "invalid attempt to modify frozen model") ∧
  (IsFrozen m = false → field = None → result = Throws "null field") ∧
  (∀ f, IsFrozen m = false → field = Some f → fName (fInfo f) ∈ fFieldNames m →
        result ≠ Returns tt ∧
        (valid (fName (fInfo f)) = Success →
         result = Throws ("field name '" +:+ fName (fInfo f) +:+ "' already exists in NTuple model"))) ∧
  (∀ f, IsFrozen m = false → field = Some f → valid (fName (fInfo f)) = Success →
        fName (fInfo f) ∉ fFieldNames m → result = Returns tt) ∧
  (result ≠ Returns tt → m' = m) ∧
  (result = Returns tt →
   ∃ f, field = Some f ∧
        GetSubFields (fFieldZero m') = GetSubFields (fFieldZero m) ++ [f] ∧
        fInfo (fFieldZero m') = fInfo (fFieldZero m) ∧
        fFieldNames m' = fFieldNames m ∪ {[ fName (fInfo f) ]} ∧
        fDefaultEntry m' = (λ e, AddValue e (CreateValue f)) <$> fDefaultEntry m ∧
        fProjectedFields m' = fProjectedFields m ∧
        fDescription m' = fDescription m ∧
        fIsFrozen m' = fIsFrozen m ∧
        fModelId m' = fModelId m ∧
        fSchemaId m' = fSchemaId m).
Proof.
  unfold AddField, EnsureNotFrozen, EnsureValidFieldName. intros Hrun.
  destruct (IsFrozen m) eqn:Hfrozen.
  { injection Hrun as <- <-.
    split; [reflexivity|]. split; [discriminate|]. split; [discriminate|].
    split; [discriminate|]. split; [reflexivity | discriminate]. }
  split; [discriminate|].
  destruct field as [f|].
  2:{ injection Hrun as <- <-.
      split; [reflexivity|]. split; [discriminate|]. split; [discriminate|].
      split; [reflexivity | discriminate]. }
  split; [discriminate|].
  destruct (valid (fName (fInfo f))) as [|what] eqn:Hvalid.
  2:{ injection Hrun as <- <-.
      split; [intros f0 _ [= <-] _; split; [discriminate | congruence]|].
      split; [intros f0 _ [= <-] Hok; congruence|].
      split; [reflexivity | discriminate]. }
  case_bool_decide as Hdup.
  - injection Hrun as <- <-.
    split; [intros f0 _ [= <-] _; split; [discriminate | reflexivity]|].
    split; [intros f0 _ [= <-] _ Hnew; contradiction|].
    split; [reflexivity | discriminate].
  - injection Hrun as <- <-.
    split; [intros f0 _ [= <-] Hold; contradiction|].
    split; [intros f0 _ [= <-] _ _; reflexivity|].
    split; [congruence|]. intros _. exists f.
    destruct (fFieldZero m) as [info subs]. simpl.
    repeat split; destruct (fDefaultEntry m); reflexivity.
Qed.

(** On the worked model: a second field named [y] is refused and the
    model stays as it was; a field named [Y] is added. *)
Lemma AddField_contract_witness :
  (AddField Example.EnsureValidFieldName_nonempty Example.model (Some Example.field_y)).1
    = Throws "field name 'y' already exists in NTuple model" ∧
  (AddField Example.EnsureValidFieldName_nonempty Example.model (Some Example.field_y)).2
    = Example.model ∧
  (AddField Example.EnsureValidFieldName_nonempty Example.model
            (Some (mkField (mkInfo 50 "Y" "float" kLeaf 0 false) []))).1
    = Returns tt.
Proof.
  pose proof (AddField_contract Example.EnsureValidFieldName_nonempty Example.model
                (Some Example.field_y) _ _ (surjective_pairing _)) as (_ & _ & Hname & _ & Hsame & _).
  pose proof (AddField_contract Example.EnsureValidFieldName_nonempty Example.model
                (Some (mkField (mkInfo 50 "Y" "float" kLeaf 0 false) [])) _ _
                (surjective_pairing _)) as (_ & _ & _ & Hnew & _).
  split.
  { apply (Hname Example.field_y); [reflexivity | reflexivity | | reflexivity].
    vm_compute. set_solver. }
  split.
  { apply Hsame. vm_compute. discriminate. }
  apply (Hnew (mkField (mkInfo 50 "Y" "float" kLeaf 0 false) [])); [reflexivity..|].
  vm_compute. set_solver.
Defined.

(** ** Read accessors of an unfrozen model *)

Lemma GetToken_returned m fieldName :
  returned (GetToken m fieldName) = true ↔
  ∃ f, f ∈ GetSubFields (fFieldZero m) ∧ fName (fInfo f) = fieldName.
Proof.
  unfold GetToken.
  destruct (list_find _ _) as [[i f]|] eqn:Hfind; simpl.
  - apply list_find_Some in Hfind as (Hi & Hname & _).
    split; [intros _|reflexivity]. exists f. split; [|exact Hname].
    by eapply list_elem_of_lookup_2.
  - split; [discriminate|]. intros (f & Hin & Hname).
    apply list_find_None in Hfind. rewrite Forall_forall in Hfind.
    by destruct (Hfind f Hin).
Qed.

(** C5 (amended). On an unfrozen model [GetFieldZero], the const
    [GetDefaultEntry], [CreateEntry], [CreateBareEntry] and [CreateBulk]
    throw their unfrozen-model error. [GetToken] does not look at the
    frozen flag: it returns a token exactly when the name is the name of a
    top-level field, as it does on the frozen model, and throws "invalid
    field name" otherwise; the non-const
    [GetDefaultEntry] only refuses a bare model. *)
Theorem unfrozen_model_accessors (m : RNTupleModel) :
  IsFrozen m = false →
  GetFieldZero m = Throws "invalid attempt to get mutable zero field of unfrozen model" ∧
  GetDefaultEntry_const m = Throws "invalid attempt to get default entry of unfrozen model" ∧
  CreateEntry m = Throws "invalid attempt to create entry of unfrozen model" ∧
  CreateBareEntry m = Throws "invalid attempt to create entry of unfrozen model" ∧
  (∀ fieldName, CreateBulk m fieldName = Throws "invalid attempt to create bulk of unfrozen model") ∧
  (∀ fieldName, GetToken m fieldName = GetToken (Freeze m) fieldName) ∧
  (∀ fieldName, returned (GetToken m fieldName) = true ↔
                ∃ f, f ∈ GetSubFields (fFieldZero m) ∧ fName (fInfo f) = fieldName) ∧
  (∀ fieldName, (¬ ∃ f, f ∈ GetSubFields (fFieldZero m) ∧ fName (fInfo f) = fieldName) →
                GetToken m fieldName = Throws ("invalid field name: " +:+ fieldName)) ∧
  GetDefaultEntry m = GetDefaultEntry (Freeze m) ∧
  returned (GetDefaultEntry m) = negb (IsBare m).
Proof.
  intros Hunfrozen.
  unfold GetFieldZero, GetDefaultEntry_const, CreateEntry, CreateBareEntry, CreateBulk.
  rewrite Hunfrozen. simpl.
  repeat (split; [reflexivity|]).
  split; [intros fieldName; apply GetToken_returned|].
  split.
  { intros fieldName Hnone. pose proof (GetToken_returned m fieldName) as Hreturned.
    unfold GetToken in *. cbv zeta in *.
    destruct (list_find _ _) as [[distance f]|]; [|reflexivity].
    exfalso. apply Hnone, Hreturned. reflexivity. }
  split; [reflexivity|].
  unfold GetDefaultEntry, deref_fDefaultEntry, EnsureNotBare, IsBare.
  by destruct (fDefaultEntry m).
Qed.

(** The worked model is unfrozen and has a default entry. *)
Lemma unfrozen_model_accessors_witness :
  IsFrozen Example.model = false ∧
  CreateEntry Example.model = Throws "invalid attempt to create entry of unfrozen model" ∧
  returned (GetDefaultEntry Example.model) = true.
Proof.
  pose proof (unfrozen_model_accessors Example.model eq_refl)
    as (_ & _ & Hentry & _ & _ & _ & _ & _ & _ & Hdefault).
  split; [reflexivity|]. split; [exact Hentry|].
  rewrite Hdefault. reflexivity.
Defined.

(** C5 (counterexample). The worked model is unfrozen, and [GetToken]
    returns the token of its top-level field [y]. *)
Lemma GetToken_unfrozen_counterexample :
  IsFrozen Example.model = false ∧
  GetToken Example.model "y" = Returns (mkToken 1 1).
Proof. split; vm_compute; reflexivity. Qed.

(** ** Model identifiers *)

Lemma GetNewModelId_no_wrap g :
  0 ≤ g < u64_modulus - 1 → GetNewModelId g = (g + 1, g + 1).
Proof.
  intros Hg. unfold GetNewModelId. rewrite Z.mod_small by lia. reflexivity.
Qed.

Lemma GetNewModelId_same g : (GetNewModelId g).1 = (GetNewModelId g).2.
Proof. reflexivity. Qed.

Lemma counter_after_no_wrap n g :
  0 ≤ g → g + Z.of_nat n < u64_modulus → counter_after n g = g + Z.of_nat n.
Proof.
  revert g. induction n as [|n IH]; intros g Hg Hn; cbn [counter_after].
  - lia.
  - rewrite GetNewModelId_no_wrap by lia. cbn [snd]. rewrite IH by lia. lia.
Qed.

Lemma issued_ids_no_wrap n g id :
  0 ≤ g → g + Z.of_nat n < u64_modulus → id ∈ issued_ids n g → g < id ≤ g + Z.of_nat n.
Proof.
  revert g. induction n as [|n IH]; intros g Hg Hn Hin; cbn [issued_ids] in Hin.
  - inversion Hin.
  - rewrite GetNewModelId_no_wrap in Hin by lia.
    apply elem_of_cons in Hin as [-> | Hin]; [lia|].
    apply IH in Hin; lia.
Qed.

Lemma issued_ids_lookup n g i :
  0 ≤ g → g + Z.of_nat n < u64_modulus → (i < n)%nat →
  issued_ids n g !! i = Some (g + Z.of_nat i + 1).
Proof.
  revert g i. induction n as [|n IH]; intros g i Hg Hn Hi; [lia|].
  cbn [issued_ids]. rewrite GetNewModelId_no_wrap by lia.
  destruct i as [|i]; simpl.
  - f_equal. lia.
  - rewrite IH by lia. f_equal. lia.
Qed.

(** C10. Starting from the initial counter 0, and as long as the 64-bit
    counter has not wrapped ([n] ids issued before, [n < 2^64 - 1]), the
    next id issued is [n + 1]: it is strictly positive and strictly
    greater than every id issued before, the [i]-th earlier call having
    issued [i + 1]. A model constructed at that point (by the constructor,
    [CreateBare] or [Create]) has this id as its model id and as its schema
    id, so it differs from the zero placeholder an updater starts with. *)
Theorem model_ids_positive_increasing
    (n : nat) (fieldZero : RFieldBase) (projZero : ptr) (writer : RNTupleWriter) :
  Z.of_nat n < u64_modulus - 1 →
  (GetNewModelId (counter_after n 0)).1 = Z.of_nat n + 1 ∧
  0 < (GetNewModelId (counter_after n 0)).1 ∧
  (∀ i, (i < n)%nat → issued_ids n 0 !! i = Some (Z.of_nat i + 1)) ∧
  (∀ earlier, earlier ∈ issued_ids n 0 →
              0 < earlier ∧ earlier < (GetNewModelId (counter_after n 0)).1) ∧
  (∀ m, m ∈ [ (RNTupleModel_new fieldZero (counter_after n 0)).1;
              (CreateBare fieldZero projZero (counter_after n 0)).1;
              (Create fieldZero projZero (counter_after n 0)).1 ] →
        fModelId m = (GetNewModelId (counter_after n 0)).1 ∧
        fSchemaId m = fModelId m ∧
        fModelId m ≠ 0 ∧
        fModelId m ≠ fNewModelId (RUpdater_new writer)).
Proof.
  intros Hn.
  rewrite counter_after_no_wrap by lia.
  rewrite GetNewModelId_no_wrap by lia. cbn [fst].
  split; [lia|]. split; [lia|].
  split; [intros i Hi; rewrite issued_ids_lookup by lia; f_equal; lia|].
  split; [intros earlier Hin; apply issued_ids_no_wrap in Hin; lia|].
  intros m Hm.
  unfold Create, CreateBare, RNTupleModel_new in Hm.
  rewrite GetNewModelId_no_wrap in Hm by lia. simpl in Hm.
  rewrite !elem_of_cons in Hm.
  destruct Hm as [-> | [-> | [-> | Hm]]]; [| | |inversion Hm]; simpl; repeat split; lia.
Qed.

(** The first models of a process: the worked model was created on a fresh
    counter and got the id 1; the next id is 2. *)
Lemma model_ids_positive_increasing_witness :
  Z.of_nat 1 < u64_modulus - 1 ∧
  fModelId Example.model_empty = 1 ∧
  fSchemaId Example.model_empty = 1 ∧
  (GetNewModelId (counter_after 1 0)).1 = 2 ∧
  issued_ids 1 0 = [1].
Proof.
  split; [reflexivity|].
  pose proof (model_ids_positive_increasing 0 (RFieldZero_new 1) 10 Example.writer eq_refl)
    as (_ & _ & _ & _ & Hmodel).
  pose proof (model_ids_positive_increasing 1 (RFieldZero_new 1) 10 Example.writer eq_refl)
    as (Hnext & _ & Hissued & _).
  destruct (Hmodel Example.model_empty) as (Hid & Hschema & _).
  { right. right. left. }
  split; [exact Hid|]. split; [rewrite Hschema; exact Hid|].
  split; [exact Hnext|]. reflexivity.
Defined.

(** ** The updater window *)

Lemma AddField_same_ids valid m field : same_ids m (AddField valid m field).2.
Proof.
  unfold AddField, same_ids.
  destruct (EnsureNotFrozen m); [|done..].
  destruct field; [|done].
  destruct (EnsureValidFieldName valid m _); done.
Qed.

Lemma AddProjectedField_same_ids valid m field mapping :
  same_ids m (AddProjectedField valid m field mapping).2.
Proof.
  unfold AddProjectedField, same_ids.
  destruct (EnsureNotFrozen m); [|done..].
  destruct field as [f|]; [|done].
  destruct (FindField m _); [|done].
  destruct (AddProjectedField_loop _ _ _ _); [|done].
  destruct (EnsureValidFieldName valid m _); [|done..].
  destruct (fProjectedFields m); [|done].
  destruct (RProjectedFields_Add _ _ _) as [[[|what]|what|] pf]; done.
Qed.

Lemma SetDescription_same_ids m description : same_ids m (SetDescription m description).2.
Proof. unfold SetDescription, same_ids. destruct (EnsureNotFrozen m); done. Qed.

(** A staged addition changes neither the identifiers of the model nor
    what the updater and the writer keep besides the changeset. *)
Lemma run_staged_op_frame valid op u :
  same_ids (fOpenChangeset_fModel u) (fOpenChangeset_fModel (run_staged_op valid op u)) ∧
  fNewModelId (run_staged_op valid op u) = fNewModelId u ∧
  wSinkUpdateSchema (fWriter (run_staged_op valid op u)) = wSinkUpdateSchema (fWriter u) ∧
  wNEntries (fWriter (run_staged_op valid op u)) = wNEntries (fWriter u).
Proof.
  destruct op as [field | field mapping]; simpl.
  - unfold RUpdater_AddField.
    pose proof (AddField_same_ids valid (wModel (fWriter u)) field) as Hids.
    destruct (AddField valid (wModel (fWriter u)) field) as [[[]|what|] model]; done.
  - unfold RUpdater_AddProjectedField.
    pose proof (AddProjectedField_same_ids valid (wModel (fWriter u)) field mapping) as Hids.
    destruct (AddProjectedField valid (wModel (fWriter u)) field mapping)
      as [[[|what]|what|] model]; done.
Qed.

Lemma run_staged_ops_frame valid ops u :
  same_ids (fOpenChangeset_fModel u) (fOpenChangeset_fModel (run_staged_ops valid ops u)) ∧
  fNewModelId (run_staged_ops valid ops u) = fNewModelId u ∧
  wSinkUpdateSchema (fWriter (run_staged_ops valid ops u)) = wSinkUpdateSchema (fWriter u) ∧
  wNEntries (fWriter (run_staged_ops valid ops u)) = wNEntries (fWriter u).
Proof.
  unfold run_staged_ops. revert u. induction ops as [|op ops IH]; intros u; simpl.
  - done.
  - destruct (IH (run_staged_op valid op u)) as ((Hf & Hm & Hs) & Hnew & Hsink & Hn).
    destruct (run_staged_op_frame valid op u) as ((Hf' & Hm' & Hs') & Hnew' & Hsink' & Hn').
    unfold same_ids. repeat split; congruence.
Qed.

(** C9. On an updater with no window open ([fNewModelId] is the zero
    placeholder) over the frozen model of a writer, and while the id
    counter has not wrapped: after [BeginUpdate] the model id is zero and
    the model is unfrozen; after any staged additions, [CommitUpdate]
    leaves the model frozen with a nonzero model id, the fresh id that
    [BeginUpdate] gave the live model and that is its schema id, and puts
    the placeholder back; the sink receives one [UpdateSchema] call, with
    the staged changeset and the row count of the writer, exactly when the
    changeset is not empty, and no call otherwise. *)
Theorem updater_window
    (valid : string → RResult) (u : RUpdater) (g : Z) (ops : list staged_op) :
  fNewModelId u = 0 →
  IsFrozen (fOpenChangeset_fModel u) = true →
  0 ≤ g < u64_modulus - 1 →
  let begun := (BeginUpdate u g).1 in
  let staged := run_staged_ops valid ops begun in
  let committed := CommitUpdate staged in
  (fModelId (fOpenChangeset_fModel begun) = 0 ∧
   IsFrozen (fOpenChangeset_fModel begun) = false) ∧
  (IsFrozen (fOpenChangeset_fModel committed) = true ∧
   fModelId (fOpenChangeset_fModel committed) = (GetNewModelId g).1 ∧
   fModelId (fOpenChangeset_fModel committed) ≠ 0 ∧
   fSchemaId (fOpenChangeset_fModel committed) = fModelId (fOpenChangeset_fModel committed) ∧
   fNewModelId committed = 0) ∧
  (IsEmpty staged = true →
   wSinkUpdateSchema (fWriter committed) = wSinkUpdateSchema (fWriter u)) ∧
  (IsEmpty staged = false →
   wSinkUpdateSchema (fWriter committed)
     = wSinkUpdateSchema (fWriter u) ++
       [(mkChangeset (fAddedFields staged) (fAddedProjectedFields staged),
         wNEntries (fWriter u))]).
Proof.
  intros Hidle Hfrozen Hg begun staged committed.
  destruct (run_staged_ops_frame valid ops begun) as ((Hf & Hm & Hs) & Hnew & Hsink & Hn).
  fold staged in Hf, Hm, Hs, Hnew, Hsink, Hn.
  assert (Hbegin : fModelId (fOpenChangeset_fModel begun) = 0 ∧
                   IsFrozen (fOpenChangeset_fModel begun) = false ∧
                   fSchemaId (fOpenChangeset_fModel begun) = g + 1 ∧
                   fNewModelId begun = g + 1 ∧
                   wSinkUpdateSchema (fWriter begun) = wSinkUpdateSchema (fWriter u) ∧
                   wNEntries (fWriter begun) = wNEntries (fWriter u)).
  { subst begun. unfold BeginUpdate, Unfreeze, fOpenChangeset_fModel in *. rewrite Hfrozen.
    rewrite GetNewModelId_no_wrap by lia. simpl. rewrite Hidle. done. }
  destruct Hbegin as (Hb0 & Hbf & Hbs & Hbn & Hbsink & Hbrows).
  rewrite GetNewModelId_no_wrap by lia. cbn [fst].
  split; [done|].
  subst committed. unfold CommitUpdate, fOpenChangeset_fModel in *.
  destruct (IsEmpty staged) eqn:Hempty; simpl.
  - split; [repeat split; try congruence; lia|].
    split; [intros _; congruence | discriminate].
  - split; [repeat split; try congruence; lia|].
    split; [discriminate | intros _; congruence].
Qed.

(** On the worked writer (five rows written, counter at 1): staging the
    field [z] makes the sink receive one changeset tagged with row 5, and
    the model ends frozen with model id 2. *)
Lemma updater_window_witness :
  fNewModelId Example.updater = 0 ∧
  IsFrozen (fOpenChangeset_fModel Example.updater) = true ∧
  0 ≤ 1 < u64_modulus - 1 ∧
  fModelId (fOpenChangeset_fModel (BeginUpdate Example.updater 1).1) = 0 ∧
  fModelId (fOpenChangeset_fModel
              (CommitUpdate (run_staged_ops Example.EnsureValidFieldName_nonempty
                                            [StageField (Some Example.field_z)]
                                            (BeginUpdate Example.updater 1).1))) = 2 ∧
  wSinkUpdateSchema
    (fWriter (CommitUpdate (run_staged_ops Example.EnsureValidFieldName_nonempty
                                           [StageField (Some Example.field_z)]
                                           (BeginUpdate Example.updater 1).1)))
    = [(mkChangeset [40%positive] [], 5)] ∧
  wSinkUpdateSchema
    (fWriter (CommitUpdate (run_staged_ops Example.EnsureValidFieldName_nonempty []
                                           (BeginUpdate Example.updater 1).1)))
    = [].
Proof.
  assert (Hg : 0 ≤ 1 < u64_modulus - 1) by (split; [discriminate | reflexivity]).
  pose proof (updater_window Example.EnsureValidFieldName_nonempty Example.updater 1
                [StageField (Some Example.field_z)] eq_refl eq_refl Hg)
    as ((Hzero & _) & (_ & Hid & _) & _ & Hcall).
  pose proof (updater_window Example.EnsureValidFieldName_nonempty Example.updater 1
                [] eq_refl eq_refl Hg) as (_ & _ & Hnocall & _).
  split; [reflexivity|]. split; [reflexivity|]. split; [exact Hg|].
  split; [exact Hzero|]. split; [rewrite Hid; reflexivity|].
  split; [rewrite Hcall by (vm_compute; reflexivity); vm_compute; reflexivity|].
  rewrite Hnocall by (vm_compute; reflexivity). reflexivity.
Defined.

(** ** Model id and schema id *)

Lemma Clone_ids m reloc g clone :
  (Clone m reloc g).1 = Returns clone →
  fModelId clone = (GetNewModelId (GetNewModelId g).2).1 ∧
  fSchemaId clone = (if IsFrozen m then fSchemaId m else fModelId clone) ∧
  IsFrozen clone = IsFrozen m.
Proof.
  unfold Clone, RNTupleModel_new, IsFrozen. cbn [GetNewModelId fst snd].
  destruct (fProjectedFields m) as [projectedFields|]; [|discriminate].
  destruct (RProjectedFields_Clone _ _ _) as [cloneProjected|what|]; [|discriminate..].
  intros [= <-]. done.
Qed.

Lemma Unfreeze_ids m g :
  fModelId (Unfreeze m g).1 = fSchemaId (Unfreeze m g).1 ∨
  (IsFrozen m = false ∧ (Unfreeze m g).1 = m).
Proof.
  unfold Unfreeze. destruct (IsFrozen m); [left; reflexivity | right; done].
Qed.

Lemma run_model_op_schema_id valid op m g :
  fSchemaId (run_model_op valid op m g).1 ≠ fSchemaId m →
  op = OpUnfreeze ∧ IsFrozen m = true.
Proof.
  destruct op as [field | field mapping | description | |]; simpl.
  - destruct (AddField_same_ids valid m field) as (_ & _ & ->). done.
  - destruct (AddProjectedField_same_ids valid m field mapping) as (_ & _ & ->). done.
  - destruct (SetDescription_same_ids m description) as (_ & _ & ->). done.
  - done.
  - unfold Unfreeze. destruct (IsFrozen m); done.
Qed.

(** In the hands of a client the two identifiers are equal, unless the
    model is a frozen clone of a frozen model. *)
Lemma reachable_model_ids valid m g frozenClone :
  reachable_model valid m g frozenClone →
  (frozenClone = false → fModelId m = fSchemaId m) ∧
  (frozenClone = true → IsFrozen m = true).
Proof.
  induction 1 as [fieldZero projZero g | fieldZero projZero g
                 | m g frozenClone op _ [IHeq IHfrozen]
                 | m g frozenClone reloc clone _ _ Hclone
                 | m g frozenClone _ IH].
  - done.
  - done.
  - destruct op as [field | field mapping | description | |]; simpl.
    + destruct (AddField_same_ids valid m field) as (Hf & -> & ->).
      unfold IsFrozen in *. rewrite Hf. done.
    + destruct (AddProjectedField_same_ids valid m field mapping) as (Hf & -> & ->).
      unfold IsFrozen in *. rewrite Hf. done.
    + destruct (SetDescription_same_ids m description) as (Hf & -> & ->).
      unfold IsFrozen in *. rewrite Hf. done.
    + done.
    + split; [intros _|discriminate].
      destruct (Unfreeze_ids m g) as [Heq | [Hunfrozen ->]]; [exact Heq|].
      destruct frozenClone; [|by apply IHeq].
      rewrite IHfrozen in Hunfrozen by reflexivity. discriminate.
  - apply Clone_ids in Hclone as (Hid & Hschema & Hfrozen).
    split; intros Hflag; rewrite Hflag in *; done.
  - exact IH.
Qed.

(** Under an updater the model id is the zero placeholder inside a window
    and the schema id outside, the updater holding the other one. *)
Lemma reachable_updater_ids valid u g window frozenClone :
  reachable_updater valid u g window frozenClone →
  (window = true →
   fModelId (fOpenChangeset_fModel u) = 0 ∧ fNewModelId u = fSchemaId (fOpenChangeset_fModel u)) ∧
  (window = false →
   fNewModelId u = 0 ∧
   (frozenClone = false → fModelId (fOpenChangeset_fModel u) = fSchemaId (fOpenChangeset_fModel u)) ∧
   (frozenClone = true → IsFrozen (fOpenChangeset_fModel u) = true)).
Proof.
  induction 1 as [writer g frozenClone Hmodel
                 | u g frozenClone _ [_ IH]
                 | u g op _ [IH _]
                 | u g _ [IH _]
                 | u g window frozenClone _ IH].
  - split; [discriminate|]. intros _. split; [reflexivity|].
    exact (reachable_model_ids _ _ _ _ Hmodel).
  - split; [intros _|discriminate].
    destruct (IH eq_refl) as (Hnew & Heq & Hfrozen).
    unfold BeginUpdate, Unfreeze, fOpenChangeset_fModel in *.
    destruct (IsFrozen (wModel (fWriter u))) eqn:Hf; simpl.
    + done.
    + split; [exact Hnew|]. destruct frozenClone; [|by apply Heq].
      discriminate (Hfrozen eq_refl).
  - split; [intros _|discriminate].
    destruct (IH eq_refl) as (Hzero & Hnew).
    destruct (run_staged_op_frame valid op u) as ((_ & Hm & Hs) & Hn & _).
    split; congruence.
  - split; [discriminate|]. intros _.
    destruct (IH eq_refl) as (Hzero & Hnew).
    unfold CommitUpdate, fOpenChangeset_fModel in *.
    destruct (IsEmpty u); simpl; done.
  - exact IH.
Qed.

(** C4 (amended). In every state a client reaches from [CreateBare] or
    [Create] through [AddField], [AddProjectedField], [SetDescription],
    [Freeze], [Unfreeze] and [Clone], model id and schema id are equal
    unless the model is a clone of a frozen model that has not been unfrozen
    since; such a clone has a fresh model id and the schema id of its
    source. Under an updater the model id is zero inside a window and equal
    to the schema id outside (the same clones apart). The schema id is left
    alone by [AddField], [AddProjectedField], [SetDescription], [Freeze],
    staged additions and [CommitUpdate]; it changes only when [Unfreeze],
    called directly or by [BeginUpdate], finds the model frozen, and then
    it becomes the next id of the generator. *)
Theorem model_and_schema_ids (valid : string → RResult) :
  (∀ m g frozenClone,
     reachable_model valid m g frozenClone →
     (frozenClone = false → fModelId m = fSchemaId m) ∧
     (frozenClone = true → IsFrozen m = true)) ∧
  (∀ u g window frozenClone,
     reachable_updater valid u g window frozenClone →
     (window = true → fModelId (fOpenChangeset_fModel u) = 0) ∧
     (window = false → frozenClone = false →
      fModelId (fOpenChangeset_fModel u) = fSchemaId (fOpenChangeset_fModel u))) ∧
  (∀ m reloc g clone,
     (Clone m reloc g).1 = Returns clone →
     fModelId clone = (GetNewModelId (GetNewModelId g).2).1 ∧
     fSchemaId clone = (if IsFrozen m then fSchemaId m else fModelId clone)) ∧
  (∀ op m g,
     fSchemaId (run_model_op valid op m g).1 ≠ fSchemaId m →
     op = OpUnfreeze ∧ IsFrozen m = true) ∧
  (∀ m g, IsFrozen m = true → fSchemaId (Unfreeze m g).1 = (GetNewModelId g).1) ∧
  (∀ u op, fSchemaId (fOpenChangeset_fModel (run_staged_op valid op u))
           = fSchemaId (fOpenChangeset_fModel u)) ∧
  (∀ u, fSchemaId (fOpenChangeset_fModel (CommitUpdate u)) = fSchemaId (fOpenChangeset_fModel u)) ∧
  (∀ u g, fSchemaId (fOpenChangeset_fModel (BeginUpdate u g).1) ≠ fSchemaId (fOpenChangeset_fModel u) →
          IsFrozen (fOpenChangeset_fModel u) = true).
Proof.
  split; [intros m g frozenClone; apply reachable_model_ids|].
  split.
  { intros u g window frozenClone Hreach.
    destruct (reachable_updater_ids _ _ _ _ _ Hreach) as [Hopen Hclosed].
    split; [intros Hw; by destruct (Hopen Hw) | intros Hw Hc; by destruct (Hclosed Hw) as (_ & Heq & _); apply Heq]. }
  split.
  { intros m reloc g clone Hclone. by destruct (Clone_ids _ _ _ _ Hclone) as (? & ? & _). }
  split; [intros op m g; apply run_model_op_schema_id|].
  split; [intros m g Hfrozen; unfold Unfreeze; rewrite Hfrozen; reflexivity|].
  split.
  { intros u op. by destruct (run_staged_op_frame valid op u) as ((_ & _ & ?) & _). }
  split.
  { intros u. unfold CommitUpdate, fOpenChangeset_fModel. destruct (IsEmpty u); reflexivity. }
  intros u g. unfold BeginUpdate, Unfreeze, fOpenChangeset_fModel.
  destruct (IsFrozen (wModel (fWriter u))); simpl; done.
Qed.

Lemma reachable_Example_model :
  reachable_model Example.EnsureValidFieldName_nonempty Example.model 1 false.
Proof.
  pose proof (reach_Create Example.EnsureValidFieldName_nonempty (RFieldZero_new 1) 10 0) as H0.
  pose proof (reach_op _ _ _ _ (OpAddField (Some Example.field_w)) H0) as H1.
  pose proof (reach_op _ _ _ _ (OpAddField (Some Example.field_y)) H1) as H2.
  exact (reach_op _ _ _ _ (OpAddField (Some Example.field_c)) H2).
Qed.

(** C4 (counterexample). The worked model, frozen and then cloned, is a
    reachable model with model id 3 and schema id 1: the two differ and the
    model id is not the zero placeholder. Its three [AddField] calls left
    the schema id at 1, while freezing and unfreezing it, the field tree
    unchanged, moves the schema id to 2. *)
Lemma model_and_schema_ids_counterexample :
  ∃ clone,
    reachable_model Example.EnsureValidFieldName_nonempty clone 3 true ∧
    (Clone (Freeze Example.model) (Pos.add 100) 1).1 = Returns clone ∧
    fModelId clone = 3 ∧ fSchemaId clone = 1 ∧
    fSchemaId Example.model_empty = 1 ∧ fSchemaId Example.model = 1 ∧
    fFieldZero Example.model ≠ fFieldZero Example.model_empty ∧
    fSchemaId (Unfreeze (Freeze Example.model) 1).1 = 2 ∧
    fFieldZero (Unfreeze (Freeze Example.model) 1).1 = fFieldZero Example.model.
Proof.
  destruct (Clone (Freeze Example.model) (Pos.add 100) 1).1 as [clone| |] eqn:Hclone;
    [|vm_compute in Hclone; discriminate..].
  exists clone. split.
  { exact (reach_Clone _ _ _ _ _ _
             (reach_op _ _ _ _ OpFreeze reachable_Example_model) Hclone). }
  split; [reflexivity|].
  vm_compute in Hclone. injection Hclone as <-.
  repeat split; try reflexivity. vm_compute. discriminate.
Qed.

(** On the worked model, which is reachable and not a clone, and on the
    worked updater once its window is open. *)
Lemma model_and_schema_ids_witness :
  fModelId Example.model = fSchemaId Example.model ∧
  fSchemaId (Unfreeze (Freeze Example.model) 1).1 = 2 ∧
  fModelId (fOpenChangeset_fModel (BeginUpdate Example.updater 1).1) = 0.
Proof.
  destruct (model_and_schema_ids Example.EnsureValidFieldName_nonempty)
    as (Hmodel & Hupdater & _ & _ & Hunfreeze & _).
  split; [by apply (Hmodel Example.model 1 false reachable_Example_model)|].
  split; [rewrite (Hunfreeze (Freeze Example.model) 1 eq_refl); reflexivity|].
  apply (Hupdater (BeginUpdate Example.updater 1).1 (BeginUpdate Example.updater 1).2 true false);
    [|reflexivity].
  apply (reach_BeginUpdate _ Example.updater 1 false).
  apply (reach_RUpdater _ Example.writer 1 false).
  exact (reach_op _ _ _ _ OpFreeze reachable_Example_model).
Defined.

(** ** The page pool *)

Module PagePoolProperties.
Import PagePool.

Lemma idle_cons e pool :
  idle (e :: pool) = if bool_decide (eUseCount e = O) then e :: idle pool else idle pool.
Proof.
  unfold idle. rewrite filter_cons. case_bool_decide; by rewrite decide_bool_decide; case_bool_decide.
Qed.

Lemma in_use_cons e pool :
  in_use (e :: pool) = if bool_decide (eUseCount e = O) then in_use pool else e :: in_use pool.
Proof.
  unfold in_use. rewrite filter_cons. destruct (decide (eUseCount e ≠ O)); case_bool_decide; done.
Qed.

(** [Evict] keeps every entry in use, in order. *)
Lemma Evict_in_use pool maxCount : in_use (Evict pool maxCount) = in_use pool.
Proof.
  revert maxCount. induction pool as [|e pool IH]; intros [|remaining]; try reflexivity.
  simpl. case_bool_decide as Hidle.
  - rewrite in_use_cons, bool_decide_eq_true_2 by done. apply IH.
  - rewrite !in_use_cons, !bool_decide_eq_false_2 by done. f_equal. apply IH.
Qed.

(** [Evict] removes the [maxCount] oldest idle entries (all of them when
    there are fewer). *)
Lemma Evict_idle pool maxCount : idle (Evict pool maxCount) = drop maxCount (idle pool).
Proof.
  revert maxCount. induction pool as [|e pool IH]; intros [|remaining]; try reflexivity.
  simpl. case_bool_decide as Hidle.
  - rewrite idle_cons, bool_decide_eq_true_2 by done. simpl. apply IH.
  - rewrite !idle_cons, !bool_decide_eq_false_2 by done. apply IH.
Qed.

Lemma Evict_length pool maxCount :
  length (Evict pool maxCount) = (length pool - Nat.min maxCount (length (idle pool)))%nat.
Proof.
  revert maxCount. induction pool as [|e pool IH]; intros [|remaining].
  - reflexivity.
  - reflexivity.
  - simpl. lia.
  - pose proof (length_filter (λ e, eUseCount e = O) pool) as Hle.
    fold (idle pool) in Hle.
    rewrite idle_cons. cbn [Evict].
    case_bool_decide as Hidle; cbn [length]; rewrite IH; lia.
Qed.

Lemma elem_of_in_use e pool : e ∈ in_use pool ↔ e ∈ pool ∧ eUseCount e ≠ O.
Proof. unfold in_use. rewrite list_elem_of_filter. tauto. Qed.

Lemma elem_of_idle e pool : e ∈ idle pool ↔ e ∈ pool ∧ eUseCount e = O.
Proof. unfold idle. rewrite list_elem_of_filter. tauto. Qed.

Lemma Evict_subset pool maxCount e : e ∈ Evict pool maxCount → e ∈ pool.
Proof.
  revert maxCount. induction pool as [|e' pool IH]; intros [|remaining]; simpl; try done.
  case_bool_decide.
  - intros Hin. right. by eapply IH.
  - rewrite !elem_of_cons. intros [-> | Hin]; [by left | right; by eapply IH].
Qed.

(** Releasing the last reference brings the use count to zero and keeps
    the entry in the pool. *)
Lemma ReleasePage_last pool page buffer :
  pBuffer page = Some buffer →
  use_count pool buffer = Some 1%nat →
  use_count (ReleasePage pool page) buffer = Some O ∧
  length (ReleasePage pool page) = length pool.
Proof.
  intros Hbuffer. unfold use_count.
  assert (IsNull page = false) as Hpage by (unfold IsNull; by rewrite Hbuffer).
  induction pool as [|e pool IH]; [discriminate|].
  simpl. rewrite Hpage, Hbuffer. simpl.
  case_bool_decide as Hhit; simpl.
  - rewrite bool_decide_eq_true_2 by done. simpl. intros [= ->]. done.
  - rewrite bool_decide_eq_false_2 by done. intros Hcount.
    destruct (IH Hcount) as [-> ->]. done.
Qed.

(** With one entry per buffer, the entry that holds a buffer whose last
    reference was released is idle. *)
Lemma ReleasePage_last_idle pool page buffer e :
  pBuffer page = Some buffer →
  use_count pool buffer = Some 1%nat →
  NoDup (buffers pool) →
  e ∈ ReleasePage pool page →
  pBuffer (ePage e) = Some buffer →
  eUseCount e = O.
Proof.
  intros Hbuffer. unfold use_count.
  assert (IsNull page = false) as Hpage by (unfold IsNull; by rewrite Hbuffer).
  induction pool as [|e0 pool IH]; [discriminate|].
  simpl. rewrite Hpage, Hbuffer. simpl. rewrite NoDup_cons.
  case_bool_decide as Hhit; simpl.
  - intros [= Hcount] [Hfresh _] Hin He.
    apply elem_of_cons in Hin as [-> | Hin]; [simpl; by rewrite Hcount|].
    exfalso. apply Hfresh. rewrite Hhit, <- He.
    unfold buffers. by apply (list_elem_of_fmap_2 (λ e, pBuffer (ePage e))).
  - intros Hcount [_ Hnodup] Hin He.
    apply elem_of_cons in Hin as [-> | Hin]; [contradiction|].
    by apply IH.
Qed.

(** C6. In the pool as the spec describes it, [Evict(maxCount)] never
    removes an entry whose use count is not zero, whatever [maxCount] and
    wherever the entry stands in the pool: the entries in use are the same
    before and after. It removes entries of use count zero only, the
    [maxCount] oldest of them, so [min maxCount idle] entries in all. When
    the last reference to a page is released its use count is zero and the
    entry is still pooled; an [Evict] whose [maxCount] covers the idle
    entries then leaves no idle entry, so that entry is removed: with one
    entry per buffer, no entry holds the buffer any more. *)
Theorem Evict_spares_pages_in_use :
  (∀ pool maxCount e, e ∈ pool → eUseCount e ≠ O → e ∈ Evict pool maxCount) ∧
  (∀ pool maxCount, in_use (Evict pool maxCount) = in_use pool) ∧
  (∀ pool maxCount, idle (Evict pool maxCount) = drop maxCount (idle pool)) ∧
  (∀ pool maxCount,
     length (Evict pool maxCount) = (length pool - Nat.min maxCount (length (idle pool)))%nat) ∧
  (∀ pool page buffer,
     pBuffer page = Some buffer → use_count pool buffer = Some 1%nat →
     use_count (ReleasePage pool page) buffer = Some O ∧
     length (ReleasePage pool page) = length pool) ∧
  (∀ pool maxCount e,
     (length (idle pool) ≤ maxCount)%nat → e ∈ Evict pool maxCount → eUseCount e ≠ O) ∧
  (∀ pool page buffer maxCount,
     pBuffer page = Some buffer → use_count pool buffer = Some 1%nat →
     NoDup (buffers pool) →
     (length (idle (ReleasePage pool page)) ≤ maxCount)%nat →
     use_count (Evict (ReleasePage pool page) maxCount) buffer = None).
Proof.
  assert (Hgone : ∀ pool maxCount e,
            (length (idle pool) ≤ maxCount)%nat → e ∈ Evict pool maxCount → eUseCount e ≠ O).
  { intros pool maxCount e Hcover Hin Hidle.
    assert (e ∈ idle (Evict pool maxCount)) as Hstill by (by apply elem_of_idle).
    rewrite Evict_idle, drop_ge in Hstill by done. inversion Hstill. }
  split.
  { intros pool maxCount e Hin Hused.
    assert (e ∈ in_use (Evict pool maxCount)) as Hkept
      by (rewrite Evict_in_use; by apply elem_of_in_use).
    by apply elem_of_in_use in Hkept as [? _]. }
  split; [apply Evict_in_use|].
  split; [apply Evict_idle|].
  split; [apply Evict_length|].
  split; [apply ReleasePage_last|].
  split; [exact Hgone|].
  intros pool page buffer maxCount Hbuffer Hlast Hnodup Hcover.
  unfold use_count.
  destruct (List.find _ (Evict (ReleasePage pool page) maxCount)) as [e|] eqn:Hfind;
    [exfalso|reflexivity].
  apply find_some in Hfind as [Hin He].
  apply list_elem_of_In in Hin. apply bool_decide_eq_true in He.
  apply (Hgone _ _ _ Hcover Hin).
  apply (ReleasePage_last_idle pool page buffer); try done.
  by eapply Evict_subset.
Qed.

(** The scenario of [TEST(Pages, Evict)] in the pool of the spec: a
    preloaded page that a reference uses survives [Evict(2)]; once the
    reference is released, [Evict(2)] removes it. *)
Lemma Evict_spares_pages_in_use_witness :
  let pool := PreloadPage [] (test_page 7) test_key in
  let used := (GetPage pool test_key 55).2 in
  (GetPage pool test_key 55).1 = test_page 7 ∧
  Evict used 2 = used ∧
  use_count (ReleasePage used (test_page 7)) 7 = Some O ∧
  Evict (ReleasePage used (test_page 7)) 2 = [].
Proof.
  destruct Evict_spares_pages_in_use as (Hkept & _ & _ & Hlength & Hrelease & _ & _).
  cbv zeta.
  split; [reflexivity|].
  split; [reflexivity|].
  split.
  { by apply (Hrelease (GetPage (PreloadPage [] (test_page 7) test_key) test_key 55).2
                       (test_page 7) 7%positive). }
  apply length_zero_iff_nil. rewrite Hlength. reflexivity.
Defined.

(** A scan that finds no matching entry returns the null page and leaves
    the pool alone. *)
Lemma GetPage_scan_miss pool key inWindow :
  (∀ e, e ∈ pool → eKey e ≠ key ∨ inWindow (ePage e) = false) →
  GetPage_scan pool key inWindow = (null_page, pool).
Proof.
  induction pool as [|e pool IH]; intros Hmiss; simpl; [reflexivity|].
  destruct (Hmiss e) as [Hkey | Hwindow]; [by left | |].
  - rewrite bool_decide_eq_false_2 by done. simpl.
    rewrite IH; [reflexivity|]. intros e' He'. apply Hmiss. by right.
  - rewrite Hwindow, andb_false_r.
    rewrite IH; [reflexivity|]. intros e' He'. apply Hmiss. by right.
Qed.

(** A scan returns the null page on a miss, and otherwise the page of the
    oldest matching entry, whose use count it increments. *)
Lemma GetPage_scan_result pool key inWindow :
  (GetPage_scan pool key inWindow = (null_page, pool) ∧
   ∀ e, e ∈ pool → eKey e ≠ key ∨ inWindow (ePage e) = false) ∨
  (∃ before e after,
     pool = before ++ e :: after ∧
     (∀ e', e' ∈ before → eKey e' ≠ key ∨ inWindow (ePage e') = false) ∧
     eKey e = key ∧ inWindow (ePage e) = true ∧
     GetPage_scan pool key inWindow
       = (ePage e, before ++ mkPoolEntry (ePage e) (eKey e) (S (eUseCount e)) :: after)).
Proof.
  induction pool as [|e pool IH]; simpl.
  - left. split; [reflexivity|]. intros e He. inversion He.
  - destruct (bool_decide (eKey e = key) && inWindow (ePage e)) eqn:Hhit.
    + right. exists [], e, pool. apply andb_true_iff in Hhit as [Hkey Hwindow].
      apply bool_decide_eq_true in Hkey.
      split; [reflexivity|]. split; [intros e' He'; inversion He'|]. done.
    + assert (eKey e ≠ key ∨ inWindow (ePage e) = false) as Hmiss.
      { apply andb_false_iff in Hhit as [Hkey | Hwindow]; [left | by right].
        by apply bool_decide_eq_false in Hkey. }
      destruct IH as [[-> Hall] | (before & e0 & after & -> & Hbefore & Hkey & Hwindow & ->)].
      * left. split; [reflexivity|]. intros e' He'.
        apply elem_of_cons in He' as [-> | He']; [exact Hmiss | by apply Hall].
      * right. exists (e :: before), e0, after.
        split; [reflexivity|]. split; [|done].
        intros e' He'. apply elem_of_cons in He' as [-> | He']; [exact Hmiss | by apply Hbefore].
Qed.

(** C7. In the pool as the spec describes it, [GetPage] is a total
    function, so every call returns a page reference. By global index and by
    cluster index alike: it returns the null page, and leaves the pool as it
    is, on the empty pool and whenever no entry has both the key and a
    window that contains the index; and whenever some entry has both, it
    returns the page of the oldest such entry, wherever in the pool that
    entry is, and increments the use count of that entry and of no other.
    So a page registered behind any entries that do not match the lookup is
    the page returned. After registering a page of ten elements that starts
    at global row 50 in a cluster whose first row is 40, a lookup of row 55
    with the key returns that page, whose global range is 50 to 59 and whose
    cluster range is 10 to 19, and lookups of rows 5 and 65, or with another
    key, return the null page. *)
Theorem GetPage_lookup :
  (∀ key globalIndex, GetPage [] key globalIndex = (null_page, []) ∧ IsNull null_page = true) ∧
  (∀ pool key globalIndex,
     (∀ e, e ∈ pool → eKey e ≠ key ∨ Contains (ePage e) globalIndex = false) →
     GetPage pool key globalIndex = (null_page, pool)) ∧
  (∀ pool key globalIndex e,
     e ∈ pool → eKey e = key → Contains (ePage e) globalIndex = true →
     ∃ before hit after,
       pool = before ++ hit :: after ∧
       (∀ e', e' ∈ before → eKey e' ≠ key ∨ Contains (ePage e') globalIndex = false) ∧
       eKey hit = key ∧ Contains (ePage hit) globalIndex = true ∧
       GetPage pool key globalIndex
         = (ePage hit, before ++ mkPoolEntry (ePage hit) (eKey hit) (S (eUseCount hit)) :: after)) ∧
  (∀ pool key clusterIndex,
     (∀ e, e ∈ pool → eKey e ≠ key ∨ Contains_cluster (ePage e) clusterIndex = false) →
     GetPage_cluster pool key clusterIndex = (null_page, pool)) ∧
  (∀ pool key clusterIndex e,
     e ∈ pool → eKey e = key → Contains_cluster (ePage e) clusterIndex = true →
     ∃ before hit after,
       pool = before ++ hit :: after ∧
       (∀ e', e' ∈ before → eKey e' ≠ key ∨ Contains_cluster (ePage e') clusterIndex = false) ∧
       eKey hit = key ∧ Contains_cluster (ePage hit) clusterIndex = true ∧
       GetPage_cluster pool key clusterIndex
         = (ePage hit, before ++ mkPoolEntry (ePage hit) (eKey hit) (S (eUseCount hit)) :: after)) ∧
  (∀ pool page key globalIndex,
     (∀ e, e ∈ pool → eKey e ≠ key ∨ Contains (ePage e) globalIndex = false) →
     Contains page globalIndex = true →
     GetPage (RegisterPage pool page key).2 key globalIndex
       = (page, pool ++ [mkPoolEntry page key 2])) ∧
  (∀ buffer elementSize clusterId key otherKey,
     let page := SetWindow (GrowUnchecked (NewPage buffer elementSize 10) 10) 50
                           (mkClusterInfo clusterId 40) in
     let pool := (RegisterPage [] page key).2 in
     (GetPage pool key 55).1 = page ∧
     IsNull page = false ∧
     GetGlobalRangeFirst page = 50 ∧ GetGlobalRangeLast page = 59 ∧
     GetClusterRangeFirst page = 10 ∧ GetClusterRangeLast page = 19 ∧
     (GetPage pool key 5).1 = null_page ∧
     (GetPage pool key 65).1 = null_page ∧
     (otherKey ≠ key → (GetPage pool otherKey 55).1 = null_page)).
Proof.
  assert (∀ pool key inWindow e,
            e ∈ pool → eKey e = key → inWindow (ePage e) = true →
            ∃ before hit after,
              pool = before ++ hit :: after ∧
              (∀ e', e' ∈ before → eKey e' ≠ key ∨ inWindow (ePage e') = false) ∧
              eKey hit = key ∧ inWindow (ePage hit) = true ∧
              GetPage_scan pool key inWindow
                = (ePage hit, before ++ mkPoolEntry (ePage hit) (eKey hit) (S (eUseCount hit)) :: after))
    as Hhit.
  { intros pool key inWindow e He Hkey Hwindow.
    destruct (GetPage_scan_result pool key inWindow)
      as [[_ Hnone] | (before & hit & after & Hpool & Hbefore & Hkey' & Hwindow' & Hscan)].
    - destruct (Hnone e He) as [Hne | Hout]; [contradiction | congruence].
    - by exists before, hit, after. }
  split; [done|].
  split.
  { intros pool key globalIndex Hmiss.
    exact (GetPage_scan_miss pool key (λ p, Contains p globalIndex) Hmiss). }
  split.
  { intros pool key globalIndex e.
    exact (Hhit pool key (λ p, Contains p globalIndex) e). }
  split.
  { intros pool key clusterIndex Hmiss.
    exact (GetPage_scan_miss pool key (λ p, Contains_cluster p clusterIndex) Hmiss). }
  split.
  { intros pool key clusterIndex e.
    exact (Hhit pool key (λ p, Contains_cluster p clusterIndex) e). }
  split.
  { intros pool page key globalIndex Hmiss Hwindow. unfold RegisterPage. cbn [snd].
    destruct (Hhit (pool ++ [mkPoolEntry page key 1]) key (λ p, Contains p globalIndex)
                (mkPoolEntry page key 1))
      as (before & hit & after & Hpool & Hbefore & Hkey & Hin & Hscan);
      [apply elem_of_app; right; by left | reflexivity | exact Hwindow |].
    unfold GetPage. rewrite Hscan.
    assert (hit ∈ pool ++ [mkPoolEntry page key 1]) as Hwhere
      by (rewrite Hpool; apply elem_of_app; right; by left).
    apply elem_of_app in Hwhere as [Hold | Hnew%list_elem_of_singleton].
    { destruct (Hmiss hit Hold) as [Hne | Hout]; [contradiction | congruence]. }
    subst hit. cbn [ePage eKey eUseCount].
    destruct after as [|e' after].
    - apply app_inj_tail in Hpool as [<- _]. reflexivity.
    - exfalso. destruct (Hmiss (mkPoolEntry page key 1)) as [Hne | Hout];
        [|by apply Hne | cbn in Hout; congruence].
      assert (mkPoolEntry page key 1 ∈ removelast (pool ++ [mkPoolEntry page key 1])) as Hlast.
      { rewrite Hpool. rewrite removelast_app by discriminate.
        apply elem_of_app. right. cbn [removelast]. destruct after; by left. }
      by rewrite removelast_last in Hlast. }
  intros buffer elementSize clusterId key otherKey. cbv zeta.
  unfold GetPage, RegisterPage. simpl.
  rewrite bool_decide_eq_true_2 by done. simpl.
  repeat (split; [reflexivity|]).
  intros Hother. by rewrite bool_decide_eq_false_2 by done.
Qed.

(** The lookups of [TEST(Pages, Pool)], by global index and by cluster
    index; and a lookup that finds the page behind an entry of another
    column. *)
Lemma GetPage_lookup_witness :
  let pool := (RegisterPage [] (test_page 7) test_key).2 in
  (GetPage pool (mkKey 0 "void") 0).1 = null_page ∧
  (GetPage pool (mkKey 0 "void") 55).1 = null_page ∧
  (GetPage pool (mkKey 1 "int") 55).1 = null_page ∧
  (GetPage pool test_key 55).1 = test_page 7 ∧
  GetGlobalRangeLast (GetPage pool test_key 55).1 = 59 ∧
  GetClusterRangeLast (GetPage pool test_key 55).1 = 19 ∧
  (GetPage_cluster pool test_key (0, 15)).1 = null_page ∧
  (GetPage_cluster pool (mkKey 1 "int") (2, 15)).1 = null_page ∧
  (GetPage_cluster pool test_key (2, 15)).1 = test_page 7 ∧
  GetPage (RegisterPage [mkPoolEntry (test_page 3) (mkKey 0 "void") 0] (test_page 7) test_key).2
          test_key 55
    = (test_page 7, [mkPoolEntry (test_page 3) (mkKey 0 "void") 0; mkPoolEntry (test_page 7) test_key 2]).
Proof.
  destruct GetPage_lookup as (_ & Hmiss & _ & Hcmiss & Hchit & Hbehind & Htest).
  destruct (Htest 7%positive 1 2 test_key (mkKey 1 "int"))
    as (Hhit & _ & _ & Hlast & _ & Hclast & _ & _ & Hother).
  cbv zeta.
  split.
  { rewrite Hmiss; [reflexivity|]. intros e He. left.
    apply list_elem_of_singleton in He as ->. discriminate. }
  split.
  { rewrite Hmiss; [reflexivity|]. intros e He. left.
    apply list_elem_of_singleton in He as ->. discriminate. }
  split; [apply Hother; discriminate|].
  split; [exact Hhit|].
  change (test_page 7) with
    (SetWindow (GrowUnchecked (NewPage 7 1 10) 10) 50 (mkClusterInfo 2 40)).
  rewrite Hhit. split; [exact Hlast|]. split; [exact Hclast|].
  split.
  { rewrite Hcmiss; [reflexivity|]. intros e He. right.
    apply list_elem_of_singleton in He as ->. reflexivity. }
  split.
  { rewrite Hcmiss; [reflexivity|]. intros e He. left.
    apply list_elem_of_singleton in He as ->. discriminate. }
  split.
  { destruct (Hchit (RegisterPage [] (SetWindow (GrowUnchecked (NewPage 7 1 10) 10) 50
                                                 (mkClusterInfo 2 40)) test_key).2
                test_key (2, 15)
                (mkPoolEntry (SetWindow (GrowUnchecked (NewPage 7 1 10) 10) 50 (mkClusterInfo 2 40))
                             test_key 1))
      as (before & hit & after & Hpool & _ & _ & _ & Hscan);
      [by left | reflexivity | reflexivity |].
    reflexivity. }
  apply (Hbehind [mkPoolEntry (test_page 3) (mkKey 0 "void") 0]
                 (SetWindow (GrowUnchecked (NewPage 7 1 10) 10) 50 (mkClusterInfo 2 40))
                 test_key 55); [|reflexivity].
  intros e He. left. apply list_elem_of_singleton in He as ->. discriminate.
Defined.

End PagePoolProperties.

(** ** Format compatibility *)

Module CompatProperties.
Import Compat.

Lemma append_empty_r (s : string) : s +:+ "" = s.
Proof.
  induction s as [|c s IH]; [reflexivity|].
  change (String c (s +:+ "") = String c s). by rewrite IH.
Qed.

Lemma append_assoc (s t u : string) : (s +:+ t) +:+ u = s +:+ t +:+ u.
Proof.
  induction s as [|c s IH]; [reflexivity|].
  change (String c ((s +:+ t) +:+ u) = String c (s +:+ t +:+ u)). by rewrite IH.
Qed.

(** The message lists every flag it was built from. *)
Lemma show_flags_names flag flags :
  flag ∈ flags → HasSubstr (pretty flag) (show_flags flags).
Proof.
  induction flags as [|first rest IH]; intros Hin; [inversion Hin|].
  apply elem_of_cons in Hin as [-> | Hin].
  - destruct rest as [|second rest]; simpl.
    + exists "", "". simpl. by rewrite append_empty_r.
    + exists "", (", " +:+ show_flags (second :: rest)). reflexivity.
  - destruct rest as [|second rest]; [inversion Hin|].
    destruct (IH Hin) as (before & after & Hrest).
    exists (pretty first +:+ ", " +:+ before), after.
    change (show_flags (first :: second :: rest))
      with (pretty first +:+ ", " +:+ show_flags (second :: rest)).
    rewrite Hrest. by rewrite !append_assoc.
Qed.

Lemma elem_of_unrecognized understood flags flag :
  flag ∈ unrecognized understood flags ↔ flag ∈ flags ∧ flag ∉ understood.
Proof. unfold unrecognized. rewrite list_elem_of_filter. tauto. Qed.

(** C2. With the reader as the spec describes it: when the header of a
    stored dataset declares a feature flag outside the set the reader
    understands, [Attach] throws; it does not return the descriptor, so no
    field or page becomes accessible; and the message of the error lists
    exactly the flag values that are not understood, the given one among
    them. *)
Theorem Attach_refuses_unknown_feature (understood : gset N) (h : header) (flag : N) :
  flag ∈ hFeatureFlags h →
  flag ∉ understood →
  returned (Attach understood h) = false ∧
  ∃ flags what,
    Attach understood h = Throws what ∧
    what = "unsupported format feature: " +:+ show_flags flags ∧
    (∀ f, f ∈ flags ↔ f ∈ hFeatureFlags h ∧ f ∉ understood) ∧
    flag ∈ flags ∧
    HasSubstr (pretty flag) what.
Proof.
  intros Hdeclared Hunknown.
  assert (flag ∈ unrecognized understood (hFeatureFlags h)) as Hbad
    by (by apply elem_of_unrecognized).
  unfold Attach.
  destruct (unrecognized understood (hFeatureFlags h)) as [|first rest] eqn:Hflags;
    [inversion Hbad|].
  split; [reflexivity|].
  exists (first :: rest), ("unsupported format feature: " +:+ show_flags (first :: rest)).
  split; [reflexivity|]. split; [reflexivity|].
  split; [intros f; rewrite <- Hflags; apply elem_of_unrecognized|].
  split; [exact Hbad|].
  destruct (show_flags_names flag (first :: rest) Hbad) as (before & after & ->).
  exists ("unsupported format feature: " +:+ before), after.
  by rewrite append_assoc.
Qed.

(** Opening the header of the test fails with the message the test expects. *)
Lemma Attach_refuses_unknown_feature_witness :
  kFeatureFlagTest ∈ hFeatureFlags test_header ∧
  (kFeatureFlagTest ∉ no_features) ∧
  Attach no_features test_header = Throws "unsupported format feature: 137" ∧
  returned (Attach no_features test_header) = false.
Proof.
  assert (kFeatureFlagTest ∈ hFeatureFlags test_header) as Hin by (vm_compute; left).
  assert (kFeatureFlagTest ∉ no_features) as Hout by (unfold no_features; set_solver).
  destruct (Attach_refuses_unknown_feature no_features test_header kFeatureFlagTest Hin Hout)
    as (Hfail & _).
  split; [exact Hin|]. split; [exact Hout|].
  split; [vm_compute; reflexivity | exact Hfail].
Defined.

End CompatProperties.

(** ** Further properties of the code *)

(** X1. What a mapping that [EnsureValidMapping] accepts satisfies, the
    field map sending the target to [source]: the structures are equal, or
    the source is a collection and the target a cardinality field; a leaf or
    unsplit source has the type name of the target; neither side has a
    fixed-size array above it; and either both sides have no break point,
    or both have one, the one of the source is a collection, and the two
    are the same field or the field map sends the one of the target to the
    one of the source. *)
Theorem EnsureValidMapping_accepts (target source : FieldRef) (fieldMap : FieldMap_t) :
  fieldMap !! addr_of target = Some source →
  EnsureValidMapping target fieldMap = Returns Success →
  (GetStructure source = GetStructure target ∨
   (GetStructure source = kCollection ∧ fIsCardinality (rInfo target) = true)) ∧
  (GetStructure source = kLeaf ∨ GetStructure source = kUnsplit →
   GetTypeName target = GetTypeName source) ∧
  fnHasArrayParent source = false ∧
  fnHasArrayParent target = false ∧
  match fnBreakPoint source, fnBreakPoint target with
  | None, None => True
  | Some sbp, Some tbp =>
    GetStructure sbp = kCollection ∧
    (addr_of sbp = addr_of tbp ∨ (addr_of <$> fieldMap !! addr_of tbp) = Some (addr_of sbp))
  | _, _ => False
  end.
Proof.
  unfold EnsureValidMapping. intros -> Hok.
  destruct (bool_decide (GetStructure source = GetStructure target) ||
            bool_decide (GetStructure source = kCollection) && fIsCardinality (rInfo target))
    eqn:Hcompatible; [|discriminate]. simpl in Hok.
  destruct ((bool_decide (GetStructure source = kLeaf) || bool_decide (GetStructure source = kUnsplit)) &&
            bool_decide (GetTypeName target ≠ GetTypeName source)) eqn:Htype; [discriminate|].
  destruct (fnHasArrayParent source || fnHasArrayParent target) eqn:Harray; [discriminate|].
  apply orb_false_iff in Harray as [-> ->].
  split.
  { apply orb_true_iff in Hcompatible as [Heq | Hcard].
    - left. by apply bool_decide_eq_true in Heq.
    - right. apply andb_true_iff in Hcard as [Hcoll ->].
      by apply bool_decide_eq_true in Hcoll. }
  split.
  { intros Hleaf. apply andb_false_iff in Htype as [Hkind | Hname].
    - apply orb_false_iff in Hkind as [Hl Hu].
      apply bool_decide_eq_false in Hl, Hu. by destruct Hleaf.
    - apply bool_decide_eq_false in Hname. by apply dec_stable. }
  split; [reflexivity|]. split; [reflexivity|].
  destruct (fnBreakPoint source) as [sbp|], (fnBreakPoint target) as [tbp|]; try done.
  - destruct (bool_decide (GetStructure sbp ≠ kCollection)) eqn:Hcoll; [discriminate|].
    apply bool_decide_eq_false in Hcoll. apply dec_stable in Hcoll.
    split; [exact Hcoll|]. simpl in Hok.
    case_bool_decide as Hsame; [by left | right].
    destruct (fieldMap !! addr_of tbp) as [second|]; [|discriminate]. simpl.
    case_bool_decide as Hmapped; [by rewrite Hmapped | discriminate].
  - destruct (bool_decide (GetStructure sbp ≠ kCollection)); discriminate.
Qed.

(** The field [c._0] of the worked model projected onto itself. *)
Lemma EnsureValidMapping_accepts_witness :
  (<[5%positive := Example.ref_c0]> (∅ : FieldMap_t)) !! addr_of Example.ref_c0 = Some Example.ref_c0 ∧
  EnsureValidMapping Example.ref_c0 (<[5%positive := Example.ref_c0]> ∅) = Returns Success ∧
  fnHasArrayParent Example.ref_c0 = false.
Proof.
  assert (EnsureValidMapping Example.ref_c0 (<[5%positive := Example.ref_c0]> ∅) = Returns Success)
    as Hok by (vm_compute; reflexivity).
  assert ((<[5%positive := Example.ref_c0]> (∅ : FieldMap_t)) !! addr_of Example.ref_c0
          = Some Example.ref_c0) as Hmap by reflexivity.
  split; [exact Hmap|]. split; [exact Hok|].
  by destruct (EnsureValidMapping_accepts Example.ref_c0 Example.ref_c0 _ Hmap Hok)
    as (_ & _ & Harray & _).
Defined.

(** X2. A mapping whose source or target has a fixed-size array above it
    ([GetNRepetitions() > 0] on an ancestor) is never accepted: provided the
    target is in the field map, [EnsureValidMapping] returns an error. *)
Theorem EnsureValidMapping_rejects_array_parent
    (target source : FieldRef) (fieldMap : FieldMap_t) :
  fieldMap !! addr_of target = Some source →
  fnHasArrayParent source = true ∨ fnHasArrayParent target = true →
  ∃ what, EnsureValidMapping target fieldMap = Returns (Failure what).
Proof.
  unfold EnsureValidMapping. intros -> Harray.
  destruct (negb _); [by eexists|].
  destruct (_ && bool_decide (GetTypeName target ≠ GetTypeName source)); [by eexists|].
  assert (fnHasArrayParent source || fnHasArrayParent target = true) as ->
    by (destruct Harray as [-> | ->]; [reflexivity | apply orb_true_r]).
  by eexists.
Qed.

(** A leaf below a fixed-size array of three elements, projected from [y]. *)
Lemma EnsureValidMapping_rejects_array_parent_witness :
  (<[61%positive := Example.ref_y]> (∅ : FieldMap_t)) !! addr_of Example.ref_in_array
    = Some Example.ref_y ∧
  fnHasArrayParent Example.ref_in_array = true ∧
  EnsureValidMapping Example.ref_in_array (<[61%positive := Example.ref_y]> ∅)
    = Returns (Failure "unsupported field mapping across fixed-size arrays").
Proof.
  assert ((<[61%positive := Example.ref_y]> (∅ : FieldMap_t)) !! addr_of Example.ref_in_array
          = Some Example.ref_y) as Hmap by reflexivity.
  split; [exact Hmap|]. split; [reflexivity|].
  destruct (EnsureValidMapping_rejects_array_parent _ _ _ Hmap (or_intror eq_refl))
    as [what Hwhat].
  rewrite Hwhat. vm_compute in Hwhat. injection Hwhat as <-. reflexivity.
Defined.

(** X3. On a frozen model the mutating operations [AddField],
    [AddProjectedField] and [SetDescription] throw "invalid attempt to
    modify frozen model" and leave the model as it was. *)
Theorem frozen_model_rejects_mutation
    (valid : string → RResult) (m : RNTupleModel) (field : option RFieldBase)
    (mapping : string → string) (description : string) :
  IsFrozen m = true →
  AddField valid m field = (Throws "invalid attempt to modify frozen model", m) ∧
  AddProjectedField valid m field mapping = (Throws "invalid attempt to modify frozen model", m) ∧
  SetDescription m description = (Throws "invalid attempt to modify frozen model", m).
Proof.
  intros Hfrozen.
  unfold AddField, AddProjectedField, SetDescription, EnsureNotFrozen.
  rewrite Hfrozen. done.
Qed.

Lemma frozen_model_rejects_mutation_witness :
  IsFrozen (Freeze Example.model) = true ∧
  (AddField Example.EnsureValidFieldName_nonempty (Freeze Example.model) (Some Example.field_z)).1
    = Throws "invalid attempt to modify frozen model".
Proof.
  split; [reflexivity|].
  destruct (frozen_model_rejects_mutation Example.EnsureValidFieldName_nonempty
              (Freeze Example.model) (Some Example.field_z) Example.mapping_p "" eq_refl)
    as (-> & _). reflexivity.
Defined.

Lemma fold_AddValue (bind : RFieldBase → RValue) subFields entry :
  fold_left (λ entry f, AddValue entry (bind f)) subFields entry
  = mkEntry (eModelId entry) (eSchemaId entry) (eValues entry ++ map bind subFields).
Proof.
  revert entry. induction subFields as [|f subFields IH]; intros entry; simpl.
  - rewrite app_nil_r. by destruct entry.
  - rewrite IH. simpl. by rewrite <- app_assoc.
Qed.

(** X4. On a frozen model [CreateEntry] and [CreateBareEntry] return an
    entry stamped with the model id and the schema id of the model, with one
    value per top-level field in the order of the fields: owned values for
    [CreateEntry], unbound ones for [CreateBareEntry]. *)
Theorem CreateEntry_frozen (m : RNTupleModel) :
  IsFrozen m = true →
  CreateEntry m = Returns (mkEntry (fModelId m) (fSchemaId m)
                                   (map CreateValue (GetSubFields (fFieldZero m)))) ∧
  CreateBareEntry m = Returns (mkEntry (fModelId m) (fSchemaId m)
                                       (map BindValue_nullptr (GetSubFields (fFieldZero m)))).
Proof.
  intros Hfrozen. unfold CreateEntry, CreateBareEntry. rewrite Hfrozen. simpl.
  by rewrite !fold_AddValue.
Qed.

Lemma CreateEntry_frozen_witness :
  IsFrozen (Freeze Example.model) = true ∧
  CreateEntry (Freeze Example.model)
    = Returns (mkEntry 1 1 [mkValue 2 true; mkValue 3 true; mkValue 4 true]).
Proof.
  split; [reflexivity|].
  destruct (CreateEntry_frozen (Freeze Example.model) eq_refl) as [-> _]. reflexivity.
Defined.

(** ** Acceptance and failure of a mapping *)

Lemma EnsureValidMapping_checks (target source : FieldRef) (fieldMap : FieldMap_t) :
  fieldMap !! addr_of target = Some source →
  passes_field_checks target source →
  EnsureValidMapping target fieldMap =
  match fnBreakPoint source, fnBreakPoint target with
  | None, None => Returns Success
  | None, Some _ => Undefined
  | Some sbp, tbp =>
    if bool_decide (GetStructure sbp ≠ kCollection)
    then Returns (R__FAIL "unsupported field mapping (source structure)")
    else match tbp with
         | None => Returns (R__FAIL ("field mapping structure mismatch: " +:+ GetFieldName source +:+
                                     " --> " +:+ GetFieldName target))
         | Some tbp =>
           if bool_decide (addr_of sbp = addr_of tbp) then Returns Success
           else if bool_decide ((addr_of <$> fieldMap !! addr_of tbp) = Some (addr_of sbp))
                then Returns Success
                else Returns (R__FAIL ("field mapping structure mismatch: " +:+ GetFieldName source +:+
                                       " --> " +:+ GetFieldName target))
         end
  end.
Proof.
  unfold EnsureValidMapping. intros -> (Hcompatible & Htype & -> & ->). cbv zeta.
  assert (bool_decide (GetStructure source = GetStructure target) ||
          bool_decide (GetStructure source = kCollection) && fIsCardinality (rInfo target) = true)
    as ->.
  { destruct Hcompatible as [Heq | [Hcoll Hcard]].
    - by rewrite bool_decide_eq_true_2.
    - rewrite (bool_decide_eq_true_2 _ Hcoll), Hcard. apply orb_true_r. }
  assert ((bool_decide (GetStructure source = kLeaf) || bool_decide (GetStructure source = kUnsplit)) &&
          bool_decide (GetTypeName target ≠ GetTypeName source) = false) as ->.
  { destruct (bool_decide (GetStructure source = kLeaf) || bool_decide (GetStructure source = kUnsplit))
      eqn:Hkind; [|reflexivity].
    simpl. apply bool_decide_eq_false. intros Hne. apply Hne, Htype.
    apply orb_true_iff in Hkind as [H | H]; apply bool_decide_eq_true in H; tauto. }
  simpl.
  destruct (fnBreakPoint source) as [sbp|], (fnBreakPoint target) as [tbp|]; try reflexivity.
  destruct (bool_decide (GetStructure sbp ≠ kCollection)); [reflexivity|]. simpl.
  case_bool_decide as Hsame; [reflexivity|].
  destruct (fieldMap !! addr_of tbp) as [second|];
      repeat case_bool_decide; simplify_eq/=; try reflexivity; congruence.
Qed.

Lemma EnsureValidMapping_early (target source : FieldRef) (fieldMap : FieldMap_t) :
  fieldMap !! addr_of target = Some source →
  ¬ passes_field_checks target source →
  ∃ what, EnsureValidMapping target fieldMap = Returns (Failure what).
Proof.
  unfold EnsureValidMapping. intros -> Hnot. cbv zeta.
  destruct (bool_decide (GetStructure source = GetStructure target) ||
            bool_decide (GetStructure source = kCollection) && fIsCardinality (rInfo target))
    eqn:Hcompatible; simpl; [|by eexists].
  destruct ((bool_decide (GetStructure source = kLeaf) || bool_decide (GetStructure source = kUnsplit)) &&
            bool_decide (GetTypeName target ≠ GetTypeName source)) eqn:Htype; [by eexists|].
  destruct (fnHasArrayParent source) eqn:Hsource; [by eexists|].
  destruct (fnHasArrayParent target) eqn:Htarget; [by eexists|].
  exfalso. apply Hnot. repeat split; try done.
  - apply orb_true_iff in Hcompatible as [H | H].
    + left. by apply bool_decide_eq_true in H.
    + right. apply andb_true_iff in H as [H ?]. by apply bool_decide_eq_true in H.
  - intros Hkind. apply andb_false_iff in Htype as [Hb | Hb].
    + apply orb_false_iff in Hb as [Hl Hu]. apply bool_decide_eq_false in Hl, Hu. tauto.
    + apply bool_decide_eq_false in Hb. by apply dec_stable.
Qed.

(** X5. [EnsureValidMapping] accepts every mapping that meets the
    conditions it tests: the target has a source in the field map, the
    structures are equal or the source is a collection and the target a
    cardinality field, a leaf or unsplit source has the type name of the
    target, no fixed-size array is above either side, and the break points
    are both absent, or both present with a collection on the source side
    and either the same field or the target's mapped to the source's. *)
Theorem EnsureValidMapping_accepts_when (target source : FieldRef) (fieldMap : FieldMap_t) :
  fieldMap !! addr_of target = Some source →
  (GetStructure source = GetStructure target ∨
   (GetStructure source = kCollection ∧ fIsCardinality (rInfo target) = true)) →
  (GetStructure source = kLeaf ∨ GetStructure source = kUnsplit →
   GetTypeName target = GetTypeName source) →
  fnHasArrayParent source = false →
  fnHasArrayParent target = false →
  match fnBreakPoint source, fnBreakPoint target with
  | None, None => True
  | Some sbp, Some tbp =>
    GetStructure sbp = kCollection ∧
    (addr_of sbp = addr_of tbp ∨ (addr_of <$> fieldMap !! addr_of tbp) = Some (addr_of sbp))
  | _, _ => False
  end →
  EnsureValidMapping target fieldMap = Returns Success.
Proof.
  intros Hmap Hcompatible Htype Hsource Htarget Hbreak.
  rewrite (EnsureValidMapping_checks target source fieldMap) by done.
  destruct (fnBreakPoint source) as [sbp|], (fnBreakPoint target) as [tbp|]; try done.
  destruct Hbreak as [Hcoll Hsame].
  rewrite bool_decide_eq_false_2 by (intros Hne; by apply Hne).
  destruct Hsame as [Hsame | Hmapped].
  - by rewrite bool_decide_eq_true_2.
  - case_bool_decide; [reflexivity|]. by rewrite bool_decide_eq_true_2.
Qed.

(** A cardinality field projected from the collection [c] of the worked
    model. *)
Lemma EnsureValidMapping_accepts_when_witness :
  EnsureValidMapping (mkRef (mkInfo 70 "n" "ROOT::RNTupleCardinality<std::uint32_t>" kLeaf 0 true) None)
                     (<[70%positive := Example.ref_c]> ∅)
  = Returns Success.
Proof.
  apply (EnsureValidMapping_accepts_when _ Example.ref_c).
  - reflexivity.
  - right. split; reflexivity.
  - intros [H | H]; vm_compute in H; discriminate.
  - reflexivity.
  - reflexivity.
  - vm_compute. exact I.
Defined.

(** X6. The three ways [EnsureValidMapping] ends: it throws exactly when
    the target is not a key of the field map ([fieldMap.at(target)]); it
    dereferences the null [sourceBreakPoint] exactly when the mapping passes
    the structure, type and array checks, the source has no break point and
    the target has one; in every other case it returns a result. *)
Theorem EnsureValidMapping_outcomes (target : FieldRef) (fieldMap : FieldMap_t) :
  ((∃ what, EnsureValidMapping target fieldMap = Throws what) ↔
   fieldMap !! addr_of target = None) ∧
  (EnsureValidMapping target fieldMap = Undefined ↔
   ∃ source,
     fieldMap !! addr_of target = Some source ∧
     (GetStructure source = GetStructure target ∨
      (GetStructure source = kCollection ∧ fIsCardinality (rInfo target) = true)) ∧
     (GetStructure source = kLeaf ∨ GetStructure source = kUnsplit →
      GetTypeName target = GetTypeName source) ∧
     fnHasArrayParent source = false ∧
     fnHasArrayParent target = false ∧
     fnBreakPoint source = None ∧
     is_Some (fnBreakPoint target)).
Proof.
  destruct (fieldMap !! addr_of target) as [source|] eqn:Hmap.
  2:{ unfold EnsureValidMapping. rewrite Hmap. split.
      - split; [reflexivity | intros _; by eexists].
      - split; [discriminate | intros (source & Hsome & _); discriminate]. }
  destruct (decide (passes_field_checks target source)) as [Hchecks|Hfails].
  2:{ destruct (EnsureValidMapping_early target source fieldMap Hmap Hfails) as [what ->].
      split; split.
      - intros [? ?]; discriminate.
      - discriminate.
      - discriminate.
      - intros (source' & [= <-] & ? & ? & ? & ? & _). by destruct Hfails. }
  rewrite (EnsureValidMapping_checks target source fieldMap Hmap Hchecks).
  split; split.
  - intros [what Hthrows]. exfalso.
    destruct (fnBreakPoint source) as [sbp|], (fnBreakPoint target) as [tbp|];
      repeat case_bool_decide; discriminate.
  - discriminate.
  - intros Hundefined. exists source. destruct Hchecks as (? & ? & ? & ?).
    destruct (fnBreakPoint source) as [sbp|], (fnBreakPoint target) as [tbp|];
      repeat case_bool_decide; try discriminate.
    repeat split; first [done | by eexists].
  - intros (source' & [= <-] & _ & _ & _ & _ & -> & [tbp ->]). reflexivity.
Qed.

(** The leaf [v._0] below the variant [v], projected from the top-level
    leaf [y]; and a target that the field map does not hold. *)
Lemma EnsureValidMapping_outcomes_witness :
  EnsureValidMapping Example.ref_v0 (<[21%positive := Example.ref_y]> ∅) = Undefined ∧
  ∃ what, EnsureValidMapping Example.ref_v0 ∅ = Throws what.
Proof.
  split.
  - apply (EnsureValidMapping_outcomes Example.ref_v0 (<[21%positive := Example.ref_y]> ∅)).
    exists Example.ref_y. repeat split; try reflexivity.
    + by left.
    + by eexists.
  - by apply (EnsureValidMapping_outcomes Example.ref_v0 ∅).
Defined.

(** ** Looking fields up *)

Lemma find_some_elem_of {A} (P : A → bool) (l : list A) (x : A) :
  List.find P l = Some x → x ∈ l ∧ P x = true.
Proof.
  intros Hfind. apply find_some in Hfind as [Hin HP]. split; [by apply list_elem_of_In | exact HP].
Qed.

Lemma elem_of_flat_map {A B} (f : A → list B) (l : list A) (y : B) :
  y ∈ flat_map f l ↔ ∃ x, x ∈ l ∧ y ∈ f x.
Proof.
  rewrite list_elem_of_In, in_flat_map. split; intros (x & Hx & Hy); exists x.
  - by rewrite !list_elem_of_In.
  - by rewrite <- !list_elem_of_In.
Qed.

Lemma find_app_singleton {A} (P : A → bool) (l : list A) (x : A) :
  List.find P (l ++ [x]) =
  match List.find P l with
  | Some y => Some y
  | None => if P x then Some x else None
  end.
Proof.
  induction l as [|a l IH]; simpl; [reflexivity|]. by destruct (P a).
Qed.

Lemma find_none_names (name : string) (fields : list RFieldBase) :
  name ∉ (fun f => fName (fInfo f)) <$> fields →
  List.find (fun f => bool_decide (fName (fInfo f) = name)) fields = None.
Proof.
  induction fields as [|a l IH]; simpl; [reflexivity|]. intros Hnot.
  rewrite not_elem_of_cons in Hnot. destruct Hnot as [Hne Hnot].
  rewrite bool_decide_eq_false_2 by congruence. by apply IH.
Qed.

Lemma GetSubFields_Attach (self child : RFieldBase) :
  GetSubFields (Attach self child) = GetSubFields self ++ [child].
Proof. by destruct self. Qed.

Lemma fInfo_Attach (self child : RFieldBase) : fInfo (Attach self child) = fInfo self.
Proof. by destruct self. Qed.

Lemma Split_nonempty (str : string) : Split str ≠ [].
Proof.
  induction str as [|c rest IH]; simpl; [discriminate|].
  case_bool_decide; [discriminate|]. destruct (Split rest); discriminate.
Qed.

Lemma Split_no_dot (name : string) : no_dot name = true → Split name = [name].
Proof.
  induction name as [|c rest IH]; simpl; [reflexivity|].
  intros Hno. apply andb_true_iff in Hno as [Hc Hrest].
  apply negb_true_iff in Hc. rewrite Hc, (IH Hrest). reflexivity.
Qed.

Lemma FindField_loop_sound (segments : list string) :
  ∀ (field : RFieldBase) (parent : option FieldRef) (f : FieldRef),
    FindField_loop field (mkRef (fInfo field) parent) segments = Some f →
    f ∈ subtree_refs parent field ∧
    names_from_root f = names_from_root (mkRef (fInfo field) parent) ++ segments.
Proof.
  induction segments as [|subfieldName rest IH]; intros field parent f.
  - intros [= <-]. split; [destruct field; left | by rewrite app_nil_r].
  - cbn [FindField_loop].
    destruct (List.find _ (GetSubFields field)) as [child|] eqn:Hfind; [|discriminate].
    intros Hloop. apply find_some_elem_of in Hfind as [Hin Hname].
    apply bool_decide_eq_true in Hname. apply IH in Hloop as [Hsub Hnames]. split.
    + destruct field as [info subFields]. cbn [subtree_refs]. right.
      apply elem_of_flat_map. by exists child.
    + rewrite Hnames. cbn [names_from_root]. by rewrite Hname, <- app_assoc.
Qed.

(** X7. What [FindField] finds: the path is not empty, the field is a
    descendant of the zero field of the model (one of the fields its schema
    iterator visits), and the names from the top-level field down to the
    field found are the segments of the path. *)
Theorem FindField_found (m : RNTupleModel) (fieldName : string) (f : FieldRef) :
  FindField m fieldName = Some f →
  fieldName ≠ "" ∧
  f ∈ schema_iter (get (fFieldZero m)) (fFieldZero m) ∧
  names_from_root f = Split fieldName.
Proof.
  unfold FindField. case_bool_decide as Hempty; [discriminate|].
  intros Hloop. apply FindField_loop_sound in Hloop as [Hsub Hnames].
  split; [exact Hempty|]. split; [|exact Hnames].
  destruct (fFieldZero m) as [info subFields]. cbn [subtree_refs] in Hsub.
  apply elem_of_cons in Hsub as [-> | Hsub]; [|exact Hsub].
  by destruct (Split_nonempty fieldName).
Qed.

(** The element field of the collection [c] of the worked model. *)
Lemma FindField_found_witness :
  FindField Example.model "c._0" = Some Example.ref_c0 ∧
  names_from_root Example.ref_c0 = ["c"; "_0"].
Proof.
  assert (FindField Example.model "c._0" = Some Example.ref_c0) as Hfound by reflexivity.
  split; [exact Hfound|].
  by destruct (FindField_found Example.model "c._0" Example.ref_c0 Hfound) as (_ & _ & ->).
Defined.

(** ** Adding fields *)

(** [AddField] either leaves the model as it was, or it has passed every
    check and attached the field. *)
Lemma AddField_cases (valid : string → RResult) (m : RNTupleModel) (field : option RFieldBase) :
  (AddField valid m field).2 = m ∨
  ∃ f, field = Some f ∧
       IsFrozen m = false ∧
       valid (fName (fInfo f)) = Success ∧
       (fName (fInfo f) ∉ fFieldNames m) ∧
       AddField valid m field =
       (Returns tt,
        {| fFieldZero := Attach (fFieldZero m) f;
           fDefaultEntry :=
             match fDefaultEntry m with
             | Some e => Some (AddValue e (CreateValue f))
             | None => None
             end;
           fFieldNames := fFieldNames m ∪ {[ fName (fInfo f) ]};
           fDescription := fDescription m;
           fProjectedFields := fProjectedFields m;
           fIsFrozen := fIsFrozen m;
           fModelId := fModelId m;
           fSchemaId := fSchemaId m |}).
Proof.
  unfold AddField, EnsureNotFrozen, EnsureValidFieldName.
  destruct (IsFrozen m) eqn:Hfrozen; [by left|].
  destruct field as [f|]; [|by left].
  destruct (valid (fName (fInfo f))) eqn:Hvalid; [|by left].
  case_bool_decide as Hused; [by left|].
  right. by exists f.
Qed.

Lemma AddField_success (valid : string → RResult) (m : RNTupleModel) (field : option RFieldBase)
    (m' : RNTupleModel) :
  AddField valid m field = (Returns tt, m') →
  ∃ f, field = Some f ∧
       IsFrozen m = false ∧
       valid (fName (fInfo f)) = Success ∧
       (fName (fInfo f) ∉ fFieldNames m) ∧
       fFieldZero m' = Attach (fFieldZero m) f ∧
       fDefaultEntry m' = (fun e => AddValue e (CreateValue f)) <$> fDefaultEntry m ∧
       fFieldNames m' = fFieldNames m ∪ {[ fName (fInfo f) ]} ∧
       fProjectedFields m' = fProjectedFields m ∧
       fSchemaId m' = fSchemaId m.
Proof.
  unfold AddField, EnsureNotFrozen, EnsureValidFieldName.
  destruct (IsFrozen m) eqn:Hfrozen; [discriminate|].
  destruct field as [f|]; [|discriminate].
  destruct (valid (fName (fInfo f))) eqn:Hvalid; [|discriminate].
  case_bool_decide as Hused; [discriminate|].
  intros [= <-]. exists f. cbn. repeat split; try done; by destruct (fDefaultEntry m).
Qed.

(** A successful [AddProjectedField] has found the model unfrozen and the
    name valid and unused. *)
Lemma AddProjectedField_success_checks
    (valid : string → RResult) (m : RNTupleModel) (field : option RFieldBase)
    (mapping : string → string) (m' : RNTupleModel) :
  AddProjectedField valid m field mapping = (Returns Success, m') →
  ∃ f, field = Some f ∧
       IsFrozen m = false ∧
       valid (fName (fInfo f)) = Success ∧
       (fName (fInfo f) ∉ fFieldNames m).
Proof.
  unfold AddProjectedField, EnsureNotFrozen, EnsureValidFieldName.
  destruct (IsFrozen m) eqn:Hfrozen; [discriminate|].
  destruct field as [f|]; [|discriminate].
  destruct (FindField m (mapping (fName (fInfo f)))); [|discriminate].
  destruct (AddProjectedField_loop _ _ _ _); [|discriminate].
  destruct (valid (fName (fInfo f))) eqn:Hvalid; [|discriminate].
  case_bool_decide as Hused; [discriminate|].
  intros _. by exists f.
Qed.

Lemma FindField_loop_Attach (segments : list string) (zero : RFieldBase) (field : RFieldBase)
    (self f : FieldRef) :
  FindField_loop zero self segments = Some f →
  FindField_loop (Attach zero field) self segments = Some f.
Proof.
  destruct segments as [|subfieldName rest]; [done|]. cbn [FindField_loop].
  rewrite GetSubFields_Attach, find_app_singleton.
  by destruct (List.find _ (GetSubFields zero)).
Qed.

Lemma all_names_top_level (m : RNTupleModel) (name : string) :
  name ∈ top_level_names m → name ∈ all_names m.
Proof. intros Hin. apply elem_of_app. by left. Qed.

(** X8. A field added with [AddField] is found under its name: in a model
    whose names are recorded, after [AddField] has accepted a field whose
    name is not empty and has no dot, [FindField] returns that field, with
    the zero field as its parent; and every path that resolved before
    resolves to the same field. *)
Theorem AddField_then_FindField
    (valid : string → RResult) (m : RNTupleModel) (field : RFieldBase) (m' : RNTupleModel) :
  names_recorded m →
  AddField valid m (Some field) = (Returns tt, m') →
  fName (fInfo field) ≠ "" →
  no_dot (fName (fInfo field)) = true →
  FindField m' (fName (fInfo field)) = Some (mkRef (fInfo field) (Some (get (fFieldZero m')))) ∧
  ∀ path f, FindField m path = Some f → FindField m' path = Some f.
Proof.
  intros [_ Hrecorded] Hadd Hname Hdot.
  apply AddField_success in Hadd as (f & [= <-] & _ & _ & Hunused & Hzero & _).
  unfold FindField, get. rewrite Hzero, fInfo_Attach. split.
  - rewrite bool_decide_eq_false_2 by exact Hname.
    rewrite (Split_no_dot _ Hdot). cbn [FindField_loop].
    rewrite GetSubFields_Attach, find_app_singleton, find_none_names.
    + by rewrite bool_decide_eq_true_2.
    + intros Hin. apply Hunused, Hrecorded, all_names_top_level, Hin.
  - intros path f. case_bool_decide; [done|]. apply FindField_loop_Attach.
Qed.

(** ** The recorded names *)

Lemma names_recorded_frame (m m' : RNTupleModel) :
  fFieldZero m' = fFieldZero m →
  fProjectedFields m' = fProjectedFields m →
  fFieldNames m' = fFieldNames m →
  names_recorded m → names_recorded m'.
Proof.
  unfold names_recorded, all_names, top_level_names, projected_subfields.
  by intros -> -> ->.
Qed.

Lemma names_recorded_CreateBare (addr projZero : ptr) (g : Z) :
  names_recorded (CreateBare (RFieldZero_new addr) projZero g).1.
Proof.
  split; [constructor|]. intros name. cbn. split; intros Hin.
  - by apply elem_of_nil in Hin.
  - by apply elem_of_empty in Hin.
Qed.

Lemma names_recorded_Create (addr projZero : ptr) (g : Z) :
  names_recorded (Create (RFieldZero_new addr) projZero g).1.
Proof. exact (names_recorded_CreateBare addr projZero g). Qed.

Lemma names_recorded_insert (m m' : RNTupleModel) (name : string) :
  names_recorded m →
  name ∉ fFieldNames m →
  fFieldNames m' = fFieldNames m ∪ {[ name ]} →
  all_names m' ≡ₚ name :: all_names m →
  names_recorded m'.
Proof.
  intros [Hnodup Hrecorded] Hfresh Hnames Hperm. split.
  - rewrite Hperm. constructor; [by rewrite Hrecorded | exact Hnodup].
  - intros x. rewrite Hperm, Hnames, elem_of_cons, elem_of_union, elem_of_singleton, Hrecorded.
    tauto.
Qed.

Lemma names_recorded_AddField (valid : string → RResult) (m : RNTupleModel) (field : option RFieldBase) :
  names_recorded m → names_recorded (AddField valid m field).2.
Proof.
  intros Hm.
  destruct (AddField_cases valid m field) as [-> | (f & _ & _ & _ & Hunused & ->)]; [done|].
  apply (names_recorded_insert m _ (fName (fInfo f)) Hm Hunused); [reflexivity|].
  unfold all_names, top_level_names, projected_subfields. cbn.
  rewrite GetSubFields_Attach, fmap_app, <- app_assoc. cbn.
  symmetry. apply Permutation_middle.
Qed.

Lemma names_recorded_AddProjectedField
    (valid : string → RResult) (m : RNTupleModel) (field : option RFieldBase)
    (mapping : string → string) :
  names_recorded m → names_recorded (AddProjectedField valid m field mapping).2.
Proof.
  intros Hm.
  destruct (AddProjectedField valid m field mapping) as [result m'] eqn:Hrun.
  destruct (AddProjectedField_outcome valid m field mapping result m' Hrun)
    as (Hfailure & _ & Hsuccess).
  destruct (decide (result = Returns Success)) as [-> | Hfail];
    [|by rewrite (Hfailure Hfail)].
  destruct (AddProjectedField_success_checks valid m field mapping m' Hrun)
    as (f & -> & _ & _ & Hunused).
  destruct (Hsuccess eq_refl) as (f' & projectedFields & fieldMap & [= <-] & Hpf & _ & _ & ->).
  apply (names_recorded_insert m _ (fName (fInfo f)) Hm Hunused); [reflexivity|].
  unfold all_names, top_level_names, projected_subfields. rewrite Hpf. cbn.
  rewrite GetSubFields_Attach, fmap_app, app_assoc. cbn.
  symmetry. apply Permutation_cons_append.
Qed.

Lemma names_recorded_Unfreeze (m : RNTupleModel) (g : Z) :
  names_recorded m → names_recorded (Unfreeze m g).1.
Proof.
  unfold Unfreeze. destruct (negb (IsFrozen m)); [done|]. by apply names_recorded_frame.
Qed.

Lemma names_recorded_run_model_op (valid : string → RResult) (op : model_op) (m : RNTupleModel) (g : Z) :
  names_recorded m → names_recorded (run_model_op valid op m g).1.
Proof.
  destruct op as [field|field mapping|description| |]; cbn [run_model_op fst].
  - apply names_recorded_AddField.
  - apply names_recorded_AddProjectedField.
  - unfold SetDescription. destruct (EnsureNotFrozen m); [|done..].
    by apply names_recorded_frame.
  - by apply names_recorded_frame.
  - apply names_recorded_Unfreeze.
Qed.

Lemma names_recorded_run_model_ops (valid : string → RResult) (ops : list model_op) :
  ∀ (m : RNTupleModel) (g : Z),
    names_recorded m → names_recorded (run_model_ops valid ops m g).1.
Proof.
  unfold run_model_ops. induction ops as [|op ops IH]; intros m g Hm; [exact Hm|].
  cbn [fold_left fst snd].
  destruct (run_model_op valid op m g) as [m1 g1] eqn:Hop.
  apply IH. change m1 with (m1, g1).1. rewrite <- Hop. by apply names_recorded_run_model_op.
Qed.

Lemma GetSubFields_Clone_field (reloc : ptr → ptr) (f : RFieldBase) :
  GetSubFields (Clone_field reloc f) = Clone_field reloc <$> GetSubFields f.
Proof. by destruct f. Qed.

Lemma fName_Clone_field (reloc : ptr → ptr) (f : RFieldBase) :
  fName (fInfo (Clone_field reloc f)) = fName (fInfo f).
Proof. by destruct f. Qed.

Lemma names_Clone_field (reloc : ptr → ptr) (f : RFieldBase) :
  (fun f => fName (fInfo f)) <$> GetSubFields (Clone_field reloc f) =
  (fun f => fName (fInfo f)) <$> GetSubFields f.
Proof.
  rewrite GetSubFields_Clone_field, <- list_fmap_compose. apply list_fmap_ext.
  intros i x _. apply fName_Clone_field.
Qed.

(** What [Clone] returns, when it returns. *)
Lemma Clone_returns (m : RNTupleModel) (reloc : ptr → ptr) (g : Z) (clone : RNTupleModel) :
  (Clone m reloc g).1 = Returns clone →
  ∃ projectedFields cloneMap,
    fProjectedFields m = Some projectedFields ∧
    fFieldZero clone = Clone_field reloc (fFieldZero m) ∧
    fProjectedFields clone =
      Some (mkProjectedFields (Clone_field reloc (pfFieldZero projectedFields)) cloneMap) ∧
    fFieldNames clone = fFieldNames m ∧
    fDescription clone = fDescription m ∧
    fIsFrozen clone = fIsFrozen m ∧
    fModelId clone = (GetNewModelId (GetNewModelId g).2).1 ∧
    fSchemaId clone = (if fIsFrozen m then fSchemaId m else fModelId clone) ∧
    fDefaultEntry clone =
      (fun _ => mkEntry (fModelId clone) (fSchemaId clone)
                        (CreateValue <$> GetSubFields (fFieldZero clone))) <$> fDefaultEntry m.
Proof.
  unfold Clone, RNTupleModel_new, RProjectedFields_Clone, GetNewModelId. cbv zeta. cbn [fst snd].
  destruct (fProjectedFields m) as [projectedFields|]; [|discriminate].
  destruct (fold_left _ _ _) as [cloneMap|what|]; [|discriminate..].
  intros [= <-]. exists projectedFields, cloneMap. cbn. repeat split.
  destruct (fDefaultEntry m); [|reflexivity]. cbn. by rewrite fold_AddValue.
Qed.

Lemma names_recorded_Clone (m : RNTupleModel) (reloc : ptr → ptr) (g : Z) (clone : RNTupleModel) :
  names_recorded m → (Clone m reloc g).1 = Returns clone → names_recorded clone.
Proof.
  intros Hm Hclone.
  apply Clone_returns in Hclone
    as (projectedFields & cloneMap & Hpf & Hzero & Hpf' & Hnames & _).
  unfold names_recorded, all_names, top_level_names, projected_subfields in *.
  rewrite Hzero, Hpf', Hnames. rewrite Hpf in Hm. cbn. by rewrite !names_Clone_field.
Qed.

(** X9. In a model built by [Create] or [CreateBare] on an empty zero
    field, through any sequence of [AddField], [AddProjectedField],
    [SetDescription], [Freeze] and [Unfreeze] calls, failed ones included,
    the names of the top-level fields and of the top-level projected fields
    are pairwise distinct, and [fFieldNames] holds exactly these names; a
    clone of such a model has the property too. *)
Theorem names_recorded_invariant (valid : string → RResult) :
  (∀ addr projZero g ops,
     let created := CreateBare (RFieldZero_new addr) projZero g in
     names_recorded (run_model_ops valid ops created.1 created.2).1) ∧
  (∀ addr projZero g ops,
     let created := Create (RFieldZero_new addr) projZero g in
     names_recorded (run_model_ops valid ops created.1 created.2).1) ∧
  (∀ m reloc g clone,
     names_recorded m → (Clone m reloc g).1 = Returns clone → names_recorded clone) ∧
  (∀ m g ops, names_recorded m → names_recorded (run_model_ops valid ops m g).1).
Proof.
  split; [|split; [|split]].
  - intros addr projZero g ops created.
    apply names_recorded_run_model_ops, names_recorded_CreateBare.
  - intros addr projZero g ops created.
    apply names_recorded_run_model_ops, names_recorded_Create.
  - apply names_recorded_Clone.
  - intros m g ops. apply names_recorded_run_model_ops.
Qed.

(** The worked model, built from [Create] by three [AddField] calls and a
    fourth that repeats the name [w]. *)
Lemma names_recorded_invariant_witness :
  let ops := [OpAddField (Some Example.field_w); OpAddField (Some Example.field_y);
              OpAddField (Some Example.field_c); OpAddField (Some Example.field_w)] in
  (run_model_ops Example.EnsureValidFieldName_nonempty ops
                 (Create (RFieldZero_new 1) 10 0).1 (Create (RFieldZero_new 1) 10 0).2).1
  = Example.model ∧
  names_recorded Example.model ∧
  all_names Example.model = ["w"; "y"; "c"].
Proof.
  intros ops.
  assert ((run_model_ops Example.EnsureValidFieldName_nonempty ops
             (Create (RFieldZero_new 1) 10 0).1 (Create (RFieldZero_new 1) 10 0).2).1
          = Example.model) as Hrun by (vm_compute; reflexivity).
  split; [exact Hrun|]. split; [|reflexivity].
  rewrite <- Hrun.
  apply (proj1 (proj2 (names_recorded_invariant Example.EnsureValidFieldName_nonempty)) 1%positive 10%positive 0 ops).
Defined.

(** The field [z] added to the worked model. *)
Lemma AddField_then_FindField_witness :
  let m' := (AddField Example.EnsureValidFieldName_nonempty Example.model (Some Example.field_z)).2 in
  FindField m' "z" = Some (mkRef (fInfo Example.field_z) (Some (get (fFieldZero m')))) ∧
  FindField m' "c._0" = Some Example.ref_c0.
Proof.
  intros m'.
  assert (names_recorded Example.model) as Hrecorded.
  { apply names_recorded_AddField, names_recorded_AddField, names_recorded_AddField,
      names_recorded_Create. }
  assert (AddField Example.EnsureValidFieldName_nonempty Example.model (Some Example.field_z)
          = (Returns tt, m')) as Hadd by (vm_compute; reflexivity).
  destruct (AddField_then_FindField _ _ _ _ Hrecorded Hadd) as [Hnew Hold].
  - discriminate.
  - reflexivity.
  - split; [exact Hnew|]. apply Hold. reflexivity.
Defined.

(** ** Tokens and entries *)

Lemma CreateEntry_returns (m : RNTupleModel) (entry : REntry) :
  CreateEntry m = Returns entry →
  IsFrozen m = true ∧
  entry = mkEntry (fModelId m) (fSchemaId m) (CreateValue <$> GetSubFields (fFieldZero m)).
Proof.
  unfold CreateEntry. destruct (IsFrozen m); [|discriminate].
  intros [= <-]. split; [reflexivity|]. apply fold_AddValue.
Qed.

Lemma CreateBareEntry_returns (m : RNTupleModel) (entry : REntry) :
  CreateBareEntry m = Returns entry →
  IsFrozen m = true ∧
  entry = mkEntry (fModelId m) (fSchemaId m) (BindValue_nullptr <$> GetSubFields (fFieldZero m)).
Proof.
  unfold CreateBareEntry. destruct (IsFrozen m); [|discriminate].
  intros [= <-]. split; [reflexivity|]. apply fold_AddValue.
Qed.

Lemma GetToken_Returns (m : RNTupleModel) (fieldName : string) (token : RFieldToken) :
  GetToken m fieldName = Returns token ↔
  tSchemaId token = fSchemaId m ∧
  ∃ f, list_find (fun f => fName (fInfo f) = fieldName) (GetSubFields (fFieldZero m))
       = Some (tIndex token, f).
Proof.
  unfold GetToken. cbv zeta.
  destruct (list_find _ _) as [[distance f]|]; split.
  - intros [= <-]. split; [reflexivity|]. by exists f.
  - intros [Hschema (f' & [= -> <-])]. destruct token as [index schemaId]. cbn in *. by subst.
  - discriminate.
  - intros [_ (f' & ?)]. discriminate.
Qed.

(** X10. A token indexes the entries of the model: when [GetToken] returns
    a token for a name, the token carries the schema id of the model, its
    index is the position of the first top-level field with that name, and
    in every entry that [CreateEntry] or [CreateBareEntry] returns for the
    model the value at that index is the value of that field, the entry
    carrying the schema id of the token. *)
Theorem GetToken_indexes_entries (m : RNTupleModel) (fieldName : string) (token : RFieldToken) :
  GetToken m fieldName = Returns token →
  tSchemaId token = fSchemaId m ∧
  ∃ f, GetSubFields (fFieldZero m) !! tIndex token = Some f ∧
       fName (fInfo f) = fieldName ∧
       (∀ j g, (j < tIndex token)%nat → GetSubFields (fFieldZero m) !! j = Some g →
               fName (fInfo g) ≠ fieldName) ∧
       (∀ entry, CreateEntry m = Returns entry →
                 eSchemaId entry = tSchemaId token ∧
                 eValues entry !! tIndex token = Some (CreateValue f)) ∧
       (∀ entry, CreateBareEntry m = Returns entry →
                 eSchemaId entry = tSchemaId token ∧
                 eValues entry !! tIndex token = Some (BindValue_nullptr f)).
Proof.
  intros [Hschema (f & Hfind)]%GetToken_Returns. split; [exact Hschema|].
  apply list_find_Some in Hfind as (Hlookup & Hname & Hfirst).
  exists f. split; [exact Hlookup|]. split; [exact Hname|]. split.
  { intros j g Hj Hg. by apply (Hfirst j g). }
  split.
  - intros entry [_ ->]%CreateEntry_returns. cbn.
    by rewrite list_lookup_fmap, Hlookup, Hschema.
  - intros entry [_ ->]%CreateBareEntry_returns. cbn.
    by rewrite list_lookup_fmap, Hlookup, Hschema.
Qed.

(** The token of [y], the second field of the frozen worked model. *)
Lemma GetToken_indexes_entries_witness :
  GetToken (Freeze Example.model) "y" = Returns (mkToken 1 1) ∧
  ∀ entry, CreateEntry (Freeze Example.model) = Returns entry →
           eValues entry !! 1%nat = Some (CreateValue Example.field_y).
Proof.
  assert (GetToken (Freeze Example.model) "y" = Returns (mkToken 1 1)) as Htoken by reflexivity.
  split; [exact Htoken|]. intros entry Hentry.
  destruct (GetToken_indexes_entries _ _ _ Htoken) as (_ & f & Hf & _ & _ & Hcreate & _).
  destruct (Hcreate entry Hentry) as [_ Hvalue].
  cbn [tIndex] in Hf, Hvalue. rewrite Hvalue. f_equal.
  vm_compute in Hf. by injection Hf as <-.
Defined.

(** X11. [AddField] appends: in a model whose names are recorded, the token
    of a field just added has as index the number of top-level fields there
    were before, and every token the model gave before the addition is the
    token it gives after it, so that the indices of the values in entries
    are stable. *)
Theorem AddField_then_GetToken
    (valid : string → RResult) (m : RNTupleModel) (field : RFieldBase) (m' : RNTupleModel) :
  names_recorded m →
  AddField valid m (Some field) = (Returns tt, m') →
  GetToken m' (fName (fInfo field))
    = Returns (mkToken (length (GetSubFields (fFieldZero m))) (fSchemaId m)) ∧
  ∀ name token, GetToken m name = Returns token → GetToken m' name = Returns token.
Proof.
  intros [_ Hrecorded] Hadd.
  apply AddField_success in Hadd as (f & [= <-] & _ & _ & Hunused & Hzero & _ & _ & _ & Hschema).
  split.
  - apply GetToken_Returns. cbn [tSchemaId tIndex]. split; [by rewrite Hschema|].
    exists field. rewrite Hzero, GetSubFields_Attach.
    rewrite list_find_app_r.
    + cbn. rewrite decide_True by reflexivity. reflexivity.
    + apply list_find_None, Forall_forall. intros g Hg Hname.
      apply Hunused, Hrecorded, all_names_top_level.
      rewrite <- Hname. unfold top_level_names.
      apply (list_elem_of_fmap_2 (fun f => fName (fInfo f))), Hg.
  - intros name token [Hs (g & Hfind)]%GetToken_Returns.
    apply GetToken_Returns. split; [by rewrite Hschema|].
    exists g. rewrite Hzero, GetSubFields_Attach. by apply list_find_app_l.
Qed.

(** The field [z] becomes the fourth field of the worked model. *)
Lemma AddField_then_GetToken_witness :
  let m' := (AddField Example.EnsureValidFieldName_nonempty Example.model (Some Example.field_z)).2 in
  GetToken m' "z" = Returns (mkToken 3 1) ∧
  GetToken m' "y" = Returns (mkToken 1 1).
Proof.
  intros m'.
  assert (names_recorded Example.model) as Hrecorded.
  { apply names_recorded_AddField, names_recorded_AddField, names_recorded_AddField,
      names_recorded_Create. }
  assert (AddField Example.EnsureValidFieldName_nonempty Example.model (Some Example.field_z)
          = (Returns tt, m')) as Hadd by (vm_compute; reflexivity).
  destruct (AddField_then_GetToken _ _ _ _ Hrecorded Hadd) as [Hnew Hold].
  split; [exact Hnew|]. apply Hold. reflexivity.
Defined.

(** ** The default entry *)

Lemma default_entry_in_step_frame (m m' : RNTupleModel) :
  fFieldZero m' = fFieldZero m →
  fDefaultEntry m' = fDefaultEntry m →
  fModelId m' = fModelId m →
  fSchemaId m' = fSchemaId m →
  default_entry_in_step m → default_entry_in_step m'.
Proof. unfold default_entry_in_step. by intros -> -> -> ->. Qed.

Lemma default_entry_in_step_AddField (valid : string → RResult) (m : RNTupleModel)
    (field : option RFieldBase) :
  default_entry_in_step m → default_entry_in_step (AddField valid m field).2.
Proof.
  intros Hm.
  destruct (AddField_cases valid m field) as [-> | (f & _ & _ & _ & _ & ->)]; [done|].
  unfold default_entry_in_step in *. cbn. intros e He.
  destruct (fDefaultEntry m) as [e0|]; [|discriminate]. injection He as <-.
  rewrite (Hm e0 eq_refl), GetSubFields_Attach, fmap_app. reflexivity.
Qed.

Lemma default_entry_in_step_AddProjectedField
    (valid : string → RResult) (m : RNTupleModel) (field : option RFieldBase)
    (mapping : string → string) :
  default_entry_in_step m → default_entry_in_step (AddProjectedField valid m field mapping).2.
Proof.
  intros Hm.
  destruct (AddProjectedField valid m field mapping) as [result m'] eqn:Hrun.
  destruct (AddProjectedField_outcome valid m field mapping result m' Hrun)
    as (Hfailure & _ & Hsuccess).
  destruct (decide (result = Returns Success)) as [-> | Hfail];
    [|by rewrite (Hfailure Hfail)].
  destruct (Hsuccess eq_refl) as (f & projectedFields & fieldMap & _ & _ & _ & _ & ->).
  by apply (default_entry_in_step_frame m).
Qed.

Lemma default_entry_in_step_run_model_op
    (valid : string → RResult) (op : model_op) (m : RNTupleModel) (g : Z) :
  default_entry_in_step m → default_entry_in_step (run_model_op valid op m g).1.
Proof.
  destruct op as [field|field mapping|description| |]; cbn [run_model_op fst].
  - apply default_entry_in_step_AddField.
  - apply default_entry_in_step_AddProjectedField.
  - unfold SetDescription. destruct (EnsureNotFrozen m); [|done..].
    by apply default_entry_in_step_frame.
  - by apply default_entry_in_step_frame.
  - unfold Unfreeze, GetNewModelId. destruct (negb (IsFrozen m)); [done|]. cbv zeta.
    intros Hm. unfold default_entry_in_step in *. cbn. intros e He.
    destruct (fDefaultEntry m) as [e0|]; [|discriminate]. injection He as <-.
    by rewrite (Hm e0 eq_refl).
Qed.

Lemma default_entry_in_step_run_model_ops (valid : string → RResult) (ops : list model_op) :
  ∀ (m : RNTupleModel) (g : Z),
    default_entry_in_step m → default_entry_in_step (run_model_ops valid ops m g).1.
Proof.
  unfold run_model_ops. induction ops as [|op ops IH]; intros m g Hm; [exact Hm|].
  cbn [fold_left fst snd].
  destruct (run_model_op valid op m g) as [m1 g1] eqn:Hop.
  apply IH. change m1 with (m1, g1).1. rewrite <- Hop.
  by apply default_entry_in_step_run_model_op.
Qed.

Lemma IsBare_run_model_op (valid : string → RResult) (op : model_op) (m : RNTupleModel) (g : Z) :
  IsBare (run_model_op valid op m g).1 = IsBare m.
Proof.
  unfold IsBare. destruct op as [field|field mapping|description| |]; cbn [run_model_op fst].
  - destruct (AddField_cases valid m field) as [-> | (f & _ & _ & _ & _ & ->)]; [done|].
    cbn. by destruct (fDefaultEntry m).
  - destruct (AddProjectedField valid m field mapping) as [result m'] eqn:Hrun.
    destruct (AddProjectedField_outcome valid m field mapping result m' Hrun)
      as (Hfailure & _ & Hsuccess).
    destruct (decide (result = Returns Success)) as [-> | Hfail];
      [|by rewrite (Hfailure Hfail)].
    by destruct (Hsuccess eq_refl) as (f & projectedFields & fieldMap & _ & _ & _ & _ & ->).
  - unfold SetDescription. by destruct (EnsureNotFrozen m).
  - reflexivity.
  - unfold Unfreeze, GetNewModelId. destruct (negb (IsFrozen m)); [done|]. cbn.
    by destruct (fDefaultEntry m).
Qed.

Lemma IsBare_run_model_ops (valid : string → RResult) (ops : list model_op) :
  ∀ (m : RNTupleModel) (g : Z), IsBare (run_model_ops valid ops m g).1 = IsBare m.
Proof.
  unfold run_model_ops. induction ops as [|op ops IH]; intros m g; [reflexivity|].
  cbn [fold_left fst snd].
  destruct (run_model_op valid op m g) as [m1 g1] eqn:Hop.
  rewrite IH. change m1 with (m1, g1).1. rewrite <- Hop. apply IsBare_run_model_op.
Qed.

(** X12. The default entry keeps step with the model. In a model built by
    [Create] on an empty zero field through any sequence of [AddField],
    [AddProjectedField], [SetDescription], [Freeze] and [Unfreeze] calls
    there is a default entry, and it carries the model id and schema id of
    the model and one owned value per top-level field in field order; so
    once the model is frozen the const [GetDefaultEntry] returns what
    [CreateEntry] returns. A clone of a model with a default entry has a
    default entry in step with the clone. A model built by [CreateBare]
    stays bare: [GetDefaultEntry] throws. *)
Theorem default_entry_keeps_step (valid : string → RResult) :
  (∀ addr projZero g ops,
     let created := Create (RFieldZero_new addr) projZero g in
     let m := (run_model_ops valid ops created.1 created.2).1 in
     GetDefaultEntry m
       = Returns (mkEntry (fModelId m) (fSchemaId m) (CreateValue <$> GetSubFields (fFieldZero m))) ∧
     (IsFrozen m = true → GetDefaultEntry_const m = CreateEntry m)) ∧
  (∀ fieldZero projZero g ops,
     let created := CreateBare fieldZero projZero g in
     let m := (run_model_ops valid ops created.1 created.2).1 in
     GetDefaultEntry m = Throws "invalid attempt to use default entry of bare model") ∧
  (∀ m reloc g clone,
     (Clone m reloc g).1 = Returns clone →
     IsBare clone = IsBare m ∧
     (IsBare m = false →
      GetDefaultEntry clone
        = Returns (mkEntry (fModelId clone) (fSchemaId clone)
                           (CreateValue <$> GetSubFields (fFieldZero clone))))).
Proof.
  split; [|split].
  - intros addr projZero g ops created m.
    assert (default_entry_in_step m) as Hstep.
    { apply default_entry_in_step_run_model_ops. intros e [= <-]. reflexivity. }
    assert (IsBare m = false) as Hbare by (unfold m; by rewrite IsBare_run_model_ops).
    assert (GetDefaultEntry m
            = Returns (mkEntry (fModelId m) (fSchemaId m)
                               (CreateValue <$> GetSubFields (fFieldZero m)))) as Hdefault.
    { unfold GetDefaultEntry, EnsureNotBare, deref_fDefaultEntry. rewrite Hbare.
      unfold IsBare in Hbare. destruct (fDefaultEntry m) as [e|] eqn:He; [|discriminate].
      by rewrite (Hstep e He). }
    split; [exact Hdefault|]. intros Hfrozen.
    unfold GetDefaultEntry_const, CreateEntry. rewrite Hfrozen. cbn [negb].
    rewrite fold_AddValue. exact Hdefault.
  - intros fieldZero projZero g ops created m.
    unfold GetDefaultEntry, EnsureNotBare. unfold m. by rewrite IsBare_run_model_ops.
  - intros m reloc g clone Hclone.
    apply Clone_returns in Hclone as (pf & cloneMap & _ & _ & _ & _ & _ & _ & _ & _ & Hentry).
    unfold GetDefaultEntry, EnsureNotBare, deref_fDefaultEntry, IsBare. rewrite Hentry.
    destruct (fDefaultEntry m); cbn; [|done]. split; [reflexivity|]. by intros _.
Qed.

(** The frozen worked model. *)
Lemma default_entry_keeps_step_witness :
  GetDefaultEntry_const (Freeze Example.model) = CreateEntry (Freeze Example.model).
Proof.
  pose (ops := [OpAddField (Some Example.field_w); OpAddField (Some Example.field_y);
                OpAddField (Some Example.field_c); OpFreeze]).
  change (Freeze Example.model)
    with (run_model_ops Example.EnsureValidFieldName_nonempty ops
            (Create (RFieldZero_new 1) 10 0).1 (Create (RFieldZero_new 1) 10 0).2).1.
  apply (proj1 (default_entry_keeps_step Example.EnsureValidFieldName_nonempty) 1%positive 10%positive 0 ops).
  reflexivity.
Defined.

(** ** Cloned models *)

Lemma fInfo_Clone_field (reloc : ptr → ptr) (f : RFieldBase) (parent : option FieldRef) :
  mkRef (fInfo (Clone_field reloc f)) (relocate reloc <$> parent)
  = relocate reloc (mkRef (fInfo f) parent).
Proof. destruct f, parent; reflexivity. Qed.

Lemma find_Clone_field (reloc : ptr → ptr) (name : string) (fields : list RFieldBase) :
  List.find (fun f => bool_decide (fName (fInfo f) = name)) (Clone_field reloc <$> fields)
  = Clone_field reloc <$> List.find (fun f => bool_decide (fName (fInfo f) = name)) fields.
Proof.
  induction fields as [|f fields IH]; [reflexivity|]. cbn.
  rewrite fName_Clone_field. destruct (bool_decide (fName (fInfo f) = name)); [reflexivity|].
  exact IH.
Qed.

Lemma FindField_loop_Clone_field (reloc : ptr → ptr) (segments : list string) :
  ∀ (field : RFieldBase) (parent : option FieldRef),
    FindField_loop (Clone_field reloc field) (relocate reloc (mkRef (fInfo field) parent)) segments
    = relocate reloc <$> FindField_loop field (mkRef (fInfo field) parent) segments.
Proof.
  induction segments as [|subfieldName rest IH]; intros field parent; [reflexivity|].
  cbn [FindField_loop]. rewrite GetSubFields_Clone_field, find_Clone_field.
  destruct (List.find _ (GetSubFields field)) as [child|]; [|reflexivity]. cbn [fmap option_fmap option_map].
  rewrite <- (IH child (Some (mkRef (fInfo field) parent))).
  by destruct child.
Qed.

Lemma list_find_Clone_field (reloc : ptr → ptr) (name : string) (fields : list RFieldBase) :
  list_find (fun f => fName (fInfo f) = name) (Clone_field reloc <$> fields)
  = prod_map id (Clone_field reloc) <$> list_find (fun f => fName (fInfo f) = name) fields.
Proof.
  rewrite list_find_fmap. f_equal. apply list_find_ext. intros f. cbn.
  by rewrite fName_Clone_field.
Qed.

(** X13. A clone answers like the original. When [Clone] returns, the
    clone has the description, the frozen flag and the set of used names of
    the original; every path resolves in the clone exactly when it resolves
    in the original, to the copy of the field found there; and every name
    has in the clone the token index it has in the original, with the schema
    id of the clone. *)
Theorem Clone_answers_alike (m : RNTupleModel) (reloc : ptr → ptr) (g : Z) (clone : RNTupleModel) :
  (Clone m reloc g).1 = Returns clone →
  fDescription clone = fDescription m ∧
  IsFrozen clone = IsFrozen m ∧
  fFieldNames clone = fFieldNames m ∧
  (∀ path, FindField clone path = relocate reloc <$> FindField m path) ∧
  (∀ name token, GetToken m name = Returns token →
                 GetToken clone name = Returns (mkToken (tIndex token) (fSchemaId clone))) ∧
  (∀ name what, GetToken m name = Throws what → GetToken clone name = Throws what).
Proof.
  intros Hclone.
  apply Clone_returns in Hclone
    as (pf & cloneMap & _ & Hzero & _ & Hnames & Hdescription & Hfrozen & _).
  split; [exact Hdescription|]. split; [exact Hfrozen|]. split; [exact Hnames|]. split; [|split].
  - intros path. unfold FindField. rewrite Hzero. case_bool_decide; [reflexivity|].
    unfold get. rewrite <- FindField_loop_Clone_field. f_equal.
    by destruct (fFieldZero m).
  - intros name token [_ (f & Hfind)]%GetToken_Returns.
    apply GetToken_Returns. split; [reflexivity|]. cbn [tIndex].
    exists (Clone_field reloc f).
    by rewrite Hzero, GetSubFields_Clone_field, list_find_Clone_field, Hfind.
  - intros name what. unfold GetToken. cbv zeta.
    rewrite Hzero, GetSubFields_Clone_field, list_find_Clone_field.
    by destruct (list_find _ (GetSubFields (fFieldZero m))) as [[i f]|].
Qed.

(** A clone of the worked model, its objects a hundred addresses further. *)
Lemma Clone_answers_alike_witness :
  ∃ clone, (Clone Example.model (Pos.add 100) 1).1 = Returns clone ∧
           FindField clone "c._0" = Some (relocate (Pos.add 100) Example.ref_c0).
Proof.
  destruct (Clone Example.model (Pos.add 100) 1).1 as [clone| |] eqn:Hclone;
    [|vm_compute in Hclone; discriminate..].
  exists clone. split; [reflexivity|].
  destruct (Clone_answers_alike _ _ _ _ Hclone) as (_ & _ & _ & Hfind & _).
  rewrite Hfind. reflexivity.
Defined.

(** ** Sources of projected fields *)

(** The field map the resolving loop assembles: every field it visits is
    sent to the field its mapped path resolves to, and the other keys are
    left as they were. *)
Lemma AddProjectedField_loop_lookup (m : RNTupleModel) (mapping : string → string)
    (subFields : list FieldRef) :
  ∀ (fieldMap fieldMap' : FieldMap_t),
    NoDup (addr_of <$> subFields) →
    AddProjectedField_loop m mapping subFields fieldMap = Some fieldMap' →
    (∀ t, t ∈ subFields →
          fieldMap' !! addr_of t = FindField m (mapping (GetQualifiedFieldName t)) ∧
          is_Some (fieldMap' !! addr_of t)) ∧
    (∀ a, a ∉ addr_of <$> subFields → fieldMap' !! a = fieldMap !! a).
Proof.
  induction subFields as [|f rest IH]; intros fieldMap fieldMap' Hnodup; cbn.
  - intros [= <-]. split; [intros t Ht; by apply elem_of_nil in Ht | done].
  - apply NoDup_cons in Hnodup as [Hfresh Hnodup].
    destruct (FindField m (mapping (GetQualifiedFieldName f))) as [sourceField|] eqn:Hsource;
      [|discriminate].
    intros Hloop. destruct (IH _ _ Hnodup Hloop) as [Hvisited Hothers]. split.
    + intros t [-> | Ht]%elem_of_cons; [|by apply Hvisited].
      rewrite (Hothers _ Hfresh), lookup_insert_eq, Hsource. by split; [|eexists].
    + intros a [Hne Hnot]%not_elem_of_cons.
      rewrite (Hothers _ Hnot). by apply lookup_insert_ne.
Qed.

(** X14. After [AddProjectedField] has accepted a field whose objects are
    new (pairwise distinct, and none of them a key of the table yet),
    [GetSourceField] gives for the field and for each of its descendants
    the field of the model that the mapped path of the descendant resolves
    to, and every target the table had keeps its source. *)
Theorem AddProjectedField_then_GetSourceField
    (valid : string → RResult) (m : RNTupleModel) (field : RFieldBase)
    (mapping : string → string) (m' : RNTupleModel) :
  AddProjectedField valid m (Some field) mapping = (Returns Success, m') →
  NoDup (addr_of <$> get field :: schema_iter (get field) field) →
  ∃ projectedFields projectedFields',
    fProjectedFields m = Some projectedFields ∧
    fProjectedFields m' = Some projectedFields' ∧
    GetSubFields (pfFieldZero projectedFields') = GetSubFields (pfFieldZero projectedFields) ++ [field] ∧
    (∀ target source, GetSourceField projectedFields target = Some source →
                      GetSourceField projectedFields' target = Some source) ∧
    (∀ t, t ∈ get field :: schema_iter (get field) field →
          GetSourceField projectedFields (addr_of t) = None →
          GetSourceField projectedFields' (addr_of t)
            = FindField m (mapping (GetQualifiedFieldName t)) ∧
          is_Some (GetSourceField projectedFields' (addr_of t))).
Proof.
  intros Hrun Hnodup.
  destruct (AddProjectedField_outcome valid m (Some field) mapping _ _ Hrun) as (_ & _ & Hsuccess).
  destruct (Hsuccess eq_refl)
    as (f & projectedFields & fieldMap & [= <-] & Hpf & Hresolved & _ & ->).
  exists projectedFields, (mkProjectedFields (Attach (pfFieldZero projectedFields) field)
                                             (pfFieldMap projectedFields ∪ fieldMap)).
  split; [exact Hpf|]. split; [reflexivity|]. split; [apply GetSubFields_Attach|].
  unfold GetSourceField. cbn [pfFieldMap]. split.
  - intros target source Hold. by apply lookup_union_Some_l.
  - intros t Ht Hnew. rewrite lookup_union_r by exact Hnew.
    unfold resolve_sources in Hresolved.
    destruct (FindField m (mapping (fName (fInfo field)))) as [sourceField|] eqn:Hroot;
      [|discriminate].
    cbn [fmap list_fmap] in Hnodup. apply NoDup_cons in Hnodup as [Hfresh Hnodup].
    destruct (AddProjectedField_loop_lookup _ _ _ _ _ Hnodup Hresolved) as [Hvisited Hothers].
    apply elem_of_cons in Ht as [-> | Ht]; [|by apply Hvisited].
    rewrite (Hothers _ Hfresh), lookup_insert_eq.
    change (GetQualifiedFieldName (get field)) with (fName (fInfo field)).
    rewrite Hroot. by split; [|eexists].
Qed.

(** The collection [q] projected from [c]: [q] has [c] as its source and
    [q._0] has [c._0]. *)
Lemma AddProjectedField_then_GetSourceField_witness :
  ∃ m' projectedFields',
    AddProjectedField Example.EnsureValidFieldName_nonempty Example.model (Some field_q) mapping_q
      = (Returns Success, m') ∧
    fProjectedFields m' = Some projectedFields' ∧
    GetSourceField projectedFields' 80 = Some Example.ref_c ∧
    GetSourceField projectedFields' 81 = Some Example.ref_c0.
Proof.
  destruct (AddProjectedField Example.EnsureValidFieldName_nonempty Example.model (Some field_q) mapping_q)
    as [result m'] eqn:Hrun.
  assert (result = Returns Success) as -> by (apply (f_equal fst) in Hrun; vm_compute in Hrun; congruence).
  assert (NoDup (addr_of <$> get field_q :: schema_iter (get field_q) field_q)) as Hnodup
    by (apply (bool_decide_unpack _); vm_compute; exact I).
  destruct (AddProjectedField_then_GetSourceField _ _ _ _ _ Hrun Hnodup)
    as (projectedFields & projectedFields' & Hpf & Hpf' & _ & _ & Hnew).
  exists m', projectedFields'. split; [reflexivity|]. split; [exact Hpf'|].
  assert (Some projectedFields = Some (mkProjectedFields (RFieldZero_new 10) ∅)) as [= ->]
    by (rewrite <- Hpf; reflexivity).
  split.
  - destruct (Hnew (get field_q)) as [Hsource _]; [by left | reflexivity | exact Hsource].
  - destruct (Hnew (mkRef (mkInfo 81 "_0" "float" kLeaf 0 false) (Some (get field_q))))
      as [Hsource _]; [right; by left | reflexivity | exact Hsource].
Defined.

(** ** What an updater window hands to the sink *)

(** [AddField] throws and leaves the model, or succeeds. *)
Lemma AddField_outcomes (valid : string → RResult) (m : RNTupleModel) (field : option RFieldBase) :
  (∃ what, AddField valid m field = (Throws what, m)) ∨
  (∃ f m', field = Some f ∧ AddField valid m field = (Returns tt, m') ∧
           fFieldZero m' = Attach (fFieldZero m) f ∧
           fProjectedFields m' = fProjectedFields m).
Proof.
  unfold AddField, EnsureNotFrozen, EnsureValidFieldName.
  destruct (IsFrozen m); [left; by eexists|].
  destruct field as [f|]; [|left; by eexists].
  destruct (valid (fName (fInfo f))); [|left; by eexists].
  case_bool_decide; [left; by eexists|].
  right. by eexists f, _.
Qed.

Lemma run_staged_op_growth (valid : string → RResult) (op : staged_op) (u : RUpdater) :
  let u' := run_staged_op valid op u in
  ∃ added addedProjected,
    GetSubFields (fFieldZero (fOpenChangeset_fModel u'))
      = GetSubFields (fFieldZero (fOpenChangeset_fModel u)) ++ added ∧
    projected_subfields (fOpenChangeset_fModel u')
      = projected_subfields (fOpenChangeset_fModel u) ++ addedProjected ∧
    fAddedFields u' = fAddedFields u ++ addresses added ∧
    fAddedProjectedFields u' = fAddedProjectedFields u ++ addresses addedProjected.
Proof.
  unfold fOpenChangeset_fModel, projected_subfields.
  destruct op as [field|field mapping]; cbn [run_staged_op].
  - unfold RUpdater_AddField.
    destruct (AddField_outcomes valid (wModel (fWriter u)) field)
      as [[what ->] | (f & m' & -> & -> & Hzero & Hpf)]; cbn.
    + exists [], []. by rewrite !app_nil_r.
    + exists [f], []. by rewrite Hzero, Hpf, GetSubFields_Attach, !app_nil_r.
  - unfold RUpdater_AddProjectedField.
    destruct (AddProjectedField valid (wModel (fWriter u)) field mapping) as [result m'] eqn:Hrun.
    destruct (AddProjectedField_outcome valid _ field mapping result m' Hrun)
      as (Hfailure & _ & Hsuccess).
    destruct (decide (result = Returns Success)) as [-> | Hfail].
    + destruct (Hsuccess eq_refl) as (f & projectedFields & fieldMap & -> & Hpf & _ & _ & ->).
      cbn. rewrite Hpf. exists [], [f]. by rewrite GetSubFields_Attach, !app_nil_r.
    + rewrite (Hfailure Hfail). exists [], [].
      destruct result as [[|what]|what|]; [done|..]; cbn; by rewrite !app_nil_r.
Qed.

Lemma run_staged_ops_growth (valid : string → RResult) (ops : list staged_op) :
  ∀ u : RUpdater,
    let u' := run_staged_ops valid ops u in
    ∃ added addedProjected,
      GetSubFields (fFieldZero (fOpenChangeset_fModel u'))
        = GetSubFields (fFieldZero (fOpenChangeset_fModel u)) ++ added ∧
      projected_subfields (fOpenChangeset_fModel u')
        = projected_subfields (fOpenChangeset_fModel u) ++ addedProjected ∧
      fAddedFields u' = fAddedFields u ++ addresses added ∧
      fAddedProjectedFields u' = fAddedProjectedFields u ++ addresses addedProjected.
Proof.
  unfold run_staged_ops. induction ops as [|op ops IH]; intros u; cbn [fold_left].
  - exists [], []. by rewrite !app_nil_r.
  - destruct (run_staged_op_growth valid op u) as (a1 & p1 & Hzero1 & Hpf1 & Hadded1 & Hproj1).
    destruct (IH (run_staged_op valid op u)) as (a2 & p2 & Hzero2 & Hpf2 & Hadded2 & Hproj2).
    exists (a1 ++ a2), (p1 ++ p2). unfold addresses in *.
    rewrite Hzero2, Hpf2, Hadded2, Hproj2, Hzero1, Hpf1, Hadded1, Hproj1.
    by rewrite !fmap_app, !app_assoc.
Qed.

Lemma BeginUpdate_frame (u : RUpdater) (g : Z) :
  let begun := (BeginUpdate u g).1 in
  fFieldZero (fOpenChangeset_fModel begun) = fFieldZero (fOpenChangeset_fModel u) ∧
  fProjectedFields (fOpenChangeset_fModel begun) = fProjectedFields (fOpenChangeset_fModel u) ∧
  fModelId (fOpenChangeset_fModel begun) = fNewModelId u ∧
  fAddedFields begun = fAddedFields u ∧
  fAddedProjectedFields begun = fAddedProjectedFields u ∧
  wSinkUpdateSchema (fWriter begun) = wSinkUpdateSchema (fWriter u) ∧
  wNEntries (fWriter begun) = wNEntries (fWriter u).
Proof.
  unfold BeginUpdate, Unfreeze, GetNewModelId, fOpenChangeset_fModel.
  destruct (negb (IsFrozen (wModel (fWriter u)))); done.
Qed.

(** X15. One updater window, from an updater between two windows:
    [BeginUpdate], any staged [AddField] and [AddProjectedField] calls,
    failed ones included, then [CommitUpdate]. The model of the writer has
    grown by some top-level fields and some projected fields, appended in
    the order staged; the sink has received no [UpdateSchema] call if there
    are none, and otherwise exactly one more, whose changeset lists the
    addresses of precisely these fields, with the entry count of the writer;
    and the updater is between two windows again. *)
Theorem window_changeset_lists_added_fields
    (valid : string → RResult) (ops : list staged_op) (u : RUpdater) (g : Z) :
  between_windows u →
  let committed := (run_window valid ops u g).1 in
  between_windows committed ∧
  wNEntries (fWriter committed) = wNEntries (fWriter u) ∧
  ∃ added addedProjected,
    GetSubFields (fFieldZero (fOpenChangeset_fModel committed))
      = GetSubFields (fFieldZero (fOpenChangeset_fModel u)) ++ added ∧
    projected_subfields (fOpenChangeset_fModel committed)
      = projected_subfields (fOpenChangeset_fModel u) ++ addedProjected ∧
    wSinkUpdateSchema (fWriter committed)
      = wSinkUpdateSchema (fWriter u) ++
        match added, addedProjected with
        | [], [] => []
        | _, _ => [(mkChangeset (addresses added) (addresses addedProjected), wNEntries (fWriter u))]
        end.
Proof.
  intros (Hnew & Hempty & Hfrozen). unfold run_window.
  pose proof (BeginUpdate_frame u g) as Hbegin.
  destruct (BeginUpdate u g) as [begun g']. cbn [fst] in *.
  destruct Hbegin as (Hzero0 & Hpf0 & Hid0 & Hadded0 & Hproj0 & Hsink0 & Hn0).
  destruct (run_staged_ops_growth valid ops begun) as (added & addedProjected & Hzero & Hpf & Hadded & Hproj).
  destruct (run_staged_ops_frame valid ops begun) as ((_ & Hid & _) & _ & Hsink & Hn).
  set (staged := run_staged_ops valid ops begun) in *.
  assert (fAddedFields u = [] ∧ fAddedProjectedFields u = []) as [Hnone Hnone'].
  { unfold IsEmpty in Hempty. by destruct (fAddedFields u), (fAddedProjectedFields u). }
  rewrite Hadded0, Hnone in Hadded. rewrite Hproj0, Hnone' in Hproj. cbn [app] in Hadded, Hproj.
  rewrite Hzero0 in Hzero. unfold projected_subfields in Hpf at 2. rewrite Hpf0 in Hpf.
  fold (projected_subfields (fOpenChangeset_fModel u)) in Hpf.
  unfold between_windows, CommitUpdate, IsEmpty, fOpenChangeset_fModel, projected_subfields in *.
  cbv zeta. rewrite Hadded, Hproj.
  destruct added as [|a added], addedProjected as [|p addedProjected]; cbn;
    (split; [split; [congruence | done] |]);
    (split; [congruence|]).
  - exists [], []. rewrite Hzero, Hpf, Hsink, Hsink0, !app_nil_r. done.
  - exists [], (p :: addedProjected). rewrite Hzero, Hpf, Hsink, Hsink0, Hn, Hn0. done.
  - exists (a :: added), []. rewrite Hzero, Hpf, Hsink, Hsink0, Hn, Hn0. done.
  - exists (a :: added), (p :: addedProjected). rewrite Hzero, Hpf, Hsink, Hsink0, Hn, Hn0. done.
Qed.

(** A window over the frozen worked model that stages the field [z], then
    [z] once more, then the projected collection [q]: the second [z] is
    refused, and the sink is told of [z] and of [q], at entry 5. *)
Lemma window_changeset_lists_added_fields_witness :
  let ops := [StageField (Some Example.field_z); StageField (Some Example.field_z);
              StageProjectedField (Some field_q) mapping_q] in
  let committed := (run_window Example.EnsureValidFieldName_nonempty ops Example.updater 1).1 in
  between_windows committed ∧
  wSinkUpdateSchema (fWriter committed) = [(mkChangeset [40%positive] [80%positive], 5)].
Proof.
  intros ops committed.
  assert (between_windows Example.updater) as Hbetween by done.
  destruct (window_changeset_lists_added_fields Example.EnsureValidFieldName_nonempty ops
              Example.updater 1 Hbetween) as (Hagain & _ & _).
  split; [exact Hagain | reflexivity].
Defined.

(** ** The estimate of the memory used for writing *)

Section EstimateProperties.

Context {EColumnType : Type}.
Variable GetColumnRepresentatives : FieldRef → list (list EColumnType).
Variable GetSize : EColumnType → Z.

Lemma total_size_app (columns columns' : list EColumnType) :
  total_size _ GetSize (columns ++ columns')
  = total_size _ GetSize columns + total_size _ GetSize columns'.
Proof.
  unfold total_size. induction columns as [|c columns IH]; cbn; [reflexivity|]. rewrite IH. lia.
Qed.

Lemma total_size_nonneg (columns : list EColumnType) :
  (∀ columnType, 0 ≤ GetSize columnType) → 0 ≤ total_size _ GetSize columns.
Proof.
  intros Hsize. unfold total_size. induction columns as [|c columns IH]; cbn; [lia|].
  specialize (Hsize c). lia.
Qed.

Lemma EstimateWriteMemoryUsage_representative_mod (options : RNTupleWriteOptions)
    (r : list EColumnType) (n s : Z) :
  EstimateWriteMemoryUsage_representative _ GetSize options
    (n mod size_t_modulus, s mod size_t_modulus) r
  = ((n + Z.of_nat (length r)) mod size_t_modulus,
     (s + GetInitialNElementsPerPage options * total_size _ GetSize r) mod size_t_modulus).
Proof.
  unfold EstimateWriteMemoryUsage_representative, size_t_add, size_t_mul. cbn [fst snd]. f_equal.
  - by rewrite Zplus_mod_idemp_l.
  - revert s. induction r as [|c r IH]; intros s; cbn [fold_left]; cbv beta.
    + f_equal. unfold total_size. cbn. lia.
    + rewrite Zplus_mod_idemp_l, Zplus_mod_idemp_r, IH. f_equal.
      unfold total_size. cbn. lia.
Qed.

Lemma EstimateWriteMemoryUsage_field_mod (options : RNTupleWriteOptions)
    (representatives : list (list EColumnType)) :
  ∀ n s : Z,
    fold_left (EstimateWriteMemoryUsage_representative _ GetSize options) representatives
              (n mod size_t_modulus, s mod size_t_modulus)
    = ((n + Z.of_nat (length (concat representatives))) mod size_t_modulus,
       (s + GetInitialNElementsPerPage options * total_size _ GetSize (concat representatives))
         mod size_t_modulus).
Proof.
  induction representatives as [|r representatives IH]; intros n s; cbn [fold_left concat].
  - f_equal; f_equal; unfold total_size; cbn; lia.
  - rewrite EstimateWriteMemoryUsage_representative_mod, IH, length_app, total_size_app.
    f_equal; f_equal; lia.
Qed.

Lemma EstimateWriteMemoryUsage_fields_mod (options : RNTupleWriteOptions) (fields : list FieldRef) :
  ∀ n s : Z,
    fold_left (EstimateWriteMemoryUsage_field _ GetColumnRepresentatives GetSize options) fields
              (n mod size_t_modulus, s mod size_t_modulus)
    = ((n + Z.of_nat (length (concat (flat_map GetColumnRepresentatives fields))))
         mod size_t_modulus,
       (s + GetInitialNElementsPerPage options *
            total_size _ GetSize (concat (flat_map GetColumnRepresentatives fields)))
         mod size_t_modulus).
Proof.
  induction fields as [|field fields IH]; intros n s; cbn [fold_left flat_map].
  - f_equal; f_equal; unfold total_size; cbn; lia.
  - unfold EstimateWriteMemoryUsage_field at 2.
    rewrite EstimateWriteMemoryUsage_field_mod, IH, concat_app, length_app, total_size_app.
    f_equal; f_equal; lia.
Qed.

(** The estimate with every wrap-around gathered into at most two
    reductions. *)
Lemma EstimateWriteMemoryUsage_mod (m : RNTupleModel) (options : RNTupleWriteOptions) :
  EstimateWriteMemoryUsage _ GetColumnRepresentatives GetSize m options =
  let columns := column_types _ GetColumnRepresentatives m in
  let bytes := Z.min (GetPageBufferBudget options)
                     ((Z.of_nat (length columns) * GetMaxUnzippedPageSize options)
                        mod size_t_modulus) in
  if GetUseBufferedWrite options then
    (bytes + GetInitialNElementsPerPage options * total_size _ GetSize columns +
     GetApproxZippedClusterSize options +
     (if negb (GetCompression options =? 0) && bool_decide (GetUseImplicitMT options = kDefault)
      then 2 * GetApproxZippedClusterSize options else 0)) mod size_t_modulus
  else bytes.
Proof.
  unfold EstimateWriteMemoryUsage, column_types.
  change (0, 0) with (0 mod size_t_modulus, 0 mod size_t_modulus).
  rewrite EstimateWriteMemoryUsage_fields_mod. cbv zeta. rewrite !Z.add_0_l.
  unfold size_t_add, size_t_mul. rewrite Zmult_mod_idemp_l.
  destruct (GetUseBufferedWrite options); [|reflexivity].
  set (bytes := Z.min _ _).
  set (sum := GetInitialNElementsPerPage options * _).
  set (cluster := GetApproxZippedClusterSize options).
  rewrite (Zplus_mod_idemp_r sum bytes), (Zplus_mod_idemp_l (bytes + sum) cluster).
  destruct (negb (GetCompression options =? 0) && bool_decide (GetUseImplicitMT options = kDefault)).
  - by rewrite (Zplus_mod_idemp_r (2 * cluster)), (Zplus_mod_idemp_l (bytes + sum + cluster)).
  - by rewrite Z.add_0_r.
Qed.

Lemma EstimateWriteMemoryUsage_in_range (m : RNTupleModel) (options : RNTupleWriteOptions) :
  in_size_t_range _ GetColumnRepresentatives GetSize m options →
  EstimateWriteMemoryUsage _ GetColumnRepresentatives GetSize m options
  = EstimateWriteMemoryUsage_unbounded _ GetColumnRepresentatives GetSize m options.
Proof.
  intros (Hinitial & Hbudget & Hpage & Hcluster & Hsize & Hcolumns & Htotal).
  rewrite EstimateWriteMemoryUsage_mod. unfold EstimateWriteMemoryUsage_unbounded in *. cbv zeta.
  pose proof (total_size_nonneg (column_types _ GetColumnRepresentatives m) Hsize) as Hsum.
  set (n := Z.of_nat (length (column_types _ GetColumnRepresentatives m))) in *.
  set (sum := total_size _ GetSize (column_types _ GetColumnRepresentatives m)) in *.
  assert (0 ≤ n) as Hn by (unfold n; lia).
  assert (0 ≤ n * GetMaxUnzippedPageSize options) as Hprod by (apply Z.mul_nonneg_nonneg; lia).
  assert (0 ≤ GetInitialNElementsPerPage options * sum) as Hprod' by (apply Z.mul_nonneg_nonneg; lia).
  rewrite (Z.mod_small (n * _)) by lia.
  destruct (GetUseBufferedWrite options); [|lia].
  destruct (negb (GetCompression options =? 0) && bool_decide (GetUseImplicitMT options = kDefault));
    rewrite Z.mod_small; lia.
Qed.

End EstimateProperties.

(** X16. When no sum and no product of [EstimateWriteMemoryUsage] wraps,
    the loops have counted the columns of all fields below the zero field
    and summed their element sizes: the estimate is the smaller of the page
    buffer budget and the number of columns times the maximal unzipped page
    size; with buffered writing, plus the initial number of elements per
    page times the sum of the element sizes, plus the approximate zipped
    cluster size, once, or three times when compression is on and implicit
    multi-threading is the default. *)
Theorem EstimateWriteMemoryUsage_sums
    {EColumnType : Type} (GetColumnRepresentatives : FieldRef → list (list EColumnType))
    (GetSize : EColumnType → Z) (m : RNTupleModel) (options : RNTupleWriteOptions) :
  in_size_t_range _ GetColumnRepresentatives GetSize m options →
  let columns := column_types _ GetColumnRepresentatives m in
  EstimateWriteMemoryUsage _ GetColumnRepresentatives GetSize m options =
  Z.min (GetPageBufferBudget options)
        (Z.of_nat (length columns) * GetMaxUnzippedPageSize options) +
  (if GetUseBufferedWrite options then
     GetInitialNElementsPerPage options * total_size _ GetSize columns +
     (if negb (GetCompression options =? 0) && bool_decide (GetUseImplicitMT options = kDefault)
      then 3 else 1) * GetApproxZippedClusterSize options
   else 0).
Proof.
  intros Hrange columns.
  rewrite (EstimateWriteMemoryUsage_in_range _ _ _ _ Hrange).
  unfold EstimateWriteMemoryUsage_unbounded. fold columns.
  destruct (GetUseBufferedWrite options); [|reflexivity].
  destruct (negb (GetCompression options =? 0) && bool_decide (GetUseImplicitMT options = kDefault)); lia.
Qed.

(** The worked model has four columns, with twenty bytes of elements. *)
Lemma EstimateWriteMemoryUsage_sums_witness :
  EstimateWriteMemoryUsage N example_GetColumnRepresentatives Z.of_N Example.model example_options
  = 262144 + 64 * 20 + 3 * 50000000.
Proof.
  assert (in_size_t_range N example_GetColumnRepresentatives Z.of_N Example.model example_options)
    as Hrange.
  { split; [done|]. split; [done|]. split; [done|]. split; [done|].
    split; [intros columnType; apply N2Z.is_nonneg|]. split; reflexivity. }
  rewrite (EstimateWriteMemoryUsage_sums example_GetColumnRepresentatives Z.of_N _ _ Hrange).
  reflexivity.
Defined.

Lemma schema_iter_Attach (zero field : RFieldBase) :
  schema_iter (get (Attach zero field)) (Attach zero field)
  = schema_iter (get zero) zero ++ subtree_refs (Some (get zero)) field.
Proof.
  unfold schema_iter, get. rewrite GetSubFields_Attach, fInfo_Attach, flat_map_app. cbn.
  by rewrite app_nil_r.
Qed.

Lemma column_types_AddField {EColumnType : Type}
    (GetColumnRepresentatives : FieldRef → list (list EColumnType))
    (valid : string → RResult) (m : RNTupleModel) (field : option RFieldBase) :
  ∃ columns,
    column_types _ GetColumnRepresentatives (AddField valid m field).2
    = column_types _ GetColumnRepresentatives m ++ columns.
Proof.
  destruct (AddField_cases valid m field) as [-> | (f & _ & _ & _ & _ & ->)].
  - exists []. by rewrite app_nil_r.
  - unfold column_types. cbn [snd fFieldZero].
    rewrite schema_iter_Attach, flat_map_app, concat_app. by eexists.
Qed.

(** X17. The estimate does not go down when a field is added and the page
    buffer budget is raised: as long as nothing wraps for the larger model
    with the larger budget, [EstimateWriteMemoryUsage] of the model after
    an [AddField] call, successful or not, with a budget that is not
    smaller, is at least the estimate before. *)
Theorem EstimateWriteMemoryUsage_monotone
    {EColumnType : Type} (GetColumnRepresentatives : FieldRef → list (list EColumnType))
    (GetSize : EColumnType → Z) (valid : string → RResult)
    (m : RNTupleModel) (field : option RFieldBase) (options : RNTupleWriteOptions) (budget : Z) :
  let m' := (AddField valid m field).2 in
  let options' :=
    {| GetInitialNElementsPerPage := GetInitialNElementsPerPage options;
       GetPageBufferBudget := budget;
       GetMaxUnzippedPageSize := GetMaxUnzippedPageSize options;
       GetUseBufferedWrite := GetUseBufferedWrite options;
       GetApproxZippedClusterSize := GetApproxZippedClusterSize options;
       GetCompression := GetCompression options;
       GetUseImplicitMT := GetUseImplicitMT options |} in
  0 ≤ GetPageBufferBudget options ≤ budget →
  in_size_t_range _ GetColumnRepresentatives GetSize m' options' →
  EstimateWriteMemoryUsage _ GetColumnRepresentatives GetSize m options
  ≤ EstimateWriteMemoryUsage _ GetColumnRepresentatives GetSize m' options'.
Proof.
  intros m' options' Hbudget Hrange'.
  destruct (column_types_AddField GetColumnRepresentatives valid m field) as [extra Hcolumns].
  fold m' in Hcolumns.
  pose proof Hrange' as (Hinitial & _ & Hpage & Hcluster & Hsize & Hcolumns' & Htotal').
  cbn [GetInitialNElementsPerPage GetMaxUnzippedPageSize GetApproxZippedClusterSize options']
    in Hinitial, Hpage, Hcluster, Hcolumns'.
  pose proof (total_size_nonneg GetSize (column_types _ GetColumnRepresentatives m) Hsize) as Hsum.
  pose proof (total_size_nonneg GetSize extra Hsize) as Hextra.
  assert (EstimateWriteMemoryUsage_unbounded _ GetColumnRepresentatives GetSize m options
          ≤ EstimateWriteMemoryUsage_unbounded _ GetColumnRepresentatives GetSize m' options')
    as Hle.
  { unfold EstimateWriteMemoryUsage_unbounded. cbn [options' GetInitialNElementsPerPage
      GetPageBufferBudget GetMaxUnzippedPageSize GetUseBufferedWrite GetApproxZippedClusterSize
      GetCompression GetUseImplicitMT].
    rewrite Hcolumns, length_app, total_size_app, Nat2Z.inj_add.
    set (n := Z.of_nat (length (column_types _ GetColumnRepresentatives m))).
    assert (0 ≤ n) by (unfold n; lia).
    assert (n * GetMaxUnzippedPageSize options
            ≤ (n + Z.of_nat (length extra)) * GetMaxUnzippedPageSize options) by nia.
    assert (GetInitialNElementsPerPage options * total_size _ GetSize (column_types _ GetColumnRepresentatives m)
            ≤ GetInitialNElementsPerPage options *
              (total_size _ GetSize (column_types _ GetColumnRepresentatives m) + total_size _ GetSize extra))
      by nia.
    destruct (GetUseBufferedWrite options); lia. }
  assert (in_size_t_range _ GetColumnRepresentatives GetSize m options) as Hrange.
  { unfold in_size_t_range. split; [exact Hinitial|]. split; [lia|]. split; [exact Hpage|].
    split; [exact Hcluster|]. split; [exact Hsize|]. split; [|lia].
    rewrite Hcolumns, length_app, Nat2Z.inj_add in Hcolumns'.
    assert (0 ≤ Z.of_nat (length extra) * GetMaxUnzippedPageSize options)
      by (apply Z.mul_nonneg_nonneg; lia).
    lia. }
  rewrite (EstimateWriteMemoryUsage_in_range _ _ _ _ Hrange).
  rewrite (EstimateWriteMemoryUsage_in_range _ _ _ _ Hrange').
  exact Hle.
Qed.

(** The leaf [z] added to the worked model, the budget doubled. *)
Lemma EstimateWriteMemoryUsage_monotone_witness :
  EstimateWriteMemoryUsage N example_GetColumnRepresentatives Z.of_N Example.model example_options
  ≤ EstimateWriteMemoryUsage N example_GetColumnRepresentatives Z.of_N
      (AddField Example.EnsureValidFieldName_nonempty Example.model (Some Example.field_z)).2
      {| GetInitialNElementsPerPage := 64;
         GetPageBufferBudget := 2000000;
         GetMaxUnzippedPageSize := 65536;
         GetUseBufferedWrite := true;
         GetApproxZippedClusterSize := 50000000;
         GetCompression := 505;
         GetUseImplicitMT := kDefault |}.
Proof.
  apply (EstimateWriteMemoryUsage_monotone example_GetColumnRepresentatives Z.of_N
           Example.EnsureValidFieldName_nonempty Example.model (Some Example.field_z)
           example_options 2000000).
  - split; [done | vm_compute; discriminate].
  - split; [done|]. split; [done|]. split; [done|]. split; [done|].
    split; [intros columnType; apply N2Z.is_nonneg|]. split; reflexivity.
Defined.

(** ** Finding a field by its qualified name *)

Lemma Split_dot (name rest : string) :
  no_dot name = true → Split (name +:+ "." +:+ rest) = name :: Split rest.
Proof.
  induction name as [|c name IH]; intros Hdot.
  - change ("" +:+ "." +:+ rest) with (String "."%char rest). cbn [Split].
    by rewrite bool_decide_eq_true_2.
  - cbn [no_dot] in Hdot. apply andb_true_iff in Hdot as [Hc Hname].
    apply negb_true_iff in Hc.
    change (String c name +:+ "." +:+ rest) with (String c (name +:+ "." +:+ rest)).
    cbn [Split]. by rewrite Hc, (IH Hname).
Qed.

Lemma Split_dotted (names : list string) (name : string) :
  Forall (fun s => no_dot s = true) names →
  no_dot name = true →
  Split (dotted names +:+ name) = names ++ [name].
Proof.
  intros Hnames Hname. induction Hnames as [|s names Hs _ IH]; cbn [dotted foldr app].
  - by apply Split_no_dot.
  - fold (dotted names). rewrite !CompatProperties.append_assoc, (Split_dot _ _ Hs), IH. done.
Qed.

Lemma dotted_snoc (names : list string) (name path : string) :
  dotted (names ++ [name]) +:+ path = dotted names +:+ name +:+ "." +:+ path.
Proof.
  induction names as [|s names IH]; cbn [dotted foldr app].
  - by rewrite !CompatProperties.append_assoc.
  - fold (dotted names) (dotted (names ++ [name])).
    by rewrite !CompatProperties.append_assoc, IH.
Qed.

Lemma GetQualifiedFieldName_loop_dotted (parent : FieldRef) :
  below_zero_field parent →
  ∀ result, GetQualifiedFieldName_loop result parent = dotted (names_from_root parent) +:+ result.
Proof.
  induction parent as [info|info parent IH] using FieldRef_chain_ind; cbn [below_zero_field].
  - intros Hzero result. cbn. unfold GetFieldName. cbn. by rewrite bool_decide_eq_true_2.
  - intros [Hname Hparent] result. cbn [GetQualifiedFieldName_loop GetParent names_from_root].
    unfold GetFieldName. cbn [rInfo]. rewrite bool_decide_eq_false_2 by exact Hname.
    by rewrite (IH Hparent), dotted_snoc.
Qed.

Lemma find_NoDup_names (fields : list RFieldBase) (f : RFieldBase) :
  NoDup ((fun f => fName (fInfo f)) <$> fields) →
  f ∈ fields →
  List.find (fun g => bool_decide (fName (fInfo g) = fName (fInfo f))) fields = Some f.
Proof.
  induction fields as [|g fields IH]; intros Hnodup Hin; [by apply elem_of_nil in Hin|].
  cbn [fmap list_fmap] in Hnodup. apply NoDup_cons in Hnodup as [Hfresh Hnodup].
  cbn [List.find]. apply elem_of_cons in Hin as [<- | Hin].
  - by rewrite bool_decide_eq_true_2.
  - rewrite bool_decide_eq_false_2; [by apply IH|].
    intros Heq. apply Hfresh. rewrite Heq.
    by apply (list_elem_of_fmap_2 (fun f => fName (fInfo f))).
Qed.

(** In a well-named tree the loop of [FindField] reaches every field of
    the tree along the names that lead to it. *)
Lemma FindField_loop_complete (field : RFieldBase) :
  ∀ (parent : option FieldRef) (f : FieldRef),
    well_named field →
    below_zero_field (mkRef (fInfo field) parent) →
    f ∈ subtree_refs parent field →
    ∃ segments,
      names_from_root f = names_from_root (mkRef (fInfo field) parent) ++ segments ∧
      Forall (fun s => no_dot s = true) segments ∧
      below_zero_field f ∧
      FindField_loop field (mkRef (fInfo field) parent) segments = Some f.
Proof.
  induction field as [info subFields IH] using RFieldBase_tree_ind.
  intros parent f Hnamed Hchain Hin. cbn [fInfo] in *.
  inversion Hnamed as [info' subFields' Hnodup Hchildren]; subst info' subFields'.
  cbn [subtree_refs] in Hin. apply elem_of_cons in Hin as [-> | Hin].
  { exists []. by rewrite app_nil_r. }
  apply elem_of_flat_map in Hin as (child & Hchild & Hin).
  rewrite Forall_forall in IH. rewrite Forall_forall in Hchildren.
  destruct (Hchildren child Hchild) as (Hname & Hdot & Hnamed').
  destruct (IH child Hchild (Some (mkRef info parent)) f Hnamed') as (segments & Hnames & Hdots & Hbelow & Hfind);
    [by split | exact Hin |].
  exists (fName (fInfo child) :: segments). split; [|split; [|split]].
  - rewrite Hnames. cbn [names_from_root]. by rewrite <- app_assoc.
  - by constructor.
  - exact Hbelow.
  - cbn [FindField_loop GetSubFields]. by rewrite (find_NoDup_names _ _ Hnodup Hchild).
Qed.

Lemma subtree_refs_GetParent (field : RFieldBase) :
  ∀ (parent g : FieldRef), g ∈ subtree_refs (Some parent) field → GetParent g ≠ None.
Proof.
  induction field as [info subFields IH] using RFieldBase_tree_ind.
  intros parent g. cbn [subtree_refs]. intros [-> | Hg]%elem_of_cons; [done|].
  apply elem_of_flat_map in Hg as (c & Hc & Hg).
  rewrite Forall_forall in IH. exact (IH c Hc _ g Hg).
Qed.

(** X18. Every field of a well-named model is found under its qualified
    name: when the zero field is nameless and, below it, siblings have
    distinct names and every name is non-empty and free of dots, [FindField]
    and [GetField] at the qualified name of a field that the schema iterator
    visits return that very field. *)
Theorem FindField_GetQualifiedFieldName (m : RNTupleModel) (f : FieldRef) :
  fName (fInfo (fFieldZero m)) = "" →
  well_named (fFieldZero m) →
  f ∈ schema_iter (get (fFieldZero m)) (fFieldZero m) →
  FindField m (GetQualifiedFieldName f) = Some f ∧
  GetField m (GetQualifiedFieldName f) = Returns f.
Proof.
  intros Hzero Hnamed Hin.
  assert (FindField m (GetQualifiedFieldName f) = Some f) as Hfound;
    [|split; [exact Hfound | unfold GetField; by rewrite Hfound]].
  assert (f ∈ subtree_refs None (fFieldZero m)) as Hsub.
  { destruct (fFieldZero m). cbn [subtree_refs]. by right. }
  destruct (FindField_loop_complete (fFieldZero m) None f Hnamed Hzero Hsub)
    as (segments & Hnames & Hdots & Hbelow & Hfind).
  cbn [names_from_root app] in Hnames.
  assert (GetParent f ≠ None) as Hparent.
  { unfold schema_iter in Hin. apply elem_of_flat_map in Hin as (child & _ & Hin).
    exact (subtree_refs_GetParent _ _ _ Hin). }
  destruct f as [info [parent|]]; [|done].
  destruct Hbelow as [Hname Hbelow]. cbn [names_from_root] in Hnames.
  unfold GetQualifiedFieldName. cbn [GetParent].
  rewrite (GetQualifiedFieldName_loop_dotted _ Hbelow).
  unfold GetFieldName. cbn [rInfo].
  assert (Forall (fun s => no_dot s = true) (names_from_root parent ++ [fName info])) as Hall
    by (by rewrite Hnames).
  apply Forall_app in Hall as [Hprefix Hlast]. apply Forall_cons in Hlast as [Hlast _].
  unfold FindField.
  assert (Split (dotted (names_from_root parent) +:+ fName info) = segments) as Hsplit
    by (by rewrite Split_dotted, Hnames).
  rewrite bool_decide_eq_false_2.
  - by rewrite Hsplit.
  - intros Hempty. rewrite Hempty in Hsplit. cbn in Hsplit. rewrite <- Hsplit in Hnames.
    destruct (names_from_root parent) as [|s names]; [|by destruct names].
    cbn in Hnames. by injection Hnames as Heq.
Qed.

(** The element field of the collection [c] of the worked model. *)
Lemma FindField_GetQualifiedFieldName_witness :
  GetQualifiedFieldName Example.ref_c0 = "c._0" ∧
  GetField Example.model "c._0" = Returns Example.ref_c0.
Proof.
  assert (well_named (fFieldZero Example.model)) as Hnamed.
  { vm_compute.
    repeat first [ apply well_named_field | apply Forall_cons_2 | apply Forall_nil_2 | split
                 | discriminate | reflexivity
                 | (apply (bool_decide_unpack _); vm_compute; exact I) ]. }
  assert (Example.ref_c0 ∈ schema_iter (get (fFieldZero Example.model)) (fFieldZero Example.model))
    as Hin by (vm_compute; repeat first [apply list_elem_of_here | apply list_elem_of_further]).
  split; [reflexivity|].
  exact (proj2 (FindField_GetQualifiedFieldName Example.model Example.ref_c0 eq_refl Hnamed Hin)).
Defined.

(** ** The projected fields of a clone *)

Lemma FindField_elem_of (m : RNTupleModel) (fieldName : string) (f : FieldRef) :
  FindField m fieldName = Some f → f ∈ schema_iter (get (fFieldZero m)) (fFieldZero m).
Proof.
  unfold FindField. case_bool_decide as Hempty; [discriminate|].
  intros Hloop. apply FindField_loop_sound in Hloop as [Hsub Hnames].
  destruct (fFieldZero m) as [info subFields]. cbn [subtree_refs] in Hsub.
  apply elem_of_cons in Hsub as [-> | Hsub]; [|exact Hsub].
  by destruct (Split_nonempty fieldName).
Qed.

Lemma FindField_same_tree (m m' : RNTupleModel) (fieldName : string) :
  fFieldZero m' = fFieldZero m → FindField m' fieldName = FindField m fieldName.
Proof. unfold FindField. by intros ->. Qed.

Lemma Clone_rewire_stops (fieldZero cloneFieldZero : RFieldBase) (newModel : RNTupleModel)
    (mappings : list (ptr * FieldRef)) (acc : outcome FieldMap_t) (cloneMap : FieldMap_t) :
  fold_left (Clone_rewire fieldZero cloneFieldZero newModel) mappings acc = Returns cloneMap →
  ∃ map, acc = Returns map.
Proof.
  revert acc. induction mappings as [|kv mappings IH]; intros acc; cbn [fold_left].
  - intros ->. by eexists.
  - intros Hfold. apply IH in Hfold as [map Hstep].
    destruct acc as [map0|what|]; [by eexists | discriminate..].
Qed.

(** Every mapping the loop of [RProjectedFields::Clone] writes sends a
    field of the cloned projected tree to what [GetField] of the new model
    returns for the source of a mapping of the original. *)
Lemma Clone_rewire_sources (fieldZero cloneFieldZero : RFieldBase) (newModel : RNTupleModel)
    (mappings : list (ptr * FieldRef)) :
  ∀ (map cloneMap : FieldMap_t) (wired : ptr → FieldRef → Prop),
    (∀ f kv source, f ∈ schema_iter (get cloneFieldZero) cloneFieldZero → kv ∈ mappings →
                    GetField newModel (GetQualifiedFieldName kv.2) = Returns source →
                    wired (addr_of f) source) →
    (∀ target source, map !! target = Some source → wired target source) →
    fold_left (Clone_rewire fieldZero cloneFieldZero newModel) mappings (Returns map)
      = Returns cloneMap →
    ∀ target source, cloneMap !! target = Some source → wired target source.
Proof.
  induction mappings as [|kv mappings IH]; intros map cloneMap wired Hstep Hmap; cbn [fold_left].
  - by intros [= <-].
  - intros Hfold.
    destruct (Clone_rewire_stops _ _ _ _ _ _ Hfold) as [map' Hmap'].
    rewrite Hmap' in Hfold. apply (IH map' cloneMap wired); [|clear Hfold|exact Hfold].
    + intros f kv' source Hf Hkv. apply Hstep; [exact Hf | by right].
    + unfold Clone_rewire in Hmap'.
      destruct (List.find _ (schema_iter (get fieldZero) fieldZero)) as [k|]; [|discriminate].
      destruct (List.find _ (schema_iter (get cloneFieldZero) cloneFieldZero)) as [f|] eqn:Hf.
      2:{ injection Hmap' as <-. exact Hmap. }
      apply find_some_elem_of in Hf as [Hf _].
      destruct (GetField newModel (GetQualifiedFieldName kv.2)) as [found|what|] eqn:Hfound;
        [|discriminate..].
      injection Hmap' as <-. intros target source.
      destruct (decide (target = addr_of f)) as [-> | Hne].
      * rewrite lookup_insert_eq. intros [= <-]. apply (Hstep f kv found Hf); [by left | exact Hfound].
      * rewrite lookup_insert_ne by done. apply Hmap.
Qed.

(** X19. The projected fields of a clone refer to the clone only. When
    [Clone] returns, the projected tree of the clone is a copy of the
    projected tree of the original, and every mapping of its table sends a
    field of that copy to a field of the clone's own tree: the field that
    [FindField] finds in the clone under the qualified name of the source of
    some mapping of the original. *)
Theorem Clone_projected_sources (m : RNTupleModel) (reloc : ptr → ptr) (g : Z) (clone : RNTupleModel) :
  (Clone m reloc g).1 = Returns clone →
  ∃ projectedFields cloneProjected,
    fProjectedFields m = Some projectedFields ∧
    fProjectedFields clone = Some cloneProjected ∧
    pfFieldZero cloneProjected = Clone_field reloc (pfFieldZero projectedFields) ∧
    ∀ target source,
      GetSourceField cloneProjected target = Some source →
      (∃ f, f ∈ schema_iter (get (pfFieldZero cloneProjected)) (pfFieldZero cloneProjected) ∧
            addr_of f = target) ∧
      source ∈ schema_iter (get (fFieldZero clone)) (fFieldZero clone) ∧
      ∃ k v, GetSourceField projectedFields k = Some v ∧
             FindField clone (GetQualifiedFieldName v) = Some source.
Proof.
  unfold Clone, RNTupleModel_new, RProjectedFields_Clone, GetNewModelId. cbv zeta. cbn [fst snd].
  destruct (fProjectedFields m) as [projectedFields|]; [|discriminate].
  set (newModel := mkModel (Clone_field reloc (fFieldZero m)) None ∅ "" None false _ _).
  destruct (fold_left _ _ _) as [cloneMap|what|] eqn:Hfold; [|discriminate..].
  intros [= <-].
  exists projectedFields, (mkProjectedFields (Clone_field reloc (pfFieldZero projectedFields)) cloneMap).
  split; [reflexivity|]. split; [reflexivity|]. split; [reflexivity|].
  unfold GetSourceField. cbn [pfFieldZero pfFieldMap fFieldZero].
  intros target source Hlookup.
  pose (wired := fun (target : ptr) (source : FieldRef) =>
          (∃ f, f ∈ schema_iter (get (Clone_field reloc (pfFieldZero projectedFields)))
                                (Clone_field reloc (pfFieldZero projectedFields)) ∧
                addr_of f = target) ∧
          source ∈ schema_iter (get (Clone_field reloc (fFieldZero m)))
                               (Clone_field reloc (fFieldZero m)) ∧
          ∃ k v, pfFieldMap projectedFields !! k = Some v ∧
                 FindField newModel (GetQualifiedFieldName v) = Some source).
  assert (wired target source) as Hwired.
  { apply (Clone_rewire_sources (pfFieldZero projectedFields)
             (Clone_field reloc (pfFieldZero projectedFields)) newModel
             (map_to_list (pfFieldMap projectedFields)) ∅ cloneMap wired); [| |exact Hfold|exact Hlookup].
    - intros f [k v] found Hf Hkv Hfound. cbn [snd] in Hfound. unfold GetField in Hfound.
      destruct (FindField newModel (GetQualifiedFieldName v)) as [found'|] eqn:Hfind; [|discriminate].
      injection Hfound as <-. split; [by exists f|]. split.
      + exact (FindField_elem_of newModel _ _ Hfind).
      + exists k, v. split; [by apply elem_of_map_to_list | exact Hfind].
    - intros a s Hempty. by rewrite lookup_empty in Hempty. }
  destruct Hwired as (Htarget & Hsource & k & v & Hkv & Hfind).
  split; [exact Htarget|]. split; [exact Hsource|]. exists k, v. split; [exact Hkv|].
  rewrite <- Hfind. by apply FindField_same_tree.
Qed.

(** A clone of the worked model with the projected collection [q], its
    objects a hundred addresses further: the copy of [q] has the copy of [c]
    as its source. *)
Lemma Clone_projected_sources_witness :
  ∃ clone cloneProjected,
    (Clone model_q (Pos.add 100) 1).1 = Returns clone ∧
    fProjectedFields clone = Some cloneProjected ∧
    GetSourceField cloneProjected 180 = Some (relocate (Pos.add 100) Example.ref_c) ∧
    relocate (Pos.add 100) Example.ref_c ∈ schema_iter (get (fFieldZero clone)) (fFieldZero clone).
Proof.
  destruct (Clone model_q (Pos.add 100) 1).1 as [clone| |] eqn:Hclone;
    [|vm_compute in Hclone; discriminate..].
  destruct (Clone_projected_sources _ _ _ _ Hclone)
    as (projectedFields & cloneProjected & _ & Hprojected & _ & Hsources).
  exists clone, cloneProjected. split; [reflexivity|]. split; [exact Hprojected|].
  assert (GetSourceField cloneProjected 180 = Some (relocate (Pos.add 100) Example.ref_c)) as Hsource.
  { vm_compute in Hclone. injection Hclone as <-. vm_compute in Hprojected.
    injection Hprojected as <-. reflexivity. }
  split; [exact Hsource|]. by destruct (Hsources _ _ Hsource) as (_ & Hin & _).
Defined.

(** ** Identifiers and the tokens taken before an [Unfreeze] *)

Lemma ids_issued_run_model_op (valid : string → RResult) (op : model_op) (m : RNTupleModel) (g : Z) :
  ids_issued m g →
  0 ≤ g < u64_modulus - 1 →
  ids_issued (run_model_op valid op m g).1 (run_model_op valid op m g).2 ∧
  g ≤ (run_model_op valid op m g).2 ≤ g + 1.
Proof.
  intros Hids Hg. unfold ids_issued in *.
  destruct op as [field|field mapping|description| |]; cbn [run_model_op fst snd].
  - destruct (AddField_same_ids valid m field) as (_ & -> & ->). lia.
  - destruct (AddProjectedField_same_ids valid m field mapping) as (_ & -> & ->). lia.
  - destruct (SetDescription_same_ids m description) as (_ & -> & ->). lia.
  - cbn. lia.
  - unfold Unfreeze. destruct (negb (IsFrozen m)); [cbn [fst snd]; lia|].
    rewrite (GetNewModelId_no_wrap g Hg). cbn. lia.
Qed.

Lemma ids_issued_run_model_ops (valid : string → RResult) (ops : list model_op) :
  ∀ (m : RNTupleModel) (g : Z),
    ids_issued m g →
    0 ≤ g →
    g + Z.of_nat (length ops) < u64_modulus →
    ids_issued (run_model_ops valid ops m g).1 (run_model_ops valid ops m g).2 ∧
    g ≤ (run_model_ops valid ops m g).2 ≤ g + Z.of_nat (length ops).
Proof.
  unfold run_model_ops. induction ops as [|op ops IH]; intros m g Hids Hg Hroom.
  - cbn. split; [exact Hids | lia].
  - cbn [fold_left fst snd]. cbn [length] in Hroom.
    destruct (ids_issued_run_model_op valid op m g Hids) as [Hids' Hg']; [lia|].
    destruct (run_model_op valid op m g) as [m1 g1]. cbn [fst snd] in *.
    destruct (IH m1 g1 Hids') as [Hfinal Hbound]; [lia..|].
    split; [exact Hfinal|]. cbn [length]. lia.
Qed.

(** X20. The identifiers of a model never run ahead of the generator, and
    an [Unfreeze] outdates the tokens taken before it. While the 64-bit
    counter does not wrap: in a model built by [Create] or [CreateBare]
    through any sequence of operations, model id and schema id are positive
    and at most the counter; a clone keeps this. So when such a model is
    frozen and then unfrozen, a name that had a token gets a token with the
    same index and a schema id strictly above the one of the old token,
    which therefore no longer matches the model. *)
Theorem Unfreeze_outdates_tokens (valid : string → RResult) :
  (∀ fieldZero projZero g ops,
     0 ≤ g →
     g + 1 + Z.of_nat (length ops) < u64_modulus →
     let bare := CreateBare fieldZero projZero g in
     let created := Create fieldZero projZero g in
     ids_issued (run_model_ops valid ops bare.1 bare.2).1 (run_model_ops valid ops bare.1 bare.2).2 ∧
     ids_issued (run_model_ops valid ops created.1 created.2).1
                (run_model_ops valid ops created.1 created.2).2) ∧
  (∀ m reloc g clone,
     ids_issued m g →
     0 ≤ g < u64_modulus - 2 →
     (Clone m reloc g).1 = Returns clone →
     ids_issued clone (Clone m reloc g).2) ∧
  (∀ m g fieldName token,
     ids_issued m g →
     0 ≤ g < u64_modulus - 1 →
     IsFrozen m = true →
     GetToken m fieldName = Returns token →
     GetToken (Unfreeze m g).1 fieldName = Returns (mkToken (tIndex token) (g + 1)) ∧
     tSchemaId token < g + 1 ∧
     tSchemaId token ≠ fSchemaId (Unfreeze m g).1).
Proof.
  split; [|split].
  - intros fieldZero projZero g ops Hg Hroom bare created.
    assert (GetNewModelId g = (g + 1, g + 1)) as Hnew by (apply GetNewModelId_no_wrap; lia).
    assert (ids_issued bare.1 bare.2 ∧ bare.2 = g + 1) as [Hbare Hcounter].
    { unfold bare, CreateBare, RNTupleModel_new, ids_issued. rewrite Hnew. cbn. lia. }
    assert (ids_issued created.1 created.2 ∧ created.2 = g + 1) as [Hcreated Hcounter'].
    { unfold created, Create, CreateBare, RNTupleModel_new, ids_issued. rewrite Hnew. cbn. lia. }
    rewrite Hcounter in *. rewrite Hcounter' in *. split.
    + apply ids_issued_run_model_ops; [exact Hbare | lia | lia].
    + apply ids_issued_run_model_ops; [exact Hcreated | lia | lia].
  - intros m reloc g clone Hids Hg Hclone.
    apply Clone_returns in Hclone as Hreturns.
    destruct Hreturns as (pf & cloneMap & Hpf & _ & _ & _ & _ & _ & Hmodel & Hschema & _).
    assert ((Clone m reloc g).2 = g + 2) as ->.
    { unfold Clone, RNTupleModel_new. rewrite (GetNewModelId_no_wrap g) by lia.
      rewrite (GetNewModelId_no_wrap (g + 1)) by lia. rewrite Hpf.
      destruct (RProjectedFields_Clone _ _ _); cbn; lia. }
    rewrite (GetNewModelId_no_wrap g) in Hmodel by lia. cbn [snd] in Hmodel.
    rewrite (GetNewModelId_no_wrap (g + 1)) in Hmodel by lia. cbn [fst] in Hmodel.
    unfold ids_issued in *. rewrite Hschema, Hmodel. destruct (fIsFrozen m); lia.
  - intros m g fieldName token Hids Hg Hfrozen [Hschema (f & Hfind)]%GetToken_Returns.
    assert (fFieldZero (Unfreeze m g).1 = fFieldZero m ∧ fSchemaId (Unfreeze m g).1 = g + 1)
      as [Hzero Hnew].
    { unfold Unfreeze. rewrite Hfrozen. cbn [negb]. rewrite (GetNewModelId_no_wrap g Hg). done. }
    unfold ids_issued in Hids. split; [|rewrite Hnew, Hschema; lia].
    apply GetToken_Returns. cbn [tIndex tSchemaId]. split; [by rewrite Hnew|].
    exists f. by rewrite Hzero.
Qed.

(** The frozen worked model, unfrozen when the counter stands at 1: the
    token of [y] keeps its index and moves from schema id 1 to 2. *)
Lemma Unfreeze_outdates_tokens_witness :
  GetToken (Freeze Example.model) "y" = Returns (mkToken 1 1) ∧
  GetToken (Unfreeze (Freeze Example.model) 1).1 "y" = Returns (mkToken 1 2).
Proof.
  assert (GetToken (Freeze Example.model) "y" = Returns (mkToken 1 1)) as Htoken by reflexivity.
  split; [exact Htoken|].
  apply (proj2 (proj2 (Unfreeze_outdates_tokens Example.EnsureValidFieldName_nonempty))
           (Freeze Example.model) 1 "y" (mkToken 1 1)).
  - assert (fModelId (Freeze Example.model) = 1 ∧ fSchemaId (Freeze Example.model) = 1)
      as [Hmodel Hschema] by (split; reflexivity).
    unfold ids_issued. rewrite Hmodel, Hschema. lia.
  - unfold u64_modulus. lia.
  - reflexivity.
  - exact Htoken.
Defined.

(** ** What an accepted projected field guarantees *)

Lemma EnsureValidMapping_Success (target : FieldRef) (fieldMap : FieldMap_t) :
  EnsureValidMapping target fieldMap = Returns Success →
  ∃ source, fieldMap !! addr_of target = Some source ∧ passes_field_checks target source.
Proof.
  intros Hvalid.
  destruct (fieldMap !! addr_of target) as [source|] eqn:Hmap.
  - exists source. split; [reflexivity|].
    destruct (decide (passes_field_checks target source)) as [Hchecks|Hfails]; [exact Hchecks|].
    destruct (EnsureValidMapping_early target source fieldMap Hmap Hfails) as [what Hwhat].
    congruence.
  - unfold EnsureValidMapping in Hvalid. rewrite Hmap in Hvalid. discriminate.
Qed.

(** X21. A projected field that the model has accepted is compatible with
    its source. After a successful [AddProjectedField], every field of the
    added tree whose address was not a key of the table before has a source
    in the table, and against that source it has the same structural kind
    (or is a cardinality field over a collection), has the same type name
    when the source is a leaf or unsplit, and neither of the two lies below
    a fixed-size array. *)
Theorem AddProjectedField_sources_compatible
    (valid : string → RResult) (m : RNTupleModel) (field : RFieldBase)
    (mapping : string → string) (m' : RNTupleModel) :
  AddProjectedField valid m (Some field) mapping = (Returns Success, m') →
  ∃ projectedFields projectedFields',
    fProjectedFields m = Some projectedFields ∧
    fProjectedFields m' = Some projectedFields' ∧
    ∀ target,
      target ∈ get field :: schema_iter (get field) field →
      GetSourceField projectedFields (addr_of target) = None →
      ∃ source,
        GetSourceField projectedFields' (addr_of target) = Some source ∧
        (GetStructure source = GetStructure target ∨
         (GetStructure source = kCollection ∧ fIsCardinality (rInfo target) = true)) ∧
        (GetStructure source = kLeaf ∨ GetStructure source = kUnsplit →
         GetTypeName target = GetTypeName source) ∧
        fnHasArrayParent source = false ∧
        fnHasArrayParent target = false.
Proof.
  intros Hrun.
  destruct (AddProjectedField_outcome valid m (Some field) mapping _ _ Hrun) as (_ & _ & Hsuccess).
  destruct (Hsuccess eq_refl)
    as (f & projectedFields & fieldMap & [= <-] & Hpf & _ & Hvalid & ->).
  exists projectedFields, (mkProjectedFields (Attach (pfFieldZero projectedFields) field)
                                             (pfFieldMap projectedFields ∪ fieldMap)).
  split; [exact Hpf|]. split; [reflexivity|].
  intros target Htarget Hnew. unfold GetSourceField in *. cbn [pfFieldMap].
  destruct (EnsureValidMapping_Success target fieldMap (Hvalid target Htarget))
    as (source & Hmap & Hchecks).
  exists source. split; [|exact Hchecks].
  by rewrite lookup_union_r.
Qed.

(** The collection [q] projected from [c]: the element field [q._0] is a
    leaf of type [float], as its source [c._0] is. *)
Lemma AddProjectedField_sources_compatible_witness :
  ∃ projectedFields' source,
    fProjectedFields model_q = Some projectedFields' ∧
    GetSourceField projectedFields' 81 = Some source ∧
    GetTypeName source = "float" ∧
    GetStructure source = kLeaf.
Proof.
  assert (AddProjectedField Example.EnsureValidFieldName_nonempty Example.model (Some field_q) mapping_q
          = (Returns Success, model_q)) as Hrun by (vm_compute; reflexivity).
  destruct (AddProjectedField_sources_compatible _ _ _ _ _ Hrun)
    as (projectedFields & projectedFields' & Hpf & Hpf' & Hsources).
  assert (Some projectedFields = Some (mkProjectedFields (RFieldZero_new 10) ∅)) as [= ->]
    by (rewrite <- Hpf; reflexivity).
  destruct (Hsources (mkRef (mkInfo 81 "_0" "float" kLeaf 0 false) (Some (get field_q))))
    as (source & Hsource & Hkind & Htype & _); [right; by left | reflexivity |].
  exists projectedFields', source. split; [exact Hpf'|]. split; [exact Hsource|].
  cbn in Hkind, Htype. destruct Hkind as [Hkind | [Hkind Hcardinality]]; [|discriminate].
  split; [|exact Hkind]. symmetry. apply Htype. by left.
Defined.
